(** * EventEmitter (src/index.ts): a shallow embedding and its properties

    The class [EventEmitter] is embedded as functions over an explicit
    state.  The methods are translated one by one from [src/index.ts]; the
    functions that user code registers as listeners are a parameter of the
    development: a table [code] gives, for each function identity, the calls
    it makes back into the emitter, whether it throws, and what it returns.

    Modelling decisions, all taken from the source:
    - a JavaScript function has reference identity.  User functions are
      identified by a number; a once-wrapper is a closure allocated by
      [createOnceWrapper], identified by an allocation counter, and it
      remembers the [event] and the [listener] it closes over.  A wrapper is
      a function like any other: [rawListeners] hands it out, and a caller
      may pass it wherever a listener is expected, so the listener of a
      wrapper is any entry;
    - [this.events] and [this.warningEmitted] are object literals.  Reading
      a name that is not an own property finds what [Object.prototype] has
      under that name: a method ([toString], [hasOwnProperty], ...) or the
      accessor [__proto__].  [events] and [warningEmitted] hold the own
      properties; [events_at] and [warned] are the reads.  A method applied
      to a value that does not have it ([push] on a function) and the spread
      of a value that cannot be iterated throw a [TypeError], whose message
      is the engine's and is not modelled.  [onceListeners] is a [Map] and
      has no such names;
    - [this.events[event]] holds a reference to an array object.  [push] and
      [unshift] update that object in place, [filter] builds a new one, and
      [forEach] reads the object it was called on element by element.  The
      arrays therefore live in a [heap], and [events] maps names to
      locations.  The arrays of [onceListeners] are only read by [filter],
      so they are kept as values;
    - [warningEmitted] only ever receives [true]: it is the set of its keys;
    - [maxListeners] ranges over the integers and [Infinity];
    - the diagnostic of [emitMaxListenersExceeded] is recorded by the values
      that fill the template of its message; the text, which depends on how
      the host prints a number, is not modelled;
    - [eventNames()] is the set of the keys, not their order;
    - a listener may call [emit] again, so [emit] takes a bound on the depth
      of nested emissions ([fuel]); every call returns a completion and the
      state reached;
    - the calls of user functions, the diagnostics and the rejected promises
      that [catch] was attached to are recorded in the state, which is how
      the statements observe them. *)

From Stdlib Require Import Sorted.
From stdpp Require Import gmap list fin_maps strings.

(** ** Data *)

(** Identities of user functions and locations of array objects. *)
Abbreviation fid := nat (only parsing).
Abbreviation loc := nat (only parsing).

Inductive value :=
  | VString (s : string)
  | VNumber (z : Z)
  | VError (message : string)
  | VTypeError.

(** [number] as far as [maxListeners] uses it. *)
Inductive number :=
  | Int (z : Z)
  | Infinity.

(** An element of [events[event]]: [Listener<T, K> | OnceListenerWrapper<T, K>]. *)
Inductive entry :=
  | Listener (f : fid)
  | OnceListenerWrapper (w : nat) (event : string) (listener : entry).

(** [a === b] on functions. *)
Definition same_ref (a b : entry) : bool :=
  match a, b with
  | Listener f, Listener g => bool_decide (f = g)
  | OnceListenerWrapper w _ _, OnceListenerWrapper w' _ _ => bool_decide (w = w')
  | _, _ => false
  end.

(** [l.listener], [None] when ['listener' in l] is false. *)
Definition dot_listener (l : entry) : option entry :=
  match l with
  | Listener _ => None
  | OnceListenerWrapper _ _ listener => Some listener
  end.

(** [wrapper.listener === listener] *)
Definition wraps (listener wrapper : entry) : bool :=
  match dot_listener wrapper with
  | Some o => same_ref o listener
  | None => false
  end.

(** [l === listener || ( 'listener' in l && l.listener === listener )] *)
Definition matches (listener l : entry) : bool :=
  same_ref l listener || wraps listener l.

(** What [Object.prototype] holds under a name: a method, with the number
    of its parameters (its [length]), or the accessor [__proto__], which
    reads as [Object.prototype] itself, an object without [length]. *)
Inductive inherited :=
  | Method (length : nat)
  | ProtoAccessor.

Definition Object_prototype_properties : list (string * inherited) :=
  [("constructor", Method 1);
   ("__defineGetter__", Method 2);
   ("__defineSetter__", Method 2);
   ("hasOwnProperty", Method 1);
   ("__lookupGetter__", Method 1);
   ("__lookupSetter__", Method 1);
   ("isPrototypeOf", Method 1);
   ("propertyIsEnumerable", Method 1);
   ("toString", Method 0);
   ("valueOf", Method 0);
   ("__proto__", ProtoAccessor);
   ("toLocaleString", Method 0)].

Definition Object_prototype (name : string) : option inherited :=
  snd <$> List.find (λ p, bool_decide (p.1 = name)) Object_prototype_properties.

(** Is [name] a property of [Object.prototype]. *)
Definition inherited_name (name : string) : bool :=
  match Object_prototype name with
  | Some _ => true
  | None => false
  end.

(** [v.length] *)
Definition inherited_length (v : inherited) : option nat :=
  match v with
  | Method n => Some n
  | ProtoAccessor => None
  end.

(** The diagnostic of [emitMaxListenersExceeded]: the facility that
    delivered it, its [id], and the values of the message
    ["Possible EventEmitter memory leak detected. {count} {event} listeners
    added to [{class}]. MaxListeners is {ceiling}. Use
    emitter.setMaxListeners() to increase limit"]. *)
Inductive facility :=
  | ProcessEmitWarning
  | ConsoleWarn.

Record warning := Warning {
  facility_used : facility;
  warning_id : string;
  warning_count : nat;
  warning_event : string;
  warning_class : string;
  warning_ceiling : number
}.

Record emitter := Emitter {
  (* fields of the class *)
  maxListeners : number;
  events : gmap string loc;
  warningEmitted : gset string;
  onceListeners : gmap string (list entry);
  captureRejections : bool;
  constructor_name : string;
  (* the store of array objects and the wrapper allocation counter *)
  heap : list (list entry);
  next_wrapper : nat;
  (* the host: is [process] defined, and what has been observed *)
  process_defined : bool;
  calls : list (fid * list value);
  warnings : list warning;
  rejections : list value
}.

Definition set_maxListeners (n : number) (st : emitter) : emitter :=
  Emitter n (events st) (warningEmitted st) (onceListeners st)
    (captureRejections st) (constructor_name st) (heap st) (next_wrapper st)
    (process_defined st) (calls st) (warnings st) (rejections st).

Definition set_events (ev : gmap string loc) (st : emitter) : emitter :=
  Emitter (maxListeners st) ev (warningEmitted st) (onceListeners st)
    (captureRejections st) (constructor_name st) (heap st) (next_wrapper st)
    (process_defined st) (calls st) (warnings st) (rejections st).

Definition set_warningEmitted (we : gset string) (st : emitter) : emitter :=
  Emitter (maxListeners st) (events st) we (onceListeners st)
    (captureRejections st) (constructor_name st) (heap st) (next_wrapper st)
    (process_defined st) (calls st) (warnings st) (rejections st).

Definition set_onceListeners (ol : gmap string (list entry)) (st : emitter) : emitter :=
  Emitter (maxListeners st) (events st) (warningEmitted st) ol
    (captureRejections st) (constructor_name st) (heap st) (next_wrapper st)
    (process_defined st) (calls st) (warnings st) (rejections st).

Definition set_heap (h : list (list entry)) (st : emitter) : emitter :=
  Emitter (maxListeners st) (events st) (warningEmitted st) (onceListeners st)
    (captureRejections st) (constructor_name st) h (next_wrapper st)
    (process_defined st) (calls st) (warnings st) (rejections st).

Definition set_next_wrapper (n : nat) (st : emitter) : emitter :=
  Emitter (maxListeners st) (events st) (warningEmitted st) (onceListeners st)
    (captureRejections st) (constructor_name st) (heap st) n
    (process_defined st) (calls st) (warnings st) (rejections st).

Definition set_calls (c : list (fid * list value)) (st : emitter) : emitter :=
  Emitter (maxListeners st) (events st) (warningEmitted st) (onceListeners st)
    (captureRejections st) (constructor_name st) (heap st) (next_wrapper st)
    (process_defined st) c (warnings st) (rejections st).

Definition set_warnings (w : list warning) (st : emitter) : emitter :=
  Emitter (maxListeners st) (events st) (warningEmitted st) (onceListeners st)
    (captureRejections st) (constructor_name st) (heap st) (next_wrapper st)
    (process_defined st) (calls st) w (rejections st).

Definition set_rejections (r : list value) (st : emitter) : emitter :=
  Emitter (maxListeners st) (events st) (warningEmitted st) (onceListeners st)
    (captureRejections st) (constructor_name st) (heap st) (next_wrapper st)
    (process_defined st) (calls st) (warnings st) r.

(** The array object at a location. *)
Definition array (st : emitter) (a : loc) : list entry :=
  default [] (heap st !! a).

(** What [this.events[event]] reads as: an own property, else the property
    of [Object.prototype], else [undefined]. *)
Inductive property :=
  | Undefined
  | ArrayRef (a : loc)
  | Inherited (v : inherited).

Definition events_at (st : emitter) (event : string) : property :=
  match events st !! event with
  | Some a => ArrayRef a
  | None =>
    match Object_prototype event with
    | Some v => Inherited v
    | None => Undefined
    end
  end.

(** Is [this.warningEmitted[event]] truthy: the own flag, else the
    property of [Object.prototype]. *)
Definition warned (st : emitter) (event : string) : bool :=
  bool_decide (event ∈ warningEmitted st) || inherited_name event.

(** The elements of the array that is the own property [event] of
    [events] ([[]] when there is none). *)
Definition entries (st : emitter) (event : string) : list entry :=
  match events st !! event with
  | Some a => array st a
  | None => []
  end.

(** [this.onceListeners.get( event ) || []] *)
Definition onceEntries (st : emitter) (event : string) : list entry :=
  default [] (onceListeners st !! event).

(** [this.events[event] = xs]: the property now refers to a new array. *)
Definition assign_events (event : string) (xs : list entry) (st : emitter) : emitter :=
  set_events (<[event := length (heap st)]> (events st)) (set_heap (heap st ++ [xs]) st).

(** [this.events[event] ||= []] *)
Definition ensure_events (event : string) (st : emitter) : emitter :=
  match events_at st event with
  | Undefined => assign_events event [] st
  | _ => st
  end.

(** ** Completions *)

Inductive completion (A : Type) :=
  | Normal (a : A)
  | Thrown (v : value)
  | OutOfFuel.
Arguments Normal {A} a.
Arguments Thrown {A} v.
Arguments OutOfFuel {A}.

Definition M (A : Type) : Type := emitter → completion A * emitter.

Definition ret {A} (a : A) : M A := fun st => (Normal a, st).

Definition bind {A B} (m : M A) (k : A → M B) : M B :=
  fun st =>
    match m st with
    | (Normal a, st1) => k a st1
    | (Thrown v, st1) => (Thrown v, st1)
    | (OutOfFuel, st1) => (OutOfFuel, st1)
    end.

Definition modify (f : emitter → emitter) : M unit := fun st => (Normal tt, f st).

Definition throw {A} (v : value) : M A := fun st => (Thrown v, st).

(** [try { m } catch ( err ) { handler err }] *)
Definition try_catch {A} (m : M A) (handler : value → M A) : M A :=
  fun st =>
    match m st with
    | (Thrown v, st1) => handler v st1
    | r => r
    end.

Notation "'let*' x ':=' m 'in' k" := (bind m (fun x => k))
  (at level 10, x name, m at level 100, k at level 200).
Notation "m >> k" := (bind m (fun _ => k))
  (at level 90, right associativity).

(** A method that reads the state and changes nothing. *)
Definition query {A} (q : emitter → completion A) : M A := fun st => (q st, st).

(** The state a call leaves, whether it returns or throws. *)
Definition after {A} (m : M A) (st : emitter) : emitter := (m st).2.

(** [xs.map( callback )] for its effects: [xs] is a copy nobody else
    holds. *)
Fixpoint for_each {A} (xs : list A) (callback : A → M unit) : M unit :=
  match xs with
  | [] => ret tt
  | x :: xs' => callback x >> for_each xs' callback
  end.

(** ** The constructor *)

Definition defaultMaxListeners : number := Int 10.

Definition negative (n : number) : bool :=
  match n with
  | Int z => bool_decide (z < 0)%Z
  | Infinity => false
  end.

(** [new EventEmitter( { captureRejections } )], with the value the static
    [defaultMaxListeners] has at that moment; [None] is the [RangeError]. *)
Definition new_emitter (default_max : number) (captureRejections : option bool)
    (process : bool) : option emitter :=
  if negative default_max then None
  else Some (Emitter default_max ∅ ∅ ∅ (default false captureRejections)
               "EventEmitter" [] 0 process [] [] []).

(** ** Methods that do not call listeners *)

(** [this.events[event].length <= this.maxListeners] *)
Definition length_le (n : nat) (m : number) : bool :=
  match m with
  | Int z => bool_decide (Z.of_nat n ≤ z)%Z
  | Infinity => true
  end.

Definition MaxListenersExceededWarning : string := "MaxListenersExceededWarning".

(** The diagnostic for [count] entries of [event]. *)
Definition diagnostic (st : emitter) (event : string) (count : nat) : warning :=
  Warning (if process_defined st then ProcessEmitWarning else ConsoleWarn)
    MaxListenersExceededWarning count event (constructor_name st) (maxListeners st).

(** Past the check of the flag the name is not one of [Object.prototype]
    (lemma [warned_inherited]), so [this.events[event]] is the own property
    or [undefined]. *)
Definition emitMaxListenersExceeded (event : string) (st : emitter) : emitter :=
  match maxListeners st with
  | Int 0 => st
  | Infinity => st
  | _ =>
    if warned st event then st
    else match events st !! event with
    | None => st
    | Some a =>
      if length_le (length (array st a)) (maxListeners st) then st
      else
        set_warnings (warnings st ++ [diagnostic st event (length (array st a))])
          (set_warningEmitted ({[event]} ∪ warningEmitted st) st)
    end
  end.

(** [this.events[event].push( listener )] and [.unshift( listener )]: the
    array object is updated in place; a value that is not an array has
    neither method. *)
Definition push_listener (event : string) (listener : entry) : M unit :=
  fun st =>
    match events_at st event with
    | ArrayRef a => (Normal tt, set_heap (<[a := array st a ++ [listener]]> (heap st)) st)
    | _ => (Thrown VTypeError, st)
    end.

Definition unshift_listener (event : string) (listener : entry) : M unit :=
  fun st =>
    match events_at st event with
    | ArrayRef a => (Normal tt, set_heap (<[a := listener :: array st a]> (heap st)) st)
    | _ => (Thrown VTypeError, st)
    end.

Definition on (event : string) (listener : entry) : M unit :=
  modify (ensure_events event) >>
  push_listener event listener >>
  modify (emitMaxListenersExceeded event).

Definition prepend (event : string) (listener : entry) : M unit :=
  modify (ensure_events event) >>
  unshift_listener event listener >>
  modify (emitMaxListenersExceeded event).

(** The wrapper is allocated, pushed on [onceListeners.get( event ) || []],
    and that array is stored back under [event]. *)
Definition createOnceWrapper (event : string) (listener : entry) : M entry :=
  fun st =>
    let onceWrapper := OnceListenerWrapper (next_wrapper st) event listener in
    let onceEventListeners := onceEntries st event ++ [onceWrapper] in
    (Normal onceWrapper,
     set_onceListeners (<[event := onceEventListeners]> (onceListeners st))
       (set_next_wrapper (S (next_wrapper st)) st)).

(** The argument of [on] is evaluated first. *)
Definition once (event : string) (listener : entry) : M unit :=
  let* onceWrapper := createOnceWrapper event listener in on event onceWrapper.

Definition prependOnce (event : string) (listener : entry) : M unit :=
  let* onceWrapper := createOnceWrapper event listener in prepend event onceWrapper.

(** [onceWrappers?.pop() || listener] *)
Definition off_target (st : emitter) (event : string) (listener : entry) : entry :=
  let onceWrappers := List.filter (wraps listener) (onceEntries st event) in
  default listener (last onceWrappers).

(** The assignments of [off] when [this.events[event]] is the array at
    [a]. *)
Definition off_array (a : loc) (event : string) (listener : entry) (st : emitter)
    : emitter :=
  let originalListener := off_target st event listener in
  let popped :=
    List.filter (fun wrapper => negb (same_ref wrapper originalListener))
      (onceEntries st event) in
  let kept :=
    List.filter (fun l => negb (same_ref l originalListener)) (array st a) in
  let st1 := assign_events event kept st in
  let st2 :=
    if bool_decide (length kept ≤ 0) then set_events (delete event (events st1)) st1
    else st1 in
  if bool_decide (length popped ≤ 0)
  then set_onceListeners (delete event (onceListeners st2)) st2
  else set_onceListeners (<[event := popped]> (onceListeners st2)) st2.

(** A property inherited from [Object.prototype] passes the guard and has
    no [filter]. *)
Definition off (event : string) (listener : entry) : M unit :=
  fun st =>
    match events_at st event with
    | Undefined => (Normal tt, st)
    | ArrayRef a => (Normal tt, off_array a event listener st)
    | Inherited _ => (Thrown VTypeError, st)
    end.

(** [[ ...this.events[event] ]] or [[]]; a function cannot be spread. *)
Definition rawListeners (st : emitter) (event : string) : completion (list entry) :=
  match events_at st event with
  | Undefined => Normal []
  | ArrayRef a => Normal (array st a)
  | Inherited _ => Thrown VTypeError
  end.

Definition listeners (st : emitter) (event : string) : completion (list entry) :=
  match rawListeners st event with
  | Normal xs =>
    Normal (map (fun listener => default listener (dot_listener listener)) xs)
  | Thrown v => Thrown v
  | OutOfFuel => OutOfFuel
  end.

(** The result is a number, or [undefined] ([None]) where the value read
    has no [length]. *)
Definition listenerCount (st : emitter) (event : string) (listener : option entry)
    : completion (option nat) :=
  match events_at st event with
  | Undefined => Normal (Some 0)
  | ArrayRef a =>
    match listener with
    | None => Normal (Some (length (array st a)))
    | Some l => Normal (Some (length (List.filter (matches l) (array st a))))
    end
  | Inherited v =>
    match listener with
    | None => Normal (inherited_length v)
    | Some _ => Thrown VTypeError
    end
  end.

(** [Object.keys( this.events )], as a set. *)
Definition eventNames (st : emitter) : gset string := dom (events st).

(** [if ( event )]: [undefined] and the empty string are falsy. *)
Definition truthy_event (event : option string) : option string :=
  match event with
  | Some "" => None
  | e => e
  end.

Definition removeAllListeners (event : option string) (listener : option entry)
    : M unit :=
  match truthy_event event with
  | Some ev =>
    match listener with
    | Some l =>
      let* copy := query (fun st => rawListeners st ev) in
      for_each copy (fun x => if matches l x then off ev l else ret tt)
    | None =>
      modify (fun st =>
        set_onceListeners (delete ev (onceListeners st))
          (set_events (delete ev (events st)) st))
    end
  | None => modify (fun st => set_onceListeners ∅ (set_events ∅ st))
  end.

Definition setMaxListeners (n : number) (st : emitter) : emitter :=
  set_maxListeners n st.

Definition getMaxListeners (st : emitter) : number := maxListeners st.

(** ** Listeners as code, and [emit] *)

(** What a user function does when it is called: calls on the emitter, in
    order, possibly a [throw].  The listener it passes is a function of its
    own or a wrapper it holds. *)
Inductive call :=
  | CallOn (event : string) (listener : entry)
  | CallPrepend (event : string) (listener : entry)
  | CallOnce (event : string) (listener : entry)
  | CallPrependOnce (event : string) (listener : entry)
  | CallOff (event : string) (listener : entry)
  | CallRemoveAllListeners (event : option string) (listener : option entry)
  | CallSetMaxListeners (n : number)
  | CallEmit (event : string) (args : list value)
  | Throw (v : value).

(** What a call returns: a plain value, or a promise, which is fulfilled or
    rejected on a later turn. *)
Inductive result :=
  | Plain
  | PromiseFulfilled
  | PromiseRejected (reason : value).

Record function := Function {
  body : list call;
  returns : result
}.

Definition is_promise (r : result) : bool :=
  match r with
  | Plain => false
  | _ => true
  end.

(** [result.catch( error => this.emit( 'error', error ) )]: the handler runs
    on a later turn, and only if the promise is rejected; the reasons of the
    rejected promises it was attached to are kept in [rejections]. *)
Definition attach_catch (r : result) : M unit :=
  match r with
  | PromiseRejected reason =>
    modify (fun st => set_rejections (rejections st ++ [reason]) st)
  | _ => ret tt
  end.

Definition record_call (f : fid) (args : list value) : M unit :=
  modify (fun st => set_calls (calls st ++ [(f, args)]) st).

Section Emit.

Variable code : fid → function.

Section Dispatch.

(** [this.emit] as listeners and the [catch] block see it. *)
Variable emit' : string → list value → M bool.

Definition exec (c : call) : M unit :=
  match c with
  | CallOn event listener => on event listener
  | CallPrepend event listener => prepend event listener
  | CallOnce event listener => once event listener
  | CallPrependOnce event listener => prependOnce event listener
  | CallOff event listener => off event listener
  | CallRemoveAllListeners event listener => removeAllListeners event listener
  | CallSetMaxListeners n => modify (setMaxListeners n)
  | CallEmit event args => emit' event args >> ret tt
  | Throw v => throw v
  end.

Fixpoint run (cs : list call) : M unit :=
  match cs with
  | [] => ret tt
  | c :: cs' => exec c >> run cs'
  end.

(** [listener( ...args )].  A once-wrapper first calls
    [this.off( event, onceWrapper )], then the listener it wraps, and
    returns nothing. *)
Fixpoint invoke (listener : entry) (args : list value) : M result :=
  match listener with
  | Listener f =>
    record_call f args >> run (body (code f)) >> ret (returns (code f))
  | OnceListenerWrapper w event wrapped =>
    off event listener >> invoke wrapped args >> ret Plain
  end.

(** The callback [emit] passes to [forEach]. *)
Definition dispatch (event : string) (args : list value) (listener : entry)
    : M unit :=
  fun st0 =>
    try_catch
      (let* r := invoke listener args in
       fun st =>
         if captureRejections st && is_promise r
            && negb (bool_decide (event = "error"))
         then attach_catch r st else ret tt st)
      (fun err st =>
         if captureRejections st && negb (bool_decide (event = "error"))
         then (emit' "error" [err] >> ret tt) st
         else throw err st)
      st0.

(** [Array.prototype.forEach] on the array object at [a]: the length is
    read once, before the first call; index [k] is read when it is
    reached. *)
Fixpoint forEach_from (a : loc) (callback : entry → M unit) (k n : nat) : M unit :=
  match n with
  | 0 => ret tt
  | S n' =>
    fun st =>
      match array st a !! k with
      | Some x => (callback x >> forEach_from a callback (S k) n') st
      | None => forEach_from a callback (S k) n' st
      end
  end.

Definition forEach (a : loc) (callback : entry → M unit) : M unit :=
  fun st => forEach_from a callback 0 (length (array st a)) st.

(** A property inherited from [Object.prototype] passes the guard and has
    no [forEach]. *)
Definition emit_body (event : string) (args : list value) : M bool :=
  fun st =>
    match events_at st event with
    | Undefined => (Normal false, st)
    | ArrayRef a => (forEach a (dispatch event args) >> ret true) st
    | Inherited _ => (Thrown VTypeError, st)
    end.

End Dispatch.

Fixpoint emit (fuel : nat) (event : string) (args : list value) : M bool :=
  match fuel with
  | 0 => fun st => (OutOfFuel, st)
  | S fuel' => emit_body (emit fuel') event args
  end.

(** A caller's script: the calls are made one after the other; a call that
    throws is caught by the caller, which goes on. *)
Fixpoint script (fuel : nat) (cs : list call) (st : emitter) : emitter :=
  match cs with
  | [] => st
  | c :: cs' => script fuel cs' (after (exec (emit fuel) c) st)
  end.

End Emit.

(** ** The aliases *)

Definition addListener := on.
Definition prependListener := prepend.
Definition prependOnceListener := prependOnce.
Definition removeListener := off.

(** ** A later turn *)

(** The handlers attached by [catch] run, one per rejected promise, each
    calling [this.emit( 'error', reason )]; what such a call throws rejects
    the promise [catch] returned, which nobody observes. *)
Definition settle (code : fid → function) (fuel : nat) (st : emitter) : emitter :=
  fold_left (λ s reason, after (emit code fuel "error" [reason]) s)
    (rejections st) (set_rejections [] st).

(** ** Vocabulary of the statements *)

(** An event name under which [Object.prototype] has nothing. *)
Definition ordinary (event : string) : Prop := Object_prototype event = None.

(** The function an entry finally calls. *)
Fixpoint original (l : entry) : fid :=
  match l with
  | Listener f => f
  | OnceListenerWrapper _ _ listener => original listener
  end.

Definition is_wrapper (l : entry) : bool :=
  match l with
  | Listener _ => false
  | OnceListenerWrapper _ _ _ => true
  end.

(** The allocation number of a wrapper. *)
Definition allocation (l : entry) : nat :=
  match l with
  | Listener _ => 0
  | OnceListenerWrapper w _ _ => w
  end.

(** The once-registered entries of [events[event]]. *)
Definition wrappers (st : emitter) (event : string) : list entry :=
  List.filter is_wrapper (entries st event).

(** [on( event, f )] for each [f] of [fs], in order. *)
Definition register (event : string) (fs : list fid) (st : emitter) : emitter :=
  fold_left (λ s f, after (on event (Listener f)) s) fs st.

(** A function that makes no call at all. *)
Definition passive (fn : function) : Prop := body fn = [].

(** Calls that return and neither insert at the front of an array, nor
    emit: registrations at the end and removals, under names that
    [Object.prototype] does not have. *)
Definition quiet (c : call) : bool :=
  match c with
  | CallOn event _ | CallOnce event _ | CallOff event _
  | CallRemoveAllListeners (Some event) (Some _) => negb (inherited_name event)
  | CallRemoveAllListeners _ _ | CallSetMaxListeners _ => true
  | CallPrepend _ _ | CallPrependOnce _ _ | CallEmit _ _ | Throw _ => false
  end.

Definition quiet_function (fn : function) : Prop :=
  forallb quiet (body fn) = true.

(** An entry whose call makes quiet calls only: a quiet function, or a
    wrapper, under a name that [Object.prototype] does not have, of such an
    entry. *)
Fixpoint quiet_entry (code : fid → function) (l : entry) : Prop :=
  match l with
  | Listener f => quiet_function (code f)
  | OnceListenerWrapper _ event listener =>
    ordinary event ∧ quiet_entry code listener
  end.

(** A function that does nothing but emit [event]. *)
Definition reemits (event : string) (fn : function) : Prop :=
  Forall (λ c, ∃ args, c = CallEmit event args) (body fn).

(** The value a function throws before it does anything else. *)
Definition throws (fn : function) : option value :=
  match body fn with
  | Throw v :: _ => Some v
  | _ => None
  end.

(** A function that makes no call, or throws at once. *)
Definition simple (fn : function) : Prop :=
  body fn = [] ∨ ∃ v rest, body fn = Throw v :: rest.

(** The calls one entry of an emission under rejection-capture gives rise
    to: the listener, then the ["error"] listeners [gs] if it throws. *)
Definition captured_calls (code : fid → function) (args : list value)
    (gs : list fid) (f : fid) : list (fid * list value) :=
  (f, args) ::
  match throws (code f) with
  | Some v => map (λ g, (g, [v])) gs
  | None => []
  end.

(** Every array object of [st] is still there in [st'], possibly with
    elements added at its end. *)
Definition heap_grows (st st' : emitter) : Prop :=
  ∀ a xs, heap st !! a = Some xs → ∃ ys, heap st' !! a = Some (xs ++ ys).

(** A step that calls no listener and moves no element of an array. *)
Record quiet_step (st st' : emitter) : Prop := QuietStep {
  quiet_calls : calls st' = calls st;
  quiet_rejections : rejections st' = rejections st;
  quiet_capture : captureRejections st' = captureRejections st;
  quiet_heap : heap_grows st st'
}.

(** The registry and the capture flag are the same in both states. *)
Definition same_registry (st st' : emitter) : Prop :=
  events st' = events st ∧ heap st' = heap st
  ∧ captureRejections st' = captureRejections st.

(** A computation keeps a property of the state, however it completes. *)
Definition preserves (Inv : emitter → Prop) {A} (m : M A) : Prop :=
  ∀ st, Inv st → Inv (after m st).

(** Every array [events] refers to exists, no two events share one, and no
    own property of [events] has a name of [Object.prototype]. *)
Definition well_formed (st : emitter) : Prop :=
  (∀ e a, events st !! e = Some a → a < length (heap st))
  ∧ (∀ e1 e2 a, events st !! e1 = Some a → events st !! e2 = Some a → e1 = e2)
  ∧ (∀ e a, events st !! e = Some a → ordinary e).

(** For every event name that [Object.prototype] does not have, the
    wrappers of [events[event]] and the once-index of the event are related
    by [R]: the same list ([eq]), or the same elements ([Permutation]). *)
Definition once_index_agrees (R : list entry → list entry → Prop)
    (st : emitter) : Prop :=
  well_formed st
  ∧ ∀ event, ordinary event → R (wrappers st event) (onceEntries st event).

(** The listener a call registers is a function of the caller's own, not a
    wrapper. *)
Definition registers_own_functions (c : call) : Prop :=
  match c with
  | CallOn _ l | CallPrepend _ l | CallOnce _ l | CallPrependOnce _ l =>
    is_wrapper l = false
  | _ => True
  end.

(** The calls a caller or a listener may make, [prependOnce] being among
    them or not. *)
Definition once_allowed (prependOnce_allowed : Prop) (c : call) : Prop :=
  registers_own_functions c
  ∧ match c with
    | CallPrependOnce _ _ => prependOnce_allowed
    | _ => True
    end.

Definition no_prependOnce (c : call) : Prop := once_allowed False c.

(** [count > ceiling] *)
Definition exceeds (count : nat) (ceiling : number) : Prop :=
  match ceiling with
  | Int z => (z < Z.of_nat count)%Z
  | Infinity => False
  end.

(** The diagnostics emitted so far for one event name. *)
Definition warnings_for (event : string) (st : emitter) : list warning :=
  List.filter (λ w, bool_decide (warning_event w = event)) (warnings st).

(** No event name has two diagnostics, and each diagnostic has its flag. *)
Definition warned_once (st : emitter) : Prop :=
  NoDup (map warning_event (warnings st))
  ∧ ∀ e, e ∈ map warning_event (warnings st) → e ∈ warningEmitted st.

(** The states of an emitter in use: a new emitter, then any calls of the
    caller, whose listeners make any calls in turn. *)
Definition in_use (st : emitter) : Prop :=
  ∃ code fuel cs dm cr p st0,
    new_emitter dm cr p = Some st0 ∧ st = script code fuel cs st0.

(** The states of an emitter in use by callers and listeners that register
    functions of their own. *)
Definition reachable (st : emitter) : Prop :=
  ∃ code fuel cs dm cr p st0,
    new_emitter dm cr p = Some st0
    ∧ (∀ f, Forall registers_own_functions (body (code f)))
    ∧ Forall registers_own_functions cs
    ∧ st = script code fuel cs st0.

(** The once-index of every event is in the order of allocation, and the
    wrappers in it have been allocated. *)
Definition index_in_creation_order (st : emitter) : Prop :=
  ∀ event,
    StronglySorted (λ x y, allocation x < allocation y) (onceEntries st event)
    ∧ Forall (λ x, is_wrapper x = true ∧ allocation x < next_wrapper st)
        (onceEntries st event).

(** An event name is a key of [events] only while it has entries. *)
Definition nonempty_events (st : emitter) : Prop :=
  well_formed st ∧ ∀ e, events st !! e ≠ None → entries st e ≠ [].

(** An entry registered by a caller that passes functions of its own: a
    function, or a wrapper of a function. *)
Definition shallow (l : entry) : Prop :=
  match l with
  | Listener _ | OnceListenerWrapper _ _ (Listener _) => True
  | _ => False
  end.

(** The wrappers of a sequence were allocated before [n], and no two
    entries of it are the same wrapper object unless they are the same
    entry. *)
Definition fresh_below (n : nat) (xs : list entry) : Prop :=
  (∀ w ev l, OnceListenerWrapper w ev l ∈ xs → w < n)
  ∧ (∀ x y, x ∈ xs → y ∈ xs → same_ref x y = true → x = y).

(** Every entry registered is a function or the wrapper of one, and the
    wrappers are distinct objects allocated by the emitter. *)
Definition wrappers_fresh (st : emitter) : Prop :=
  well_formed st
  ∧ ∀ e, fresh_below (next_wrapper st) (entries st e)
         ∧ Forall shallow (entries st e)
         ∧ Forall shallow (onceEntries st e).


Definition not_setMaxListeners (c : call) : Prop :=
  match c with
  | CallSetMaxListeners _ => False
  | _ => True
  end.

(** The reason of the promise a function returns, if it is rejected. *)
Definition rejected (fn : function) : list value :=
  match returns fn with
  | PromiseRejected reason => [reason]
  | _ => []
  end.

(** The reasons [emit] attaches a [catch] handler for, when it calls the
    entry [x]: the promise a plain listener returns, if it is rejected; a
    once-wrapper returns nothing, whatever the listener it wraps returns. *)
Definition captured_rejections (code : fid → function) (capture : bool)
    (event : string) (x : entry) : list value :=
  if capture && negb (bool_decide (event = "error"))
  then match x with
       | Listener f => rejected (code f)
       | OnceListenerWrapper _ _ _ => []
       end
  else [].

(** A wrapper in the sequence of [e] closes over the event name [e]. *)
Definition keyed (e : string) (x : entry) : Prop :=
  match x with
  | OnceListenerWrapper _ ev _ => ev = e
  | Listener _ => True
  end.

Definition wrappers_keyed (st : emitter) : Prop :=
  well_formed st ∧ ∀ e, Forall (keyed e) (entries st e).

(** A sequence after the wrapper [w] has removed itself from it ([w] a
    plain listener removes nothing), and after each of [ws] has. *)
Definition without_wrapper (w : entry) (ys : list entry) : list entry :=
  if is_wrapper w then List.filter (λ y, negb (same_ref y w)) ys else ys.

Definition without_wrappers (ws ys : list entry) : list entry :=
  fold_left (λ ys w, without_wrapper w ys) ws ys.

(** The plain listeners of a sequence. *)
Definition plain (xs : list entry) : list entry :=
  List.filter (λ x, negb (is_wrapper x)) xs.

(** ** Scenarios *)

(** [new EventEmitter( { captureRejections } )] under Node.js, with the
    default ceiling of 10. *)
Definition fresh_emitter (captureRejections : bool) : emitter :=
  Emitter (Int 10) ∅ ∅ ∅ captureRejections "EventEmitter" [] 0 true [] [] [].

(** Functions that only get called. *)
Definition code_passive : fid → function := λ _, Function [] Plain.

(** Function 0 removes function 1 from event [e]. *)
Definition code_remover : fid → function :=
  λ f, match f with
       | 0 => Function [CallOff "e" (Listener 1)] Plain
       | _ => Function [] Plain
       end.

(** Function 0 registers function 2 on event [e]. *)
Definition code_adder : fid → function :=
  λ f, match f with
       | 0 => Function [CallOn "e" (Listener 2)] Plain
       | _ => Function [] Plain
       end.

(** Function 0 puts function 2 at the front of event [e]. *)
Definition code_prepender : fid → function :=
  λ f, match f with
       | 0 => Function [CallPrepend "e" (Listener 2)] Plain
       | _ => Function [] Plain
       end.

(** Function 0 emits [e] again when it is called. *)
Definition code_reemitter : fid → function :=
  λ f, match f with
       | 0 => Function [CallEmit "e" [VString "again"]] Plain
       | _ => Function [] Plain
       end.

(** Function 0 registers function 2 on [toString]. *)
Definition code_toString : fid → function :=
  λ f, match f with
       | 0 => Function [CallOn "toString" (Listener 2)] Plain
       | _ => Function [] Plain
       end.

(** Function 0 throws; function 2 throws when it is given the error. *)
Definition code_thrower : fid → function :=
  λ f, match f with
       | 0 => Function [Throw (VError "Test error")] Plain
       | _ => Function [] Plain
       end.

Definition code_rethrower : fid → function :=
  λ f, match f with
       | 0 => Function [Throw (VError "Test error")] Plain
       | 2 => Function [Throw (VError "Re-thrown error")] Plain
       | _ => Function [] Plain
       end.

(** An [async] function 0 that throws. *)
Definition code_async_thrower : fid → function :=
  λ f, match f with
       | 0 => Function [] (PromiseRejected (VError "Test error"))
       | _ => Function [] Plain
       end.

(** Function 0 is [async] and throws; function 1 too, and is registered with
    [once]. *)
Definition code_async_throwers : fid → function :=
  λ f, match f with
       | 0 | 1 => Function [] (PromiseRejected (VError "Test error"))
       | _ => Function [] Plain
       end.

(** Functions 0 and 1 registered on [e] with [on], in that order. *)
Definition two_listeners : emitter :=
  after (on "e" (Listener 1)) (after (on "e" (Listener 0)) (fresh_emitter false)).

(** The same function registered twice on [e] with [on]. *)
Definition registered_twice : emitter :=
  after (on "e" (Listener 0)) (after (on "e" (Listener 0)) (fresh_emitter false)).

(** Function 0 registered on [e] with [on], then with [once]. *)
Definition on_then_once : emitter :=
  after (once "e" (Listener 0)) (after (on "e" (Listener 0)) (fresh_emitter false)).

(** Function 0 registered twice on [e] with [once]. *)
Definition once_and_once_again : emitter :=
  after (once "e" (Listener 0))
    (after (once "e" (Listener 0)) (fresh_emitter false)).

(** Functions 0 and 1 on [erroredEvent], function 2 on [error]. *)
Definition with_error_listener (captureRejections : bool) : emitter :=
  after (on "erroredEvent" (Listener 1))
    (after (on "erroredEvent" (Listener 0))
       (after (on "error" (Listener 2)) (fresh_emitter captureRejections))).

Definition async_listeners : emitter :=
  after (once "erroredEvent" (Listener 1))
    (after (on "erroredEvent" (Listener 0))
       (after (on "error" (Listener 2)) (fresh_emitter true))).

(** Function 0, registered with [once] on [e] before function 1, throws. *)
Definition throwing_once_listener : emitter :=
  after (on "e" (Listener 1)) (after (once "e" (Listener 0)) (fresh_emitter false)).

(** Thirteen registrations on [e], three more than the default ceiling. *)
Definition thirteen_registrations : list call :=
  replicate 13 (CallOn "e" (Listener 0)).

(** [once] then [prependOnce] on the same event. *)
Definition once_then_prependOnce : list call :=
  [CallOnce "e" (Listener 0); CallPrependOnce "e" (Listener 1)].

(** [once] twice on the same event. *)
Definition once_twice : list call :=
  [CallOnce "e" (Listener 0); CallOnce "e" (Listener 1)].

(** [once] under a name of [Object.prototype]. *)
Definition once_toString : list call := [CallOnce "toString" (Listener 0)].

(** [once], then [on] with the wrapper that [rawListeners] shows. *)
Definition once_then_on_the_wrapper : list call :=
  [CallOnce "e" (Listener 0);
   CallOn "e" (OnceListenerWrapper 0 "e" (Listener 0))].

(** [once], then [once] with the wrapper that [rawListeners] shows. *)
Definition once_then_once_the_wrapper : list call :=
  [CallOnce "e" (Listener 0);
   CallOnce "e" (OnceListenerWrapper 0 "e" (Listener 0))].

(** The scenarios of [__tests__/index.test.ts]. *)

(** In the tests [mockCallback] is 0 and [mockCallback2] is 1. *)
Definition test_removeAllListeners : emitter :=
  after (on "event2" (Listener 0))
    (after (on "event2" (Listener 0))
       (after (once "event" (Listener 1))
          (after (on "event" (Listener 1))
             (after (on "event" (Listener 0)) (fresh_emitter false))))).

(** [callback] is 0 and [callback2] is 1. *)
Definition test_listenerCount : emitter :=
  after (once "event" (Listener 1))
    (after (once "event" (Listener 1))
       (after (on "event" (Listener 1))
          (after (once "event" (Listener 0))
             (after (on "event" (Listener 0)) (fresh_emitter false))))).

Definition test_listenerCount_after_off : emitter :=
  after (off "event" (Listener 1))
    (after (off "event" (Listener 0))
       (after (off "event" (Listener 0))
          (after (off "event" (Listener 0)) test_listenerCount))).

(** [actWarningEmit] after [setMaxListeners( 1 )]: three registrations. *)
Definition test_warning (process : bool) : emitter :=
  script code_passive 1 (replicate 3 (CallOn "event" (Listener 0)))
    (setMaxListeners (Int 1)
       (Emitter (Int 10) ∅ ∅ ∅ false "EventEmitter" [] 0 process [] [] [])).

(** Functions 0 and 1 on [e], function 2 on the empty event name. *)
Definition with_empty_event_name : emitter :=
  after (on "" (Listener 2)) two_listeners.

(** [once( e, f0 )], then [once] with the wrapper that [rawListeners]
    shows. *)
Definition once_of_the_wrapper : emitter :=
  after (once "e" (OnceListenerWrapper 0 "e" (Listener 0)))
    (after (once "e" (Listener 0)) (fresh_emitter false)).

(** * Properties *)

(** ** Reading [events] *)

Lemma ordinary_inherited_name event : ordinary event ↔ inherited_name event = false.
Proof. unfold ordinary, inherited_name. by destruct (Object_prototype event). Qed.

Lemma events_at_own st event a :
  events st !! event = Some a → events_at st event = ArrayRef a.
Proof. unfold events_at. by intros ->. Qed.

Lemma events_at_ordinary st event :
  ordinary event →
  events_at st event
  = match events st !! event with Some a => ArrayRef a | None => Undefined end.
Proof. unfold events_at, ordinary. by intros ->. Qed.

Lemma events_at_inherited st event v :
  events st !! event = None → Object_prototype event = Some v →
  events_at st event = Inherited v.
Proof. unfold events_at. by intros -> ->. Qed.

Lemma events_at_ArrayRef st event a :
  events_at st event = ArrayRef a ↔ events st !! event = Some a.
Proof.
  unfold events_at. destruct (events st !! event); [|by case_match].
  split; congruence.
Qed.

Lemma events_at_Undefined st event :
  events_at st event = Undefined ↔ events st !! event = None ∧ ordinary event.
Proof.
  unfold events_at, ordinary. destruct (events st !! event).
  - split; [done|by intros []].
  - destruct (Object_prototype event); split; (done || by intros []).
Qed.

(** The flag check of [emitMaxListenersExceeded] returns for every name of
    [Object.prototype]. *)
Lemma warned_inherited st event v :
  Object_prototype event = Some v → warned st event = true.
Proof. unfold warned, inherited_name. intros ->. apply orb_true_r. Qed.

Lemma warned_ordinary st event :
  ordinary event → warned st event = bool_decide (event ∈ warningEmitted st).
Proof.
  unfold warned. intros ->%ordinary_inherited_name. apply orb_false_r.
Qed.

(** ** Completions of a sequence *)

Lemma after_bind {A B} (m : M A) (k : A → M B) st :
  after (bind m k) st
  = match m st with
    | (Normal a, st1) => after (k a) st1
    | (_, st1) => st1
    end.
Proof. unfold after, bind. by destruct (m st) as [[a|v|] st1]. Qed.

(** A relation between the state before and the state after, through a
    sequence. *)
Lemma after_bind_rel (R : emitter → emitter → Prop) {A B}
    (m : M A) (k : A → M B) st :
  (∀ s1 s2 s3, R s1 s2 → R s2 s3 → R s1 s3) →
  R st (after m st) → (∀ a s, R s (after (k a) s)) →
  R st (after (bind m k) st).
Proof.
  intros Htrans Hm Hk. rewrite after_bind. unfold after in Hm.
  destruct (m st) as [[a|v|] st1]; simpl in *; eauto.
Qed.

Lemma for_each_rel (R : emitter → emitter → Prop) {A}
    (xs : list A) (callback : A → M unit) st :
  (∀ s, R s s) → (∀ s1 s2 s3, R s1 s2 → R s2 s3 → R s1 s3) →
  (∀ x s, R s (after (callback x) s)) →
  R st (after (for_each xs callback) st).
Proof.
  intros Hrefl Htrans Hcb. revert st.
  induction xs as [|x xs IH]; intros st; simpl; [apply Hrefl|].
  apply after_bind_rel; auto.
Qed.

(** ** What the methods leave alone *)

Lemma heap_grows_refl st : heap_grows st st.
Proof. intros a xs H. exists []. by rewrite app_nil_r. Qed.

Lemma heap_grows_same st st' : heap st' = heap st → heap_grows st st'.
Proof. intros E a xs H. exists []. by rewrite E, app_nil_r. Qed.

Lemma quiet_step_same st st' :
  calls st' = calls st → rejections st' = rejections st →
  captureRejections st' = captureRejections st → heap st' = heap st →
  quiet_step st st'.
Proof. intros. split; auto using heap_grows_same. Qed.

Lemma heap_grows_trans st1 st2 st3 :
  heap_grows st1 st2 → heap_grows st2 st3 → heap_grows st1 st3.
Proof.
  intros H12 H23 a xs H.
  destruct (H12 a xs H) as [ys Hys].
  destruct (H23 a _ Hys) as [zs Hzs].
  exists (ys ++ zs). by rewrite app_assoc.
Qed.

Lemma quiet_step_refl st : quiet_step st st.
Proof. split; auto using heap_grows_refl. Qed.

Lemma quiet_step_trans st1 st2 st3 :
  quiet_step st1 st2 → quiet_step st2 st3 → quiet_step st1 st3.
Proof.
  intros [] []. split; try congruence. eauto using heap_grows_trans.
Qed.

Lemma assign_events_quiet event xs st : quiet_step st (assign_events event xs st).
Proof.
  split; try done. intros a ys H. exists []. simpl.
  rewrite app_nil_r. by apply lookup_app_l_Some.
Qed.

Lemma ensure_events_quiet event st : quiet_step st (ensure_events event st).
Proof.
  unfold ensure_events. destruct (events_at st event).
  - apply assign_events_quiet.
  - apply quiet_step_refl.
  - apply quiet_step_refl.
Qed.

Lemma push_listener_quiet event l st :
  quiet_step st (after (push_listener event l) st).
Proof.
  unfold after, push_listener. destruct (events_at st event) as [|a|v];
    simpl; try apply quiet_step_refl.
  split; try done. intros b xs H. simpl.
  destruct (decide (a = b)) as [->|Hne].
  - exists [l]. unfold array. rewrite H. simpl.
    apply list_lookup_insert_eq. by eapply lookup_lt_Some.
  - exists []. rewrite app_nil_r. by rewrite list_lookup_insert_ne.
Qed.

Lemma emitMaxListenersExceeded_quiet event st :
  quiet_step st (emitMaxListenersExceeded event st).
Proof.
  unfold emitMaxListenersExceeded.
  repeat case_match; by apply quiet_step_same.
Qed.

Lemma on_quiet event l st : quiet_step st (after (on event l) st).
Proof.
  unfold on.
  apply after_bind_rel; [apply quiet_step_trans|apply ensure_events_quiet|].
  intros _ s.
  apply after_bind_rel; [apply quiet_step_trans|apply push_listener_quiet|].
  intros _ s'. apply emitMaxListenersExceeded_quiet.
Qed.

Lemma createOnceWrapper_quiet event l st :
  quiet_step st (after (createOnceWrapper event l) st).
Proof. by apply quiet_step_same. Qed.

Lemma once_quiet event l st : quiet_step st (after (once event l) st).
Proof.
  unfold once.
  apply after_bind_rel;
    [apply quiet_step_trans|apply createOnceWrapper_quiet|].
  intros w s. apply on_quiet.
Qed.

Lemma off_array_quiet a event l st : quiet_step st (off_array a event l st).
Proof.
  unfold off_array.
  pose proof (assign_events_quiet event
    (List.filter (λ x, negb (same_ref x (off_target st event l))) (array st a)) st)
    as [Hc Hr Hp Hh].
  repeat case_bool_decide; split; done.
Qed.

Lemma off_quiet event l st : quiet_step st (after (off event l) st).
Proof.
  unfold after, off. destruct (events_at st event) as [|a|v]; simpl;
    [apply quiet_step_refl|apply off_array_quiet|apply quiet_step_refl].
Qed.

Lemma removeAllListeners_quiet event l st :
  quiet_step st (after (removeAllListeners event l) st).
Proof.
  unfold removeAllListeners. destruct (truthy_event event) as [ev|].
  - destruct l as [l|].
    + apply after_bind_rel;
        [apply quiet_step_trans|apply quiet_step_refl|].
      intros xs s.
      apply for_each_rel; [apply quiet_step_refl|apply quiet_step_trans|].
      intros x s'. destruct (matches l x); [apply off_quiet|apply quiet_step_refl].
    + by apply quiet_step_same.
  - by apply quiet_step_same.
Qed.

Lemma setMaxListeners_quiet n st : quiet_step st (setMaxListeners n st).
Proof. by apply quiet_step_same. Qed.

(** ** Where the methods return *)

Lemma push_listener_own event l st a :
  events st !! event = Some a →
  push_listener event l st
  = (Normal tt, set_heap (<[a := array st a ++ [l]]> (heap st)) st).
Proof. intros Ha. unfold push_listener. by rewrite (events_at_own _ _ _ Ha). Qed.

Lemma unshift_listener_own event l st a :
  events st !! event = Some a →
  unshift_listener event l st
  = (Normal tt, set_heap (<[a := l :: array st a]> (heap st)) st).
Proof. intros Ha. unfold unshift_listener. by rewrite (events_at_own _ _ _ Ha). Qed.

(** After [this.events[event] ||= []] the property is an array, unless the
    name is one of [Object.prototype]. *)
Lemma ensure_events_is_Some event st :
  ordinary event ∨ is_Some (events st !! event) →
  is_Some (events (ensure_events event st) !! event).
Proof.
  intros H. unfold ensure_events, events_at.
  destruct (events st !! event) as [a|] eqn:Ha; [by rewrite Ha|].
  destruct H as [->|[? ?]]; [|done]. simpl. by rewrite lookup_insert_eq.
Qed.

Lemma ensure_events_inherited event st v :
  events st !! event = None → Object_prototype event = Some v →
  ensure_events event st = st.
Proof.
  intros Ha Hv. unfold ensure_events. by rewrite (events_at_inherited _ _ _ Ha Hv).
Qed.

Lemma on_returns event l st :
  ordinary event ∨ is_Some (events st !! event) →
  on event l st = (Normal tt, after (on event l) st).
Proof.
  intros H. destruct (ensure_events_is_Some event st H) as [a Ha].
  unfold after, on, bind, modify.
  by rewrite (push_listener_own _ _ _ _ Ha).
Qed.

Lemma prepend_returns event l st :
  ordinary event ∨ is_Some (events st !! event) →
  prepend event l st = (Normal tt, after (prepend event l) st).
Proof.
  intros H. destruct (ensure_events_is_Some event st H) as [a Ha].
  unfold after, prepend, bind, modify.
  by rewrite (unshift_listener_own _ _ _ _ Ha).
Qed.

(** Under a name of [Object.prototype] that is not an own property, [on]
    and [prepend] throw and change nothing. *)
Lemma on_inherited event l st v :
  events st !! event = None → Object_prototype event = Some v →
  on event l st = (Thrown VTypeError, st).
Proof.
  intros Ha Hv. unfold on, bind, modify, push_listener.
  by rewrite (ensure_events_inherited _ _ _ Ha Hv), (events_at_inherited _ _ _ Ha Hv).
Qed.

Lemma prepend_inherited event l st v :
  events st !! event = None → Object_prototype event = Some v →
  prepend event l st = (Thrown VTypeError, st).
Proof.
  intros Ha Hv. unfold prepend, bind, modify, unshift_listener.
  by rewrite (ensure_events_inherited _ _ _ Ha Hv), (events_at_inherited _ _ _ Ha Hv).
Qed.

Lemma once_returns event l st :
  ordinary event ∨ is_Some (events st !! event) →
  once event l st = (Normal tt, after (once event l) st).
Proof.
  intros H. unfold after, once, bind. simpl.
  rewrite on_returns; [done|]. exact H.
Qed.

Lemma prependOnce_returns event l st :
  ordinary event ∨ is_Some (events st !! event) →
  prependOnce event l st = (Normal tt, after (prependOnce event l) st).
Proof.
  intros H. unfold after, prependOnce, bind. simpl.
  rewrite prepend_returns; [done|]. exact H.
Qed.

Lemma off_returns event l st :
  ordinary event ∨ is_Some (events st !! event) →
  off event l st = (Normal tt, after (off event l) st).
Proof.
  intros H. unfold after, off, events_at.
  destruct (events st !! event) as [a|]; [done|].
  by destruct H as [->|[? ?]].
Qed.

Lemma off_own event l st a :
  events st !! event = Some a →
  off event l st = (Normal tt, off_array a event l st).
Proof. intros Ha. unfold off. by rewrite (events_at_own _ _ _ Ha). Qed.

Lemma off_absent event l st :
  events st !! event = None → ordinary event → off event l st = (Normal tt, st).
Proof.
  intros Ha Ho. unfold off.
  by rewrite (proj2 (events_at_Undefined st event) (conj Ha Ho)).
Qed.

Lemma off_inherited event l st v :
  events st !! event = None → Object_prototype event = Some v →
  off event l st = (Thrown VTypeError, st).
Proof.
  intros Ha Hv. unfold off. by rewrite (events_at_inherited _ _ _ Ha Hv).
Qed.

Lemma rawListeners_entries st event :
  ordinary event ∨ is_Some (events st !! event) →
  rawListeners st event = Normal (entries st event).
Proof.
  intros H. unfold rawListeners, entries, events_at.
  destruct (events st !! event) as [a|]; [done|].
  by destruct H as [->|[? ?]].
Qed.

Lemma rawListeners_inherited st event v :
  events st !! event = None → Object_prototype event = Some v →
  rawListeners st event = Thrown VTypeError.
Proof.
  intros Ha Hv. unfold rawListeners. by rewrite (events_at_inherited _ _ _ Ha Hv).
Qed.

Lemma listenerCount_entries st event :
  ordinary event ∨ is_Some (events st !! event) →
  listenerCount st event None = Normal (Some (length (entries st event))).
Proof.
  intros H. unfold listenerCount, entries, events_at.
  destruct (events st !! event) as [a|]; [done|].
  by destruct H as [->|[? ?]].
Qed.

Lemma for_each_returns {A} (xs : list A) (callback : A → M unit) st :
  (∀ x s, callback x s = (Normal tt, after (callback x) s)) →
  for_each xs callback st = (Normal tt, after (for_each xs callback) st).
Proof.
  intros Hcb. revert st. induction xs as [|x xs IH]; intros st; simpl; [done|].
  unfold after, bind. rewrite Hcb. rewrite IH. done.
Qed.

(** [off] can delete the property of [event], never create one: under an
    ordinary name it returns from every state. *)
Lemma removeAllListeners_returns event l st :
  match truthy_event event, l with
  | Some ev, Some _ => ordinary ev
  | _, _ => True
  end →
  removeAllListeners event l st = (Normal tt, after (removeAllListeners event l) st).
Proof.
  unfold removeAllListeners. destruct (truthy_event event) as [ev|]; [|done].
  destruct l as [l|]; [|done]. intros Ho.
  unfold after, bind, query. rewrite rawListeners_entries by (by left).
  rewrite for_each_returns; [done|].
  intros x s. destruct (matches l x); [|done].
  apply off_returns. by left.
Qed.

(** ** What a listener's calls preserve *)

Section Preservation.

Variable code : fid → function.
Variable allowed : call → Prop.
Variable Inv : emitter → Prop.

Hypothesis code_allowed : ∀ f, Forall allowed (body (code f)).
Hypothesis Inv_method :
  ∀ c st, allowed c → Inv st → Inv (after (exec (λ _ _, ret false) c) st).
Hypothesis Inv_off : ∀ event l st, Inv st → Inv (after (off event l) st).
Hypothesis Inv_calls : ∀ c st, Inv st → Inv (set_calls c st).
Hypothesis Inv_rejections : ∀ r st, Inv st → Inv (set_rejections r st).

Local Abbreviation preserves := (preserves Inv).

Lemma bind_preserves {A B} (m : M A) (k : A → M B) :
  preserves m → (∀ a, preserves (k a)) → preserves (bind m k).
Proof.
  intros Hm Hk st Hst. rewrite after_bind. specialize (Hm st Hst).
  unfold after in Hm.
  destruct (m st) as [[a| |] st1]; simpl in *; try done. by apply Hk.
Qed.

Lemma ret_preserves {A} (a : A) : preserves (ret a).
Proof. by intros st Hst. Qed.

Section Step.

Variable emit' : string → list value → M bool.
Hypothesis emit'_preserves : ∀ event args, preserves (emit' event args).

Lemma exec_preserves c : allowed c → preserves (exec emit' c).
Proof.
  intros Hc st Hst.
  destruct c; try exact (Inv_method _ st Hc Hst).
  simpl. apply bind_preserves; auto using ret_preserves.
Qed.

Lemma run_preserves cs : Forall allowed cs → preserves (run emit' cs).
Proof.
  induction 1 as [|c cs Hc _ IH]; simpl; [apply ret_preserves|].
  apply bind_preserves; auto using exec_preserves.
Qed.

Lemma invoke_preserves x args : preserves (invoke code emit' x args).
Proof.
  induction x as [f|w event x IH]; simpl.
  - apply bind_preserves; [intros st Hst; by apply Inv_calls|intros _].
    apply bind_preserves; auto using run_preserves, ret_preserves.
  - apply bind_preserves; [intros st Hst; by apply Inv_off|intros _].
    apply bind_preserves; auto using ret_preserves.
Qed.

Lemma attach_catch_preserves r : preserves (attach_catch r).
Proof. destruct r; try apply ret_preserves. intros st Hst. by apply Inv_rejections. Qed.

Lemma dispatch_preserves event args x : preserves (dispatch code emit' event args x).
Proof.
  intros st Hst. unfold after, dispatch, try_catch, bind.
  pose proof (invoke_preserves x args st Hst) as H1. unfold after in H1.
  destruct (invoke code emit' x args st) as [[r|v|] st1]; simpl in *; try done.
  - destruct (_ && _ && _); [|done].
    destruct r; simpl; auto.
  - destruct (_ && _); [|done].
    pose proof (emit'_preserves "error" [v] st1 H1) as H2. unfold after in H2.
    by destruct (emit' "error" [v] st1) as [[?|?|] ?].
Qed.

Lemma forEach_from_preserves a callback k n :
  (∀ x, preserves (callback x)) → preserves (forEach_from a callback k n).
Proof.
  intros Hcb. revert k. induction n as [|n IH]; intros k st Hst; [done|].
  unfold after. simpl.
  destruct (array st a !! k) as [x|]; [|by apply IH].
  apply bind_preserves; auto.
Qed.

Lemma emit_body_preserves event args : preserves (emit_body code emit' event args).
Proof.
  intros st Hst. unfold after, emit_body.
  destruct (events_at st event) as [|a|v]; [done| |done].
  apply bind_preserves; auto using ret_preserves.
  intros s Hs. unfold after, forEach.
  apply forEach_from_preserves; auto using dispatch_preserves.
Qed.

End Step.

Lemma emit_preserves fuel event args : preserves (emit code fuel event args).
Proof.
  revert event args. induction fuel as [|fuel IH]; intros event args; simpl.
  - by intros st Hst.
  - by apply emit_body_preserves.
Qed.

Lemma script_preserves fuel cs st :
  Forall allowed cs → Inv st → Inv (script code fuel cs st).
Proof.
  intros Hcs. revert st. induction Hcs as [|c cs Hc _ IH]; intros st Hst; simpl.
  - done.
  - apply IH. apply exec_preserves; auto using emit_preserves.
Qed.

End Preservation.

(** No method writes [captureRejections]. *)
Lemma prepend_captureRejections event l st :
  captureRejections (after (prepend event l) st) = captureRejections st.
Proof.
  unfold prepend.
  apply (after_bind_rel (λ s s', captureRejections s' = captureRejections s));
    [congruence|apply ensure_events_quiet|].
  intros _ s.
  apply (after_bind_rel (λ s s', captureRejections s' = captureRejections s));
    [congruence| |].
  - unfold after, unshift_listener. by destruct (events_at s event).
  - intros _ s'. apply emitMaxListenersExceeded_quiet.
Qed.

Lemma method_captureRejections b c st :
  captureRejections st = b →
  captureRejections (after (exec (λ _ _, ret false) c) st) = b.
Proof.
  intros <-. destruct c; simpl; try done;
    try apply on_quiet; try apply once_quiet; try apply off_quiet;
    try apply removeAllListeners_quiet; try apply prepend_captureRejections.
  unfold prependOnce.
  apply (after_bind_rel (λ s s', captureRejections s' = captureRejections s));
    [congruence|done|].
  intros w s. apply prepend_captureRejections.
Qed.

Lemma invoke_captureRejections code fuel x args st :
  captureRejections (after (invoke code (emit code fuel) x args) st)
  = captureRejections st.
Proof.
  apply (invoke_preserves code (λ _, True)
           (λ s, captureRejections s = captureRejections st)); try done.
  - intros f. by apply Forall_forall.
  - intros c s _. apply method_captureRejections.
  - intros event l s <-. apply off_quiet.
  - intros event a.
    apply (emit_preserves code (λ _, True)
             (λ s, captureRejections s = captureRejections st)); try done.
    + intros f. by apply Forall_forall.
    + intros c s _. apply method_captureRejections.
    + intros ev l s <-. apply off_quiet.
Qed.

(** ** Emission over listeners that register and remove *)

Lemma passive_quiet fn : passive fn → quiet_function fn.
Proof. unfold passive, quiet_function. by intros ->. Qed.

Section Snapshot.

Variable code : fid → function.
Variable emit' : string → list value → M bool.

Lemma exec_quiet c st :
  quiet c = true →
  ∃ st', exec emit' c st = (Normal tt, st') ∧ quiet_step st st'.
Proof.
  destruct c as [event l|event l|event l|event l|event l|event l|n|event args|v];
    simpl; try discriminate.
  - intros Ho%negb_true_iff%ordinary_inherited_name.
    exists (after (on event l) st).
    split; [apply on_returns; by left|apply on_quiet].
  - intros Ho%negb_true_iff%ordinary_inherited_name.
    exists (after (once event l) st).
    split; [apply once_returns; by left|apply once_quiet].
  - intros Ho%negb_true_iff%ordinary_inherited_name.
    exists (after (off event l) st).
    split; [apply off_returns; by left|apply off_quiet].
  - intros Hq. exists (after (removeAllListeners event l) st).
    split; [|apply removeAllListeners_quiet].
    apply removeAllListeners_returns.
    destruct event as [[|c ev]|]; try done.
    destruct l as [l|]; simpl; [|done].
    by apply ordinary_inherited_name, negb_true_iff.
  - intros _. eexists. split; [reflexivity|apply setMaxListeners_quiet].
Qed.

Lemma run_quiet cs st :
  forallb quiet cs = true →
  ∃ st', run emit' cs st = (Normal tt, st') ∧ quiet_step st st'.
Proof.
  revert st. induction cs as [|c cs IH]; intros st Hq; simpl in *.
  - exists st. split; [done|apply quiet_step_refl].
  - apply andb_prop in Hq as [Hc Hcs].
    destruct (exec_quiet c st Hc) as (st1 & E1 & Q1).
    destruct (IH st1 Hcs) as (st2 & E2 & Q2).
    exists st2. unfold bind. rewrite E1, E2.
    split; [done|]. eauto using quiet_step_trans.
Qed.

Lemma invoke_quiet x args st :
  quiet_entry code x →
  ∃ r st', invoke code emit' x args st = (Normal r, st')
    ∧ (is_wrapper x = true → r = Plain)
    ∧ (is_wrapper x = false → r = returns (code (original x)))
    ∧ calls st' = calls st ++ [(original x, args)]
    ∧ rejections st' = rejections st
    ∧ captureRejections st' = captureRejections st
    ∧ heap_grows st st'.
Proof.
  revert st. induction x as [f|w ev x IH]; intros st Hq; simpl in *.
  - destruct (run_quiet (body (code f))
      (set_calls (calls st ++ [(f, args)]) st) Hq) as (st' & E & [Hc Hr Hp Hh]).
    exists (returns (code f)), st'.
    unfold bind, record_call, modify, ret. rewrite E. simpl in *.
    repeat split; try done.
  - destruct Hq as [Ho Hq].
    pose proof (off_quiet ev (OnceListenerWrapper w ev x) st) as [Oc Or Op Oh].
    unfold bind.
    rewrite (off_returns ev (OnceListenerWrapper w ev x) st) by (by left).
    set (st1 := after (off ev (OnceListenerWrapper w ev x)) st) in *.
    destruct (IH st1 Hq) as (r & st' & E & _ & _ & Hc & Hr & Hp & Hh).
    exists Plain, st'. rewrite E. unfold ret.
    repeat split; try congruence.
    eapply heap_grows_trans; [exact Oh|]. exact Hh.
Qed.

Lemma attach_catch_quiet r st :
  ∃ st', attach_catch r st = (Normal tt, st')
    ∧ calls st' = calls st
    ∧ captureRejections st' = captureRejections st
    ∧ heap st' = heap st ∧ events st' = events st.
Proof. destruct r; simpl; eexists; (split; [reflexivity|]); done. Qed.

Lemma dispatch_quiet event x args st :
  quiet_entry code x →
  ∃ st', dispatch code emit' event args x st = (Normal tt, st')
    ∧ calls st' = calls st ++ [(original x, args)]
    ∧ captureRejections st' = captureRejections st
    ∧ heap_grows st st'.
Proof.
  intros Hq.
  destruct (invoke_quiet x args st Hq) as (r & st1 & E & _ & _ & Hc & _ & Hp & Hh).
  unfold dispatch, try_catch, bind. rewrite E.
  destruct (captureRejections st1 && is_promise r
            && negb (bool_decide (event = "error"))).
  - destruct (attach_catch_quiet r st1) as (st2 & E2 & Hc2 & Hp2 & Hh2 & _).
    exists st2. rewrite E2. repeat split; try congruence.
    eapply heap_grows_trans; [exact Hh|]. by apply heap_grows_same.
  - exists st1. done.
Qed.

(** The array object [forEach] walks holds [xs] when the walk starts;
    whatever quiet listeners do meanwhile, the walk calls the elements of
    [xs], each once and in order. *)
Lemma forEach_from_snapshot a event args xs n k st :
  (∃ ys, heap st !! a = Some (xs ++ ys)) →
  k + n = length xs →
  (∀ x, x ∈ xs → quiet_entry code x) →
  ∃ st', forEach_from a (dispatch code emit' event args) k n st = (Normal tt, st')
    ∧ calls st' = calls st ++ map (λ x, (original x, args)) (drop k xs)
    ∧ captureRejections st' = captureRejections st
    ∧ heap_grows st st'.
Proof.
  intros Hheap Hlen Hq. revert k st Hheap Hlen.
  induction n as [|n IH]; intros k st [ys Hheap] Hlen; simpl.
  - exists st. rewrite drop_ge by lia. simpl. rewrite app_nil_r.
    auto using heap_grows_refl.
  - assert (is_Some (xs !! k)) as [x Hx] by (apply lookup_lt_is_Some; lia).
    unfold array. rewrite Hheap. simpl.
    rewrite (lookup_app_l_Some _ _ _ _ Hx).
    assert (x ∈ xs) as Hin by (by eapply list_elem_of_lookup_2).
    destruct (dispatch_quiet event x args st (Hq x Hin))
      as (st1 & E1 & Hc1 & Hp1 & Hh1).
    destruct (Hh1 _ _ Hheap) as [zs Hzs]. rewrite <- app_assoc in Hzs.
    destruct (IH (S k) st1 (ex_intro _ _ Hzs) ltac:(lia))
      as (st2 & E2 & Hc2 & Hp2 & Hh2).
    exists st2. unfold bind. rewrite E1, E2.
    repeat split; try congruence; [|eauto using heap_grows_trans].
    rewrite Hc2, Hc1, <- app_assoc. simpl.
    by rewrite (drop_S _ _ _ Hx).
Qed.

Lemma emit_body_snapshot event args st a xs :
  events st !! event = Some a →
  array st a = xs →
  (∀ x, x ∈ xs → quiet_entry code x) →
  ∃ st', emit_body code emit' event args st = (Normal true, st')
    ∧ calls st' = calls st ++ map (λ x, (original x, args)) xs
    ∧ captureRejections st' = captureRejections st
    ∧ heap_grows st st'.
Proof.
  intros Hev Harr Hq. unfold emit_body, forEach, bind.
  rewrite (events_at_own _ _ _ Hev), Harr.
  destruct (heap st !! a) as [ys|] eqn:Hheap.
  - assert (ys = xs) as -> by (unfold array in Harr; by rewrite Hheap in Harr).
    destruct (forEach_from_snapshot a event args xs (length xs) 0 st)
      as (st' & E & Hc & Hp & Hh); [exists []; by rewrite app_nil_r|done|done|].
    exists st'. rewrite E. by rewrite drop_0 in Hc.
  - assert (xs = []) as -> by (unfold array in Harr; by rewrite Hheap in Harr).
    exists st. simpl. rewrite app_nil_r. auto using heap_grows_refl.
Qed.

End Snapshot.

(** ** Registry changes during an emission *)

Lemma new_emitter_fresh c :
  new_emitter defaultMaxListeners (Some c) true = Some (fresh_emitter c).
Proof. reflexivity. Qed.

Lemma elem_of_two {A} (x a b : A) : x ∈ [a; b] → x = a ∨ x = b.
Proof.
  intros [->|H]%elem_of_cons; [by left|].
  apply list_elem_of_singleton in H as ->. by right.
Qed.

(** C4, as the code has it.  [forEach] walks the array object that
    [events[event]] referred to when [emit] was called.  [off] and
    [removeAllListeners] never change that object (they make
    [events[event]] refer to a new array, or to none), and [push] adds
    beyond the length [forEach] read at the start.  So, over listeners that
    register with [on] and [once] and remove with [off] and
    [removeAllListeners], under names that [Object.prototype] does not have
    (these calls return), an emission calls exactly the entries present when
    it started, once each and in order: an entry removed by an earlier
    listener is still called, an entry added by an earlier listener is not,
    and none is called twice. *)
Theorem emit_walks_the_array_it_started_on code fuel event args st a :
  events st !! event = Some a →
  (∀ x, x ∈ array st a → quiet_entry code x) →
  ∃ st', emit code (S fuel) event args st = (Normal true, st')
    ∧ calls st' = calls st ++ map (λ x, (original x, args)) (array st a).
Proof.
  intros Ha Hq.
  destruct (emit_body_snapshot code (emit code fuel) event args st a
              (array st a) Ha eq_refl Hq) as (st' & E & Hc & _).
  exists st'. simpl. by rewrite E.
Qed.

Lemma emit_walks_the_array_it_started_on_witness :
  ∃ st', emit code_remover 1 "e" [VString "v"] two_listeners = (Normal true, st')
    ∧ calls st' = [(0, [VString "v"]); (1, [VString "v"])].
Proof.
  apply (emit_walks_the_array_it_started_on code_remover 0 "e" [VString "v"]
           two_listeners 0).
  - reflexivity.
  - intros x Hx.
    change (array two_listeners 0) with [Listener 0; Listener 1] in Hx.
    apply elem_of_two in Hx as [->| ->]; reflexivity.
Defined.

(** C4 as stated fails.  With 0 and 1 registered on [e]: when 0 removes 1,
    1 is no longer registered after the emission and was called all the
    same; when 0 registers 2, 2 is registered after the emission and was not
    called. *)
Lemma live_view_counterexample :
  (rawListeners (after (emit code_remover 1 "e" [VString "v"]) two_listeners) "e"
     = Normal [Listener 0]
   ∧ calls (after (emit code_remover 1 "e" [VString "v"]) two_listeners)
     = [(0, [VString "v"]); (1, [VString "v"])])
  ∧ (rawListeners (after (emit code_adder 1 "e" [VString "v"]) two_listeners) "e"
     = Normal [Listener 0; Listener 1; Listener 2]
   ∧ calls (after (emit code_adder 1 "e" [VString "v"]) two_listeners)
     = [(0, [VString "v"]); (1, [VString "v"])]).
Proof. vm_compute. done. Qed.

(** [unshift] does move the elements of the array [forEach] walks: when 0
    puts 2 at the front, index 1 holds 0 again, and 1 is never reached. *)
Lemma prepend_during_emit_revisits :
  calls (after (emit code_prepender 1 "e" [VString "v"]) two_listeners)
  = [(0, [VString "v"]); (0, [VString "v"])].
Proof. vm_compute. done. Qed.

(** A listener that registers under a name of [Object.prototype] does not
    return: [on] throws, and so does the emission, before function 1 is
    reached. *)
Lemma inherited_name_in_a_listener :
  (emit code_toString 1 "e" [VString "v"] two_listeners).1 = Thrown VTypeError
  ∧ calls (after (emit code_toString 1 "e" [VString "v"]) two_listeners)
    = [(0, [VString "v"])].
Proof. vm_compute. done. Qed.

(** ** Removal *)

(** C2, on the code.  [off] filters the array by [l !== originalListener],
    which drops every entry that is the target: one call removes both
    registrations of a function registered twice with [on]. *)
Theorem off_removes_every_duplicate :
  listenerCount registered_twice "e" None = Normal (Some 2)
  ∧ (off "e" (Listener 0) registered_twice).1 = Normal tt
  ∧ listenerCount (after (off "e" (Listener 0)) registered_twice) "e" None
    = Normal (Some 0)
  ∧ rawListeners (after (off "e" (Listener 0)) registered_twice) "e" = Normal [].
Proof. vm_compute. done. Qed.

Lemma last_filter_latest (p : entry → bool) ws1 w ws2 :
  p w = true → Forall (λ x, p x = false) ws2 →
  last (List.filter p (ws1 ++ w :: ws2)) = Some w.
Proof.
  intros Hw Hws2. rewrite List.filter_app. simpl. rewrite Hw.
  assert (List.filter p ws2 = []) as ->.
  { induction Hws2 as [|x xs Hx _ IH]; simpl; [done|]. by rewrite Hx. }
  apply last_snoc.
Qed.

Lemma filter_none (p : entry → bool) ws :
  Forall (λ x, p x = false) ws → List.filter p ws = [].
Proof. induction 1 as [|x xs Hx _ IH]; simpl; [done|]. by rewrite Hx. Qed.

Lemma array_alloc st xs :
  default [] ((heap st ++ [xs]) !! length (heap st)) = xs.
Proof. by rewrite lookup_app_r, Nat.sub_diag by lia. Qed.

Lemma after_off_own event l st a :
  events st !! event = Some a → after (off event l) st = off_array a event l st.
Proof. intros Ha. unfold after. by rewrite (off_own _ _ _ _ Ha). Qed.

Lemma after_off_absent event l st :
  events st !! event = None → after (off event l) st = st.
Proof.
  intros Ha. unfold after, off, events_at. rewrite Ha.
  by destruct (Object_prototype event).
Qed.

Lemma entries_off event l st a :
  events st !! event = Some a →
  entries (after (off event l) st) event
  = List.filter (λ x, negb (same_ref x (off_target st event l))) (array st a).
Proof.
  intros Ha. rewrite (after_off_own _ _ _ _ Ha). unfold off_array.
  set (kept := List.filter _ (array st a)).
  assert (entries (assign_events event kept st) event = kept) as Hassign.
  { unfold entries, assign_events, array. simpl.
    rewrite lookup_insert_eq. apply array_alloc. }
  assert (length kept ≤ 0 → entries
            (set_events (delete event (events (assign_events event kept st)))
               (assign_events event kept st)) event = kept) as Hdel.
  { intros Hlen. unfold entries. simpl. rewrite lookup_delete_eq.
    destruct kept; [done|simpl in Hlen; lia]. }
  repeat case_bool_decide; auto.
Qed.

Lemma onceEntries_off event l st a :
  events st !! event = Some a →
  onceEntries (after (off event l) st) event
  = List.filter (λ x, negb (same_ref x (off_target st event l))) (onceEntries st event).
Proof.
  intros Ha. rewrite (after_off_own _ _ _ _ Ha). unfold off_array.
  set (popped := List.filter _ (onceEntries st event)).
  case_bool_decide as Hlen; unfold onceEntries at 1; simpl.
  - rewrite lookup_delete_eq. destruct popped; [done|simpl in Hlen; lia].
  - by rewrite lookup_insert_eq.
Qed.

Lemma events_off_empty event l st a :
  events st !! event = Some a →
  List.filter (λ x, negb (same_ref x (off_target st event l))) (array st a) = [] →
  events (after (off event l) st) !! event = None.
Proof.
  intros Ha Hkept. rewrite (after_off_own _ _ _ _ Ha). unfold off_array.
  rewrite Hkept. simpl.
  case_bool_decide; simpl; apply lookup_delete_eq.
Qed.

Lemma events_off_nonempty event l st a :
  events st !! event = Some a →
  List.filter (λ x, negb (same_ref x (off_target st event l))) (array st a) ≠ [] →
  events (after (off event l) st) !! event = Some (length (heap st)).
Proof.
  intros Ha Hkept. rewrite (after_off_own _ _ _ _ Ha). unfold off_array.
  destruct (List.filter _ (array st a)) as [|x xs] eqn:E; [done|]. simpl.
  case_bool_decide; simpl; apply lookup_insert_eq.
Qed.

(** ** Unfolding one call of a listener *)

Lemma invoke_wrapper code emit' w event l args st :
  invoke code emit' (OnceListenerWrapper w event l) args st
  = (off event (OnceListenerWrapper w event l) >>
     invoke code emit' l args >> ret Plain) st.
Proof. reflexivity. Qed.

Lemma invoke_listener code emit' f args st :
  invoke code emit' (Listener f) args st
  = (run emit' (body (code f)) >> ret (returns (code f)))
      (set_calls (calls st ++ [(f, args)]) st).
Proof. reflexivity. Qed.

(** The call of a wrapper of a function whose [off] returns. *)
Lemma invoke_wrapper_own code emit' w event f args st a :
  events st !! event = Some a →
  invoke code emit' (OnceListenerWrapper w event (Listener f)) args st
  = (run emit' (body (code f)) >> ret Plain)
      (set_calls
         (calls (after (off event (OnceListenerWrapper w event (Listener f))) st)
            ++ [(f, args)])
         (after (off event (OnceListenerWrapper w event (Listener f))) st)).
Proof.
  intros Ha. rewrite invoke_wrapper. unfold bind.
  rewrite (off_own _ _ _ _ Ha), (after_off_own _ _ _ _ Ha).
  rewrite invoke_listener. unfold bind.
  by destruct (run emit' (body (code f)) _) as [[[]| |] ?].
Qed.

Lemma dispatch_normal code emit' event args x st r st1 :
  invoke code emit' x args st = (Normal r, st1) →
  dispatch code emit' event args x st
  = if captureRejections st1 && is_promise r && negb (bool_decide (event = "error"))
    then attach_catch r st1 else (Normal tt, st1).
Proof.
  intros E. unfold dispatch, try_catch, bind. rewrite E.
  destruct (_ && _ && _); [|done]. by destruct r.
Qed.

(** The [catch] block of [emit]. *)
Lemma dispatch_thrown code emit' event args x st v st1 :
  invoke code emit' x args st = (Thrown v, st1) →
  dispatch code emit' event args x st
  = if captureRejections st1 && negb (bool_decide (event = "error"))
    then (emit' "error" [v] >> ret tt) st1 else (Thrown v, st1).
Proof. intros E. unfold dispatch, try_catch, bind. by rewrite E. Qed.

Lemma forEach_from_step a callback k n x st :
  array st a !! k = Some x →
  forEach_from a callback k (S n) st
  = (callback x >> forEach_from a callback (S k) n) st.
Proof. intros E. simpl. by rewrite E. Qed.

Lemma emit_own code fuel event args st a :
  events st !! event = Some a →
  emit code (S fuel) event args st
  = (forEach a (dispatch code (emit code fuel) event args) >> ret true) st.
Proof. intros Ha. simpl. unfold emit_body. by rewrite (events_at_own _ _ _ Ha). Qed.

Lemma emit_absent code fuel event args st :
  events st !! event = None → ordinary event →
  emit code (S fuel) event args st = (Normal false, st).
Proof.
  intros Ha Ho. simpl. unfold emit_body.
  by rewrite (proj2 (events_at_Undefined st event) (conj Ha Ho)).
Qed.

Lemma emit_inherited code fuel event args st v :
  events st !! event = None → Object_prototype event = Some v →
  emit code (S fuel) event args st = (Thrown VTypeError, st).
Proof.
  intros Ha Hv. simpl. unfold emit_body.
  by rewrite (events_at_inherited _ _ _ Ha Hv).
Qed.

(** ** One-shot listeners *)

(** Under a name of [Object.prototype], [once] has pushed the wrapper on
    the once-index when [on] throws. *)
Lemma once_inherited event l st v :
  events st !! event = None → Object_prototype event = Some v →
  once event l st = (Thrown VTypeError, after (createOnceWrapper event l) st).
Proof.
  intros Ha Hv. unfold once, bind. simpl.
  by rewrite (on_inherited _ _ _ v).
Qed.

Lemma new_emitter_inv dm cr p st0 :
  new_emitter dm cr p = Some st0 →
  negative dm = false
  ∧ st0 = Emitter dm ∅ ∅ ∅ (default false cr) "EventEmitter" [] 0 p [] [] [].
Proof.
  unfold new_emitter. destruct (negative dm); [done|]. by intros [= <-].
Qed.

Lemma emitMaxListenersExceeded_within event st :
  (∀ a, events st !! event = Some a → maxListeners st ≠ Int 0 →
        length_le (length (array st a)) (maxListeners st) = true) →
  emitMaxListenersExceeded event st = st.
Proof.
  intros H. unfold emitMaxListenersExceeded.
  destruct (maxListeners st) as [[| |]|] eqn:Hmax; try done;
    destruct (warned st event); try done;
    destruct (events st !! event) as [a|]; try done;
    by rewrite (H a eq_refl).
Qed.

Lemma once_on_new_emitter dm cr p st0 event f :
  new_emitter dm cr p = Some st0 →
  ordinary event →
  after (once event (Listener f)) st0
  = Emitter dm {[event := 0]} ∅
      {[event := [OnceListenerWrapper 0 event (Listener f)]]}
      (default false cr) "EventEmitter"
      [[OnceListenerWrapper 0 event (Listener f)]] 1 p [] [] [].
Proof.
  intros [Hneg ->]%new_emitter_inv Ho.
  unfold after, once, createOnceWrapper, bind, on, bind, modify, ensure_events,
    push_listener, events_at, onceEntries.
  simpl. rewrite !lookup_empty, Ho. simpl.
  rewrite lookup_insert_eq. simpl.
  rewrite emitMaxListenersExceeded_within; [done|].
  simpl. intros a. rewrite lookup_insert_eq. intros [= <-] Hz.
  unfold array. simpl.
  destruct dm as [z|]; [|done]. simpl in *.
  apply bool_decide_eq_true_2. apply bool_decide_eq_false in Hneg.
  assert (z ≠ 0%Z) by congruence. lia.
Qed.

Lemma run_reemits code fuel event cs st :
  Forall (λ c, ∃ args, c = CallEmit event args) cs →
  events st !! event = None → ordinary event →
  run (emit code (S fuel)) cs st = (Normal tt, st).
Proof.
  induction 1 as [|c cs [args ->] _ IH]; intros Hev Ho; cbn [run exec]; [done|].
  unfold bind at 1. unfold bind at 1.
  rewrite (emit_absent _ _ _ _ _ Hev Ho). unfold ret. by apply IH.
Qed.

(** C3. After [once( event, L )] on a new emitter, where [L] may emit
    [event] again from within its call: the wrapper is the only entry of
    [events[event]] and of the once-index; applied to [off], it is gone
    from both; the first [emit] returns [true], the second returns [false],
    and [L] has been called once, with the arguments of the first.  ([once]
    returns for every event name but those of [Object.prototype], under
    which it throws.) *)
Theorem once_listener_runs_once code dm cr p st0 event f args1 args2 fuel st1 :
  new_emitter dm cr p = Some st0 →
  once event (Listener f) st0 = (Normal tt, st1) →
  reemits event (code f) →
  rawListeners st1 event = Normal [OnceListenerWrapper 0 event (Listener f)]
  ∧ onceEntries st1 event = [OnceListenerWrapper 0 event (Listener f)]
  ∧ (off event (OnceListenerWrapper 0 event (Listener f)) st1).1 = Normal tt
  ∧ rawListeners
      (after (off event (OnceListenerWrapper 0 event (Listener f))) st1) event
    = Normal []
  ∧ onceEntries
      (after (off event (OnceListenerWrapper 0 event (Listener f))) st1) event
    = []
  ∧ ∃ st2 st3,
      emit code (S (S fuel)) event args1 st1 = (Normal true, st2)
      ∧ emit code (S (S fuel)) event args2 st2 = (Normal false, st3)
      ∧ calls st3 = [(f, args1)].
Proof.
  intros Hnew Honce Hre.
  assert (ordinary event) as Ho.
  { destruct (Object_prototype event) as [v|] eqn:Hv; [|done].
    destruct (new_emitter_inv _ _ _ _ Hnew) as [_ ->].
    rewrite (once_inherited event (Listener f) _ v) in Honce; done. }
  assert (st1 = after (once event (Listener f)) st0) as ->
    by (unfold after; by rewrite Honce).
  clear Honce. rewrite (once_on_new_emitter _ _ _ _ event f Hnew Ho).
  set (w := OnceListenerWrapper 0 event (Listener f)).
  set (st := Emitter _ _ _ _ _ _ _ _ _ _ _ _).
  assert (events st !! event = Some 0) as Hev by apply lookup_insert_eq.
  assert (onceEntries st event = [w]) as Hidx.
  { unfold onceEntries. subst st. simpl. by rewrite lookup_singleton_eq. }
  assert (off_target st event w = w) as Htarget.
  { unfold off_target. by rewrite Hidx. }
  assert (events (after (off event w) st) !! event = None) as Hgone.
  { apply events_off_empty with 0; [done|]. rewrite Htarget. subst st w.
    unfold array. by simpl. }
  split; [|split; [|split; [|split; [|split]]]].
  - rewrite rawListeners_entries by (by left). unfold entries. by rewrite Hev.
  - exact Hidx.
  - by rewrite (off_own _ _ _ _ Hev).
  - rewrite rawListeners_entries by (by left). unfold entries. by rewrite Hgone.
  - rewrite (onceEntries_off _ _ _ _ Hev), Htarget, Hidx. subst w.
    cbn [List.filter same_ref]. by rewrite bool_decide_eq_true_2.
  - set (s0 := after (off event w) st).
    set (st2 := set_calls (calls s0 ++ [(f, args1)]) s0).
    assert (events st2 !! event = None) as Hgone2 by exact Hgone.
    assert (invoke code (emit code (S fuel)) w args1 st = (Normal Plain, st2)) as Hinv.
    { unfold w. rewrite (invoke_wrapper_own _ _ _ _ _ _ _ 0 Hev).
      fold w s0 st2. unfold bind.
      by rewrite (run_reemits code fuel event _ st2 Hre Hgone2 Ho). }
    exists st2, st2. split; [|split].
    + rewrite (emit_own _ _ _ _ _ _ Hev). unfold bind at 1, forEach.
      replace (array st 0) with [w] by reflexivity.
      cbn [List.length].
      rewrite (forEach_from_step _ _ _ _ w) by reflexivity.
      unfold bind at 1. rewrite (dispatch_normal _ _ _ _ _ _ _ _ Hinv).
      simpl. by rewrite andb_false_r.
    + by apply emit_absent.
    + subst st2. simpl.
      pose proof (quiet_calls _ _ (off_quiet event w st)) as Hc.
      fold s0 in Hc. by rewrite Hc.
Qed.

Lemma once_listener_runs_once_witness :
  rawListeners (after (once "e" (Listener 0)) (fresh_emitter false)) "e"
    = Normal [OnceListenerWrapper 0 "e" (Listener 0)]
  ∧ onceEntries (after (once "e" (Listener 0)) (fresh_emitter false)) "e"
    = [OnceListenerWrapper 0 "e" (Listener 0)]
  ∧ ∃ st2 st3,
      emit code_reemitter 2 "e" [VString "first"]
        (after (once "e" (Listener 0)) (fresh_emitter false)) = (Normal true, st2)
      ∧ emit code_reemitter 2 "e" [VString "second"] st2 = (Normal false, st3)
      ∧ calls st3 = [(0, [VString "first"])].
Proof.
  destruct (once_listener_runs_once code_reemitter (Int 10) (Some false) true
              (fresh_emitter false) "e" 0 [VString "first"] [VString "second"] 0
              (after (once "e" (Listener 0)) (fresh_emitter false)))
    as (H1 & H2 & _ & _ & _ & H3).
  - reflexivity.
  - reflexivity.
  - repeat constructor. by exists [VString "again"].
  - split; [exact H1|]. split; [exact H2|exact H3].
Defined.

(** ** Listeners that throw *)

Lemma emit_body_own code emit' event args st a :
  events st !! event = Some a →
  emit_body code emit' event args st
  = (forEach a (dispatch code emit' event args) >> ret true) st.
Proof. intros Ha. unfold emit_body. by rewrite (events_at_own _ _ _ Ha). Qed.

Lemma ordinary_error : ordinary "error".
Proof. reflexivity. Qed.

Lemma same_registry_refl st : same_registry st st.
Proof. done. Qed.

Lemma same_registry_trans st1 st2 st3 :
  same_registry st1 st2 → same_registry st2 st3 → same_registry st1 st3.
Proof. intros (?&?&?) (?&?&?). repeat split; congruence. Qed.

Lemma same_registry_array st st' a : same_registry st st' → array st' a = array st a.
Proof. intros (_ & H & _). unfold array. by rewrite H. Qed.

Lemma same_registry_entries st st' event :
  same_registry st st' → entries st' event = entries st event.
Proof. intros (He & Hh & _). unfold entries, array. by rewrite He, Hh. Qed.

Lemma same_registry_rawListeners st st' event :
  same_registry st st' → rawListeners st' event = rawListeners st event.
Proof.
  intros (He & Hh & _). unfold rawListeners, events_at, array. by rewrite He, Hh.
Qed.

(** A walk whose callback returns normally and leaves the registry alone:
    the calls of the entries add up, in order. *)
Lemma forEach_from_trace a callback (tr : entry → list (fid * list value))
    xs rest st0 :
  array st0 a = xs ++ rest →
  (∀ x st, x ∈ xs → same_registry st0 st →
     ∃ st', callback x st = (Normal tt, st')
       ∧ calls st' = calls st ++ tr x ∧ same_registry st0 st') →
  ∀ n k st, same_registry st0 st → k + n = length xs →
    ∃ st', forEach_from a callback k n st = (Normal tt, st')
      ∧ calls st' = calls st ++ List.flat_map tr (drop k xs)
      ∧ same_registry st0 st'.
Proof.
  intros Harr Hcb. induction n as [|n IH]; intros k st Hst Hlen; simpl.
  - exists st. rewrite drop_ge by lia. simpl. by rewrite app_nil_r.
  - assert (is_Some (xs !! k)) as [x Hx] by (apply lookup_lt_is_Some; lia).
    rewrite (same_registry_array _ _ a Hst), Harr, (lookup_app_l_Some _ _ _ _ Hx).
    destruct (Hcb x st) as (st1 & E1 & Hc1 & Hr1);
      [by eapply list_elem_of_lookup_2|done|].
    destruct (IH (S k) st1 Hr1 ltac:(lia)) as (st2 & E2 & Hc2 & Hr2).
    exists st2. unfold bind. rewrite E1, E2. repeat split; try apply Hr2.
    by rewrite Hc2, Hc1, <- app_assoc, (drop_S _ _ _ Hx).
Qed.

Lemma forEach_from_app a callback n1 n2 k st :
  forEach_from a callback k (n1 + n2) st
  = (forEach_from a callback k n1 >> forEach_from a callback (k + n1) n2) st.
Proof.
  revert k st. induction n1 as [|n1 IH]; intros k st; simpl.
  - unfold bind, ret. by rewrite Nat.add_0_r.
  - unfold bind in *. destruct (array st a !! k) as [x|].
    + destruct (callback x st) as [[[]| |] st1]; try done.
      rewrite IH. by rewrite Nat.add_succ_r.
    + rewrite IH. by rewrite Nat.add_succ_r.
Qed.

Lemma flat_map_singleton_listeners (h : fid → list (fid * list value)) fs :
  List.flat_map (λ x, h (original x)) (map Listener fs) = List.flat_map h fs.
Proof. induction fs as [|f fs IH]; simpl; [done|]. by rewrite IH. Qed.

Lemma flat_map_singleton {A B} (h : A → B) (xs : list A) :
  List.flat_map (λ x, [h x]) xs = map h xs.
Proof. induction xs as [|x xs IH]; simpl; [done|]. by rewrite IH. Qed.

Section Throwing.

Variable code : fid → function.
Variable emit' : string → list value → M bool.

Lemma dispatch_passive event f args st :
  passive (code f) →
  ∃ st', dispatch code emit' event args (Listener f) st = (Normal tt, st')
    ∧ calls st' = calls st ++ [(f, args)] ∧ same_registry st st'.
Proof.
  intros Hp.
  assert (invoke code emit' (Listener f) args st
          = (Normal (returns (code f)), set_calls (calls st ++ [(f, args)]) st)) as E.
  { rewrite invoke_listener. unfold passive in Hp. by rewrite Hp. }
  rewrite (dispatch_normal _ _ _ _ _ _ _ _ E).
  destruct (_ && _ && _); [|by eexists].
  destruct (returns (code f)); by eexists.
Qed.

Lemma invoke_throws f args st v :
  throws (code f) = Some v →
  invoke code emit' (Listener f) args st
  = (Thrown v, set_calls (calls st ++ [(f, args)]) st).
Proof.
  unfold throws. intros Ht. rewrite invoke_listener.
  destruct (body (code f)) as [|[] rest]; try done. by injection Ht as ->.
Qed.

(** An emission over plain listeners that just get called. *)
Lemma emit_body_passive event args st a gs rest :
  events st !! event = Some a →
  array st a = map Listener gs ++ rest →
  (∀ g, g ∈ gs → passive (code g)) →
  ∃ st', forEach_from a (dispatch code emit' event args) 0 (length gs) st
         = (Normal tt, st')
    ∧ calls st' = calls st ++ map (λ g, (g, args)) gs ∧ same_registry st st'.
Proof.
  intros Hev Harr Hp.
  destruct (forEach_from_trace a (dispatch code emit' event args)
              (λ x, [(original x, args)]) (map Listener gs) rest st Harr)
    with (n := length gs) (k := 0) (st := st) as (st' & E & Hc & Hr).
  - intros x s Hx Hs. apply list_elem_of_fmap in Hx as (g & -> & Hg).
    destruct (dispatch_passive event g args s (Hp g Hg)) as (s' & E & Hc & Hr).
    exists s'. eauto using same_registry_trans.
  - apply same_registry_refl.
  - by rewrite length_map.
  - exists st'. rewrite E. repeat split; try apply Hr.
    rewrite Hc, drop_0.
    rewrite (flat_map_singleton_listeners (λ g, [(g, args)])).
    by rewrite flat_map_singleton.
Qed.

End Throwing.

(** [emit( 'error', v )] over plain ["error"] listeners that just get
    called; it returns [false] when there is none. *)
Lemma emit_error_passive code fuel v st gs :
  rawListeners st "error" = Normal (map Listener gs) →
  (∀ g, g ∈ gs → passive (code g)) →
  ∃ b st', emit code (S fuel) "error" [v] st = (Normal b, st')
    ∧ calls st' = calls st ++ map (λ g, (g, [v])) gs ∧ same_registry st st'.
Proof.
  intros Hraw Hp.
  rewrite rawListeners_entries in Hraw by (left; apply ordinary_error).
  injection Hraw as Hraw. unfold entries in Hraw.
  destruct (events st !! "error") as [b|] eqn:Hev.
  - destruct (emit_body_passive code (emit code fuel) "error" [v] st b gs [])
      as (st' & E & Hc & Hr); [done|by rewrite app_nil_r|done|].
    exists true, st'. rewrite (emit_own _ _ _ _ _ _ Hev). unfold bind, forEach.
    rewrite Hraw, length_map, E. done.
  - destruct gs; [|done]. exists false, st.
    rewrite (emit_absent _ _ _ _ _ Hev ordinary_error). simpl.
    by rewrite app_nil_r.
Qed.

(** One entry of an emission under rejection-capture. *)
Lemma dispatch_captured code fuel event args st gs f :
  captureRejections st = true → event ≠ "error" →
  rawListeners st "error" = Normal (map Listener gs) →
  (∀ g, g ∈ gs → passive (code g)) →
  simple (code f) →
  ∃ st', dispatch code (emit code (S fuel)) event args (Listener f) st
         = (Normal tt, st')
    ∧ calls st' = calls st ++ captured_calls code args gs f
    ∧ same_registry st st'.
Proof.
  intros Hcap Hne Hraw Hp [Hbody|(v & rest & Hbody)].
  - destruct (dispatch_passive code (emit code (S fuel)) event f args st Hbody)
      as (st' & E & Hc & Hr).
    exists st'. unfold captured_calls, throws. by rewrite Hbody.
  - assert (throws (code f) = Some v) as Ht by (unfold throws; by rewrite Hbody).
    rewrite (dispatch_thrown _ _ _ _ _ _ _ _
               (invoke_throws code (emit code (S fuel)) f args st v Ht)).
    set (st1 := set_calls (calls st ++ [(f, args)]) st).
    replace (captureRejections st1) with true by (symmetry; exact Hcap).
    rewrite bool_decide_eq_false_2 by done. cbn [negb andb].
    destruct (emit_error_passive code fuel v st1 gs Hraw Hp)
      as (b & st' & E & Hc & Hr).
    exists st'. unfold bind. rewrite E. repeat split; try apply Hr.
    rewrite Hc. unfold captured_calls. rewrite Ht. simpl.
    by rewrite <- app_assoc.
Qed.

(** C5. Under [captureRejections: true], for an event other than
    ["error"]: when the call of an entry throws [v], whatever the listener
    is, the callback of [forEach] does [this.emit( 'error', v )] from the
    state the listener left, and completes as that emission does, so the
    listener's throw itself never leaves [emit] and the walk goes on when
    the ["error"] emission returns.  Over plain listeners that either just
    get called or throw at once, and plain ["error"] listeners that just
    get called: [emit] returns [true]; every entry is called in order and
    each throwing entry is followed by the calls of the ["error"] listeners
    with the thrown value as their only argument. *)
Theorem captured_throw_is_emitted_as_error code fuel event args st :
  captureRejections st = true →
  event ≠ "error" →
  (∀ x v st1,
     invoke code (emit code fuel) x args st = (Thrown v, st1) →
     dispatch code (emit code fuel) event args x st
     = (emit code fuel "error" [v] >> ret tt) st1)
  ∧ (∀ a fs gs,
       events st !! event = Some a →
       array st a = map Listener fs →
       rawListeners st "error" = Normal (map Listener gs) →
       (∀ f, f ∈ fs → simple (code f)) →
       (∀ g, g ∈ gs → passive (code g)) →
       ∃ st', emit code (S (S fuel)) event args st = (Normal true, st')
         ∧ calls st' = calls st ++ List.flat_map (captured_calls code args gs) fs).
Proof.
  intros Hcap Hne. split.
  - intros x v st1 Hinv.
    rewrite (dispatch_thrown _ _ _ _ _ _ _ _ Hinv).
    pose proof (invoke_captureRejections code fuel x args st) as Hflag.
    unfold after in Hflag. rewrite Hinv in Hflag. simpl in Hflag.
    by rewrite Hflag, Hcap, bool_decide_eq_false_2.
  - intros a fs gs Hev Harr Hraw Hfs Hgs.
    destruct (forEach_from_trace a (dispatch code (emit code (S fuel)) event args)
                (λ x, captured_calls code args gs (original x))
                (map Listener fs) [] st)
      with (n := length fs) (k := 0) (st := st) as (st' & E & Hc & Hr).
    + by rewrite app_nil_r.
    + intros x s Hx Hs. apply list_elem_of_fmap in Hx as (f & -> & Hf).
      destruct (dispatch_captured code fuel event args s gs f) as (s' & E & Hc & Hr);
        try done.
      * destruct Hs as (_ & _ & Hs). congruence.
      * by rewrite (same_registry_rawListeners _ _ _ Hs).
      * by apply Hfs.
      * exists s'. eauto using same_registry_trans.
    + apply same_registry_refl.
    + by rewrite length_map.
    + exists st'. split.
      * rewrite (emit_own _ _ _ _ _ _ Hev).
        unfold bind, forEach. by rewrite Harr, length_map, E.
      * rewrite Hc, drop_0.
        by rewrite (flat_map_singleton_listeners (captured_calls code args gs)).
Qed.

Lemma captured_throw_is_emitted_as_error_witness :
  ∃ st', emit code_thrower 2 "erroredEvent" [VString "Hello, World!"]
           (with_error_listener true) = (Normal true, st')
    ∧ calls st' = [(0, [VString "Hello, World!"]); (2, [VError "Test error"]);
                   (1, [VString "Hello, World!"])].
Proof.
  destruct (captured_throw_is_emitted_as_error code_thrower 0 "erroredEvent"
              [VString "Hello, World!"] (with_error_listener true))
    as [_ H].
  - reflexivity.
  - discriminate.
  - apply (H 1 [0; 1] [2]).
    + reflexivity.
    + reflexivity.
    + reflexivity.
    + intros f _. destruct f as [|f]; [right; by eexists _, _|by left].
    + intros g Hg. apply list_elem_of_singleton in Hg as ->. reflexivity.
Defined.

(** An emission whose first failing entry lets a throw go: the entries
    before it have been called, the ones after it are not. *)
Lemma emit_body_abort code emit' event args st a pre x post u trx :
  events st !! event = Some a →
  array st a = map Listener pre ++ x :: post →
  (∀ f, f ∈ pre → passive (code f)) →
  (∀ st1, same_registry st st1 →
     ∃ st2, dispatch code emit' event args x st1 = (Thrown u, st2)
       ∧ calls st2 = calls st1 ++ trx) →
  ∃ st', emit_body code emit' event args st = (Thrown u, st')
    ∧ calls st' = calls st ++ map (λ f, (f, args)) pre ++ trx.
Proof.
  intros Hev Harr Hpre Hx.
  destruct (emit_body_passive code emit' event args st a pre (x :: post)
              Hev Harr Hpre) as (st1 & E1 & Hc1 & Hr1).
  destruct (Hx st1 Hr1) as (st2 & E2 & Hc2).
  exists st2. split.
  - rewrite (emit_body_own _ _ _ _ _ _ Hev). unfold bind at 1. unfold forEach.
    rewrite Harr, length_app, length_map. cbn [List.length].
    rewrite forEach_from_app. unfold bind at 1. rewrite E1.
    rewrite (forEach_from_step _ _ _ _ x).
    + unfold bind. by rewrite E2.
    + rewrite (same_registry_array _ _ a Hr1), Harr.
      rewrite lookup_app_r by (rewrite length_map; lia).
      by rewrite length_map, Nat.add_0_l, Nat.sub_diag.
  - by rewrite Hc2, Hc1, <- app_assoc.
Qed.

(** C6. If rejection-capture is off, or the event is ["error"], what the
    call of an entry throws, whatever the listener is, is what the callback
    of [forEach] throws.  So when a listener that throws is registered after
    listeners that just get called, the value it throws leaves [emit], and
    no later entry is called.  Otherwise the [catch] block hands the value
    to [emit( 'error', v )] and what happens next is what that emission
    does; if an ["error"] listener throws in turn, its value leaves the
    original [emit], with that listener called once and no entry called
    after it. *)
Theorem throw_reaches_the_caller code fuel event args st a pre t post v :
  events st !! event = Some a →
  array st a = map Listener pre ++ Listener t :: post →
  (∀ f, f ∈ pre → passive (code f)) →
  throws (code t) = Some v →
  (captureRejections st = false ∨ event = "error" →
     ∀ x u st1,
       invoke code (emit code fuel) x args st = (Thrown u, st1) →
       dispatch code (emit code fuel) event args x st = (Thrown u, st1))
  ∧ (captureRejections st = false ∨ event = "error" →
     ∃ st', emit code (S fuel) event args st = (Thrown v, st')
       ∧ calls st' = calls st ++ map (λ f, (f, args)) pre ++ [(t, args)])
  ∧ (captureRejections st = true → event ≠ "error" →
       (∀ st1, captureRejections st1 = true →
          dispatch code (emit code fuel) event args (Listener t) st1
          = (emit code fuel "error" [v] >> ret tt)
              (set_calls (calls st1 ++ [(t, args)]) st1))
       ∧ ∀ g gs v',
           rawListeners st "error" = Normal (Listener g :: gs) →
           throws (code g) = Some v' →
           ∃ st', emit code (S (S fuel)) event args st = (Thrown v', st')
             ∧ calls st' = calls st ++ map (λ f, (f, args)) pre
                             ++ [(t, args); (g, [v])]).
Proof.
  intros Hev Harr Hpre Ht. split; [|split; [|split]].
  - intros Hcase x u st1 Hinv.
    rewrite (dispatch_thrown _ _ _ _ _ _ _ _ Hinv).
    pose proof (invoke_captureRejections code fuel x args st) as Hflag.
    unfold after in Hflag. rewrite Hinv in Hflag. simpl in Hflag. rewrite Hflag.
    destruct Hcase as [->| ->]; [done|].
    rewrite bool_decide_eq_true_2 by done. by rewrite andb_false_r.
  - intros Hcase.
    change (emit code (S fuel) event args st)
      with (emit_body code (emit code fuel) event args st).
    apply (emit_body_abort code (emit code fuel) event args st a pre
             (Listener t) post v [(t, args)] Hev Harr Hpre).
    intros st1 (_ & _ & Hcap).
    rewrite (dispatch_thrown _ _ _ _ _ _ _ _
               (invoke_throws code (emit code fuel) t args st1 v Ht)).
    replace (captureRejections (set_calls (calls st1 ++ [(t, args)]) st1))
      with (captureRejections st) by (symmetry; exact Hcap).
    assert (captureRejections st && negb (bool_decide (event = "error")) = false)
      as ->.
    { destruct Hcase as [->| ->]; [done|].
      rewrite bool_decide_eq_true_2 by done. apply andb_false_r. }
    by eexists.
  - intros st1 Hcap1.
    rewrite (dispatch_thrown _ _ _ _ _ _ _ _
               (invoke_throws code (emit code fuel) t args st1 v Ht)).
    replace (captureRejections (set_calls (calls st1 ++ [(t, args)]) st1))
      with true by (symmetry; exact Hcap1).
    by rewrite bool_decide_eq_false_2.
  - intros g gs v' Hraw Hg.
    change (emit code (S (S fuel)) event args st)
      with (emit_body code (emit code (S fuel)) event args st).
    apply (emit_body_abort code (emit code (S fuel)) event args st a pre
             (Listener t) post v' [(t, args); (g, [v])] Hev Harr Hpre).
    intros st1 Hr1.
    rewrite (dispatch_thrown _ _ _ _ _ _ _ _
               (invoke_throws code (emit code (S fuel)) t args st1 v Ht)).
    set (st2 := set_calls (calls st1 ++ [(t, args)]) st1).
    assert (same_registry st st2) as Hr2 by exact Hr1.
    replace (captureRejections st2) with true
      by (destruct Hr2 as (_ & _ & ->); done).
    rewrite bool_decide_eq_false_2 by done. cbn [negb andb].
    assert (rawListeners st2 "error" = Normal (Listener g :: gs)) as Hraw2
      by (by rewrite (same_registry_rawListeners _ _ _ Hr2)).
    rewrite rawListeners_entries in Hraw2 by (left; apply ordinary_error).
    injection Hraw2 as Hraw2. unfold entries in Hraw2.
    destruct (events st2 !! "error") as [b|] eqn:Hevb; [|done].
    destruct (emit_body_abort code (emit code fuel) "error" [v] st2 b []
                (Listener g) gs v' [(g, [v])] Hevb Hraw2) as (st3 & E3 & Hc3).
    + intros f Hf. by apply elem_of_nil in Hf.
    + intros s _.
      rewrite (dispatch_thrown _ _ _ _ _ _ _ _
                 (invoke_throws code (emit code fuel) g [v] s v' Hg)).
      rewrite (bool_decide_eq_true_2 ("error" = "error")) by done.
      cbn [negb]. rewrite andb_false_r. by eexists.
    + exists st3. split.
      * unfold bind.
        change (emit code (S fuel) "error" [v] st2)
          with (emit_body code (emit code fuel) "error" [v] st2).
        by rewrite E3.
      * rewrite Hc3. subst st2. simpl. by rewrite <- app_assoc.
Qed.

Lemma throw_reaches_the_caller_witness :
  (∃ st', emit code_thrower 1 "erroredEvent" [VString "Hello, World!"]
            (with_error_listener false) = (Thrown (VError "Test error"), st')
     ∧ calls st' = [(0, [VString "Hello, World!"])])
  ∧ (∃ st', emit code_rethrower 2 "erroredEvent" [VString "Hello, World!"]
              (with_error_listener true) = (Thrown (VError "Re-thrown error"), st')
     ∧ calls st' = [(0, [VString "Hello, World!"]); (2, [VError "Test error"])]).
Proof.
  split.
  - destruct (throw_reaches_the_caller code_thrower 0 "erroredEvent"
                [VString "Hello, World!"] (with_error_listener false) 1
                [] 0 [Listener 1] (VError "Test error")) as (_ & H & _).
    + reflexivity.
    + reflexivity.
    + intros f Hf. by apply elem_of_nil in Hf.
    + reflexivity.
    + apply H. by left.
  - destruct (throw_reaches_the_caller code_rethrower 0 "erroredEvent"
                [VString "Hello, World!"] (with_error_listener true) 1
                [] 0 [Listener 1] (VError "Test error")) as (_ & _ & H).
    + reflexivity.
    + reflexivity.
    + intros f Hf. by apply elem_of_nil in Hf.
    + reflexivity.
    + destruct (H eq_refl ltac:(discriminate)) as [_ H2].
      apply (H2 2 [] (VError "Re-thrown error")); reflexivity.
Defined.

(** ** The max-listeners diagnostic *)

Lemma warned_once_same st st' :
  warnings st' = warnings st → warningEmitted st' = warningEmitted st →
  warned_once st → warned_once st'.
Proof. unfold warned_once. by intros -> ->. Qed.

Lemma warned_false st event :
  warned st event = false → (event ∉ warningEmitted st) ∧ ordinary event.
Proof.
  unfold warned. intros [H1 H2]%orb_false_elim.
  split; [by apply bool_decide_eq_false in H1|by apply ordinary_inherited_name].
Qed.

(** What [emitMaxListenersExceeded] does: nothing, or the diagnostic and
    the flag. *)
Lemma emitMaxListenersExceeded_cases event st :
  emitMaxListenersExceeded event st = st
  ∨ (∃ a, warned st event = false
        ∧ events st !! event = Some a
        ∧ exceeds (length (array st a)) (maxListeners st)
        ∧ maxListeners st ≠ Int 0
        ∧ emitMaxListenersExceeded event st
          = set_warnings (warnings st ++ [diagnostic st event (length (array st a))])
              (set_warningEmitted ({[event]} ∪ warningEmitted st) st)).
Proof.
  unfold emitMaxListenersExceeded.
  destruct (maxListeners st) as [z|] eqn:Hmax; [|by left].
  destruct (decide (z = 0%Z)) as [->|Hz]; [by left|].
  destruct (warned st event) eqn:Hw; [left; by destruct z|].
  destruct (events st !! event) as [a|] eqn:Ha; [|left; by destruct z].
  destruct (length_le (length (array st a)) (Int z)) eqn:Hle;
    [left; by destruct z|].
  right. exists a. repeat split; try done.
  - simpl in *. apply bool_decide_eq_false in Hle. lia.
  - congruence.
  - by destruct z.
Qed.

Lemma emitMaxListenersExceeded_warned_once event st :
  warned_once st → warned_once (emitMaxListenersExceeded event st).
Proof.
  intros [Hnd Hflag].
  destruct (emitMaxListenersExceeded_cases event st)
    as [->|(a & Hw & _ & _ & _ & ->)]; [done|].
  apply warned_false in Hw as [Hw _].
  assert (event ∉ map warning_event (warnings st)) as Hfresh
    by (intros Hin; by apply Hflag in Hin).
  split; simpl; rewrite map_app; simpl.
  - apply NoDup_app. repeat split;
      [done|intros x Hx ->%list_elem_of_singleton; done|apply NoDup_singleton].
  - intros e [He| ->%list_elem_of_singleton]%elem_of_app; [|set_solver].
    apply Hflag in He. set_solver.
Qed.

Lemma off_fields event l st :
  warnings (after (off event l) st) = warnings st
  ∧ warningEmitted (after (off event l) st) = warningEmitted st
  ∧ maxListeners (after (off event l) st) = maxListeners st
  ∧ next_wrapper (after (off event l) st) = next_wrapper st
  ∧ process_defined (after (off event l) st) = process_defined st
  ∧ constructor_name (after (off event l) st) = constructor_name st.
Proof.
  unfold after, off. destruct (events_at st event); try done.
  unfold off_array. by repeat case_bool_decide.
Qed.

(** [this.events[event] ||= []] followed by [push] or [unshift] writes
    [events] and the array only. *)
Lemma registration_fields event l st :
  let st1 := after (push_listener event l) (ensure_events event st) in
  let st2 := after (unshift_listener event l) (ensure_events event st) in
  (maxListeners st1 = maxListeners st ∧ warnings st1 = warnings st
   ∧ warningEmitted st1 = warningEmitted st
   ∧ process_defined st1 = process_defined st
   ∧ constructor_name st1 = constructor_name st
   ∧ onceListeners st1 = onceListeners st
   ∧ next_wrapper st1 = next_wrapper st)
  ∧ (maxListeners st2 = maxListeners st ∧ warnings st2 = warnings st
     ∧ warningEmitted st2 = warningEmitted st
     ∧ process_defined st2 = process_defined st
     ∧ constructor_name st2 = constructor_name st
     ∧ onceListeners st2 = onceListeners st
     ∧ next_wrapper st2 = next_wrapper st).
Proof.
  unfold after, push_listener, unshift_listener, ensure_events.
  by repeat case_match.
Qed.

(** [on] is [emitMaxListenersExceeded] after the registration, when the
    registration returns; it leaves the state of [||=] otherwise. *)
Lemma after_on event l st :
  after (on event l) st
  = match push_listener event l (ensure_events event st) with
    | (Normal _, st1) => emitMaxListenersExceeded event st1
    | (_, st1) => st1
    end.
Proof.
  unfold on. rewrite after_bind. unfold modify. rewrite after_bind.
  by destruct (push_listener _ _ _) as [[[]| |] ?].
Qed.

Lemma after_prepend event l st :
  after (prepend event l) st
  = match unshift_listener event l (ensure_events event st) with
    | (Normal _, st1) => emitMaxListenersExceeded event st1
    | (_, st1) => st1
    end.
Proof.
  unfold prepend. rewrite after_bind. unfold modify. rewrite after_bind.
  by destruct (unshift_listener _ _ _) as [[[]| |] ?].
Qed.

(** A property of the state that the registration and the diagnostic both
    keep is kept by [on] and [prepend]. *)
Lemma on_keeps (P : emitter → Prop) event l st :
  P (after (push_listener event l) (ensure_events event st)) →
  (∀ s, P s → P (emitMaxListenersExceeded event s)) →
  P (after (on event l) st).
Proof.
  intros H1 H2. rewrite after_on. unfold after in H1.
  destruct (push_listener _ _ _) as [[[]| |] ?]; simpl in *; auto.
Qed.

Lemma prepend_keeps (P : emitter → Prop) event l st :
  P (after (unshift_listener event l) (ensure_events event st)) →
  (∀ s, P s → P (emitMaxListenersExceeded event s)) →
  P (after (prepend event l) st).
Proof.
  intros H1 H2. rewrite after_prepend. unfold after in H1.
  destruct (unshift_listener _ _ _) as [[[]| |] ?]; simpl in *; auto.
Qed.

Lemma after_once event l st :
  after (once event l) st
  = after (on event (OnceListenerWrapper (next_wrapper st) event l))
      (after (createOnceWrapper event l) st).
Proof. unfold once. by rewrite after_bind. Qed.

Lemma after_prependOnce event l st :
  after (prependOnce event l) st
  = after (prepend event (OnceListenerWrapper (next_wrapper st) event l))
      (after (createOnceWrapper event l) st).
Proof. unfold prependOnce. by rewrite after_bind. Qed.

(** [removeAllListeners( event, listener )] is a sequence of [off]. *)
Lemma removeAllListeners_keeps (P : emitter → Prop) event l st :
  P st →
  (∀ ev x s, P s → P (after (off ev x) s)) →
  (∀ s ev, P s →
     P (set_onceListeners (delete ev (onceListeners s))
          (set_events (delete ev (events s)) s))) →
  (∀ s, P s → P (set_onceListeners ∅ (set_events ∅ s))) →
  P (after (removeAllListeners event l) st).
Proof.
  intros Hst Hoff Hdel Hclear. unfold removeAllListeners.
  destruct (truthy_event event) as [ev|]; [|by apply Hclear].
  destruct l as [l|]; [|by apply Hdel].
  rewrite after_bind. unfold query.
  destruct (rawListeners st ev) as [xs| |]; try done.
  clear Hdel Hclear. revert st Hst.
  induction xs as [|x xs IH]; intros st Hst; [done|].
  cbn [for_each]. rewrite after_bind.
  destruct (matches l x).
  - pose proof (Hoff ev l st Hst) as H. unfold after in H.
    destruct (off ev l st) as [[[]| |] s']; simpl in *; auto.
  - by apply IH.
Qed.

Lemma on_warned_once event l st :
  warned_once st → warned_once (after (on event l) st).
Proof.
  intros H. apply on_keeps; [|intros s; apply emitMaxListenersExceeded_warned_once].
  destruct (registration_fields event l st) as [(_ & Hw & Hf & _) _].
  revert H. by apply warned_once_same.
Qed.

Lemma prepend_warned_once event l st :
  warned_once st → warned_once (after (prepend event l) st).
Proof.
  intros H.
  apply prepend_keeps; [|intros s; apply emitMaxListenersExceeded_warned_once].
  destruct (registration_fields event l st) as [_ (_ & Hw & Hf & _)].
  revert H. by apply warned_once_same.
Qed.

Lemma off_warned_once event l st :
  warned_once st → warned_once (after (off event l) st).
Proof.
  destruct (off_fields event l st) as (H1 & H2 & _). by apply warned_once_same.
Qed.

Lemma removeAllListeners_warned_once event l st :
  warned_once st → warned_once (after (removeAllListeners event l) st).
Proof.
  intros H. apply removeAllListeners_keeps; try done.
  intros ev x s. apply off_warned_once.
Qed.

Lemma method_warned_once c st :
  warned_once st → warned_once (after (exec (λ _ _, ret false) c) st).
Proof.
  intros H. destruct c; simpl;
    auto using on_warned_once, prepend_warned_once, off_warned_once,
      removeAllListeners_warned_once.
  - rewrite after_once. by apply on_warned_once.
  - rewrite after_prependOnce. by apply prepend_warned_once.
Qed.

Lemma script_warned_once code fuel cs st :
  warned_once st → warned_once (script code fuel cs st).
Proof.
  apply (script_preserves code (λ _, True) warned_once).
  - intros f. by apply Forall_forall.
  - intros c s _. apply method_warned_once.
  - apply off_warned_once.
  - done.
  - done.
  - by apply Forall_forall.
Qed.

Lemma NoDup_event_filter_length (ws : list warning) event :
  NoDup (map warning_event ws) →
  length (List.filter (λ w, bool_decide (warning_event w = event)) ws) ≤ 1.
Proof.
  induction ws as [|w ws IH]; simpl; [lia|].
  intros [Hw Hws]%NoDup_cons. specialize (IH Hws).
  case_bool_decide as He; [|done]. simpl.
  assert (List.filter (λ w, bool_decide (warning_event w = event)) ws = []) as ->;
    [|simpl; lia].
  clear IH Hws. induction ws as [|w' ws IH]; simpl; [done|].
  apply not_elem_of_cons in Hw as [Hne Hw].
  rewrite bool_decide_eq_false_2 by congruence. by apply IH.
Qed.

(** C9. [emitMaxListenersExceeded] does nothing at all when the ceiling is
    0 or [Infinity], when the flag of the event is set, when the event has no
    entry, or when the number of entries does not exceed the ceiling.
    Whatever calls are made on a new emitter, by the caller and by the
    listeners, at most one diagnostic is emitted for an event name. *)
Theorem at_most_one_warning_per_event :
  (∀ event st,
     maxListeners st = Int 0 ∨ maxListeners st = Infinity
     ∨ event ∈ warningEmitted st
     ∨ events st !! event = None
     ∨ ¬ exceeds (length (entries st event)) (maxListeners st) →
     emitMaxListenersExceeded event st = st)
  ∧ (∀ code fuel cs dm cr p st0 event,
       new_emitter dm cr p = Some st0 →
       length (warnings_for event (script code fuel cs st0)) ≤ 1).
Proof.
  split.
  - intros event st H.
    destruct (emitMaxListenersExceeded_cases event st)
      as [->|(a & Hw & Ha & Hex & Hz & _)]; [done|].
    apply warned_false in Hw as [Hw _].
    destruct H as [H|[H|[H|[H|H]]]].
    + congruence.
    + rewrite H in Hex. done.
    + by destruct Hw.
    + congruence.
    + destruct H. unfold entries. by rewrite Ha.
  - intros code fuel cs dm cr p st0 event Hnew.
    apply NoDup_event_filter_length.
    apply script_warned_once.
    apply new_emitter_inv in Hnew as [_ ->]. split; simpl; [apply NoDup_nil_2|].
    intros e He. by apply elem_of_nil in He.
Qed.

Lemma at_most_one_warning_per_event_witness :
  emitMaxListenersExceeded "e" (setMaxListeners (Int 0) two_listeners)
    = setMaxListeners (Int 0) two_listeners
  ∧ length (warnings_for "e"
              (script code_passive 1 thirteen_registrations (fresh_emitter false)))
    ≤ 1.
Proof.
  destruct at_most_one_warning_per_event as [H1 H2]. split.
  - apply H1. by left.
  - apply (H2 code_passive 1 thirteen_registrations (Int 10) (Some false) true).
    reflexivity.
Defined.

(** ** The registry through the methods *)

Lemma well_formed_same st st' :
  events st' = events st → length (heap st') = length (heap st) →
  well_formed st → well_formed st'.
Proof. unfold well_formed. by intros -> ->. Qed.

Lemma well_formed_own st event a :
  well_formed st → events st !! event = Some a → ordinary event.
Proof. intros (_ & _ & H) Ha. by eapply H. Qed.

Lemma well_formed_inherited st event v :
  well_formed st → Object_prototype event = Some v → events st !! event = None.
Proof.
  intros Hwf Hv. destruct (events st !! event) as [a|] eqn:Ha; [|done].
  pose proof (well_formed_own _ _ _ Hwf Ha) as Ho. unfold ordinary in Ho.
  congruence.
Qed.

Lemma well_formed_assign_events event xs st :
  ordinary event → well_formed st → well_formed (assign_events event xs st).
Proof.
  intros Ho (Hb & Hi & Hn). split; [|split]; simpl.
  - intros e a. rewrite lookup_insert, length_app. simpl.
    case_decide; [intros [= <-]; lia|intros Hx%Hb; lia].
  - intros e1 e2 a. rewrite !lookup_insert.
    repeat case_decide; subst; try done.
    + intros [= <-] Hx%Hb. lia.
    + intros Hx%Hb [= <-]. lia.
    + apply Hi.
  - intros e a. rewrite lookup_insert. case_decide; [by subst|apply Hn].
Qed.

Lemma well_formed_delete event st :
  well_formed st → well_formed (set_events (delete event (events st)) st).
Proof.
  intros (Hb & Hi & Hn). split; [|split]; simpl.
  - intros e a [_ H]%lookup_delete_Some. by eapply Hb.
  - intros e1 e2 a [_ H1]%lookup_delete_Some [_ H2]%lookup_delete_Some.
    by eapply Hi.
  - intros e a [_ H]%lookup_delete_Some. by eapply Hn.
Qed.

Lemma well_formed_empty st : well_formed (set_onceListeners ∅ (set_events ∅ st)).
Proof. repeat split; simpl; intros *; by rewrite lookup_empty. Qed.

Lemma entries_assign_events event xs st e :
  well_formed st →
  entries (assign_events event xs st) e
  = if decide (e = event) then xs else entries st e.
Proof.
  intros [Hb _]. unfold entries, assign_events, array. simpl.
  case_decide as He.
  - subst. rewrite lookup_insert_eq. apply array_alloc.
  - rewrite lookup_insert_ne by done.
    destruct (events st !! e) as [a|] eqn:Ha; [|done].
    by rewrite lookup_app_l by (by eapply Hb).
Qed.

Lemma entries_delete event st e :
  entries (set_events (delete event (events st)) st) e
  = if decide (e = event) then [] else entries st e.
Proof.
  unfold entries. simpl. case_decide as He.
  - subst. by rewrite lookup_delete_eq.
  - by rewrite lookup_delete_ne.
Qed.

Lemma entries_ensure_events event st e :
  well_formed st → entries (ensure_events event st) e = entries st e.
Proof.
  intros Hwf. unfold ensure_events.
  destruct (events_at st event) as [|a|v] eqn:Hat; try done.
  apply events_at_Undefined in Hat as [Ha _].
  rewrite entries_assign_events by done. case_decide; [|done].
  subst. unfold entries. by rewrite Ha.
Qed.

Lemma well_formed_ensure_events event st :
  well_formed st → well_formed (ensure_events event st).
Proof.
  unfold ensure_events. destruct (events_at st event) eqn:Hat; try done.
  apply events_at_Undefined in Hat as [_ Ho].
  by apply well_formed_assign_events.
Qed.

Lemma ensure_events_other event st e :
  e ≠ event → events (ensure_events event st) !! e = events st !! e.
Proof.
  intros He. unfold ensure_events. destruct (events_at st event); try done.
  simpl. by rewrite lookup_insert_ne.
Qed.

(** Writing the array of [event] in place is seen by [event] only. *)
Lemma entries_store event a xs st e :
  well_formed st → events st !! event = Some a →
  entries (set_heap (<[a := xs]> (heap st)) st) e
  = if decide (e = event) then xs else entries st e.
Proof.
  intros (Hb & Hi & _) Ha. unfold entries, array. simpl. case_decide as He.
  - subst. rewrite Ha. by rewrite list_lookup_insert_eq by (by eapply Hb).
  - destruct (events st !! e) as [b|] eqn:Hbe; [|done].
    rewrite list_lookup_insert_ne; [done|].
    intros ->. apply He. by eapply Hi.
Qed.

Lemma emitMaxListenersExceeded_registry event st :
  events (emitMaxListenersExceeded event st) = events st
  ∧ heap (emitMaxListenersExceeded event st) = heap st
  ∧ onceListeners (emitMaxListenersExceeded event st) = onceListeners st
  ∧ next_wrapper (emitMaxListenersExceeded event st) = next_wrapper st.
Proof. unfold emitMaxListenersExceeded. by repeat case_match. Qed.

Lemma entries_emitMaxListenersExceeded event st e :
  entries (emitMaxListenersExceeded event st) e = entries st e.
Proof.
  destruct (emitMaxListenersExceeded_registry event st) as (He & Hh & _).
  unfold entries, array. by rewrite He, Hh.
Qed.

Lemma well_formed_emitMaxListenersExceeded event st :
  well_formed st → well_formed (emitMaxListenersExceeded event st).
Proof.
  destruct (emitMaxListenersExceeded_registry event st) as (He & Hh & _).
  apply well_formed_same; congruence.
Qed.

(** What a registration with [on] or [prepend] does to the registry: under
    a name that [Object.prototype] does not have it returns, with the
    listener at the end, or at the front, of the entries of the event;
    under the other names it throws and changes nothing. *)
Lemma registration_effect (front : bool) event l st :
  well_formed st →
  let m := if front then prepend event l else on event l in
  well_formed (after m st)
  ∧ onceListeners (after m st) = onceListeners st
  ∧ next_wrapper (after m st) = next_wrapper st
  ∧ ((ordinary event
      ∧ m st = (Normal tt, after m st)
      ∧ is_Some (events (after m st) !! event)
      ∧ (∀ e, e ≠ event → events (after m st) !! e = events st !! e)
      ∧ ∀ e, entries (after m st) e
             = if decide (e = event)
               then (if front then l :: entries st event
                     else entries st event ++ [l])
               else entries st e)
     ∨ (¬ ordinary event ∧ m st = (Thrown VTypeError, st))).
Proof.
  intros Hwf m.
  destruct (Object_prototype event) as [v|] eqn:Hv.
  - pose proof (well_formed_inherited _ _ _ Hwf Hv) as Ha.
    assert (m st = (Thrown VTypeError, st)) as E.
    { subst m. destruct front;
        [by apply prepend_inherited with v|by apply on_inherited with v]. }
    unfold after. rewrite E. simpl.
    split; [exact Hwf|]. split; [done|]. split; [done|].
    right. split; [|done]. unfold ordinary. congruence.
  - assert (ordinary event) as Ho by exact Hv.
    pose proof (well_formed_ensure_events event st Hwf) as Hwf1.
    destruct (ensure_events_is_Some event st (or_introl Ho)) as [a Ha].
    set (st1 := ensure_events event st) in *.
    set (xs := if front then l :: array st1 a else array st1 a ++ [l]).
    set (st2 := set_heap (<[a := xs]> (heap st1)) st1).
    assert (m st = (Normal tt, emitMaxListenersExceeded event st2)) as E.
    { subst m. destruct front; unfold prepend, on, bind, modify; fold st1.
      - by rewrite (unshift_listener_own _ _ _ _ Ha).
      - by rewrite (push_listener_own _ _ _ _ Ha). }
    assert (after m st = emitMaxListenersExceeded event st2) as Hafter
      by (unfold after; by rewrite E).
    rewrite Hafter.
    destruct (emitMaxListenersExceeded_registry event st2) as (He & Hh & Hol & Hn).
    assert (well_formed st2) as Hwf2.
    { revert Hwf1. apply well_formed_same; [done|]. simpl. apply length_insert. }
    split; [by apply well_formed_emitMaxListenersExceeded|].
    split; [rewrite Hol; subst st2 st1; simpl; unfold ensure_events;
            by destruct (events_at st event)|].
    split; [rewrite Hn; subst st2 st1; simpl; unfold ensure_events;
            by destruct (events_at st event)|].
    left. split; [done|]. split; [exact E|].
    split; [rewrite He; by exists a|].
    split.
    + intros e Hne. rewrite He. simpl. by apply ensure_events_other.
    + intros e. rewrite entries_emitMaxListenersExceeded.
      subst st2. rewrite (entries_store event a) by done.
      case_decide; [|by apply entries_ensure_events].
      subst xs.
      replace (array st1 a) with (entries st1 event)
        by (unfold entries; by rewrite Ha).
      subst st1. rewrite entries_ensure_events by done. by destruct front.
Qed.

Lemma on_effect event l st :
  well_formed st →
  well_formed (after (on event l) st)
  ∧ onceListeners (after (on event l) st) = onceListeners st
  ∧ next_wrapper (after (on event l) st) = next_wrapper st
  ∧ ((ordinary event
      ∧ on event l st = (Normal tt, after (on event l) st)
      ∧ is_Some (events (after (on event l) st) !! event)
      ∧ (∀ e, e ≠ event → events (after (on event l) st) !! e = events st !! e)
      ∧ ∀ e, entries (after (on event l) st) e
             = if decide (e = event) then entries st event ++ [l]
               else entries st e)
     ∨ (¬ ordinary event ∧ on event l st = (Thrown VTypeError, st))).
Proof. apply (registration_effect false). Qed.

Lemma prepend_effect event l st :
  well_formed st →
  well_formed (after (prepend event l) st)
  ∧ onceListeners (after (prepend event l) st) = onceListeners st
  ∧ next_wrapper (after (prepend event l) st) = next_wrapper st
  ∧ ((ordinary event
      ∧ prepend event l st = (Normal tt, after (prepend event l) st)
      ∧ is_Some (events (after (prepend event l) st) !! event)
      ∧ (∀ e, e ≠ event →
              events (after (prepend event l) st) !! e = events st !! e)
      ∧ ∀ e, entries (after (prepend event l) st) e
             = if decide (e = event) then l :: entries st event
               else entries st e)
     ∨ (¬ ordinary event ∧ prepend event l st = (Thrown VTypeError, st))).
Proof. apply (registration_effect true). Qed.

Lemma on_entries event l st e :
  well_formed st → ordinary event →
  entries (after (on event l) st) e
  = if decide (e = event) then entries st event ++ [l] else entries st e.
Proof.
  intros Hwf Ho.
  destruct (on_effect event l st Hwf) as (_ & _ & _ & [(_ & _ & _ & _ & H)|[H _]]);
    [apply H|done].
Qed.

Lemma prepend_entries event l st e :
  well_formed st → ordinary event →
  entries (after (prepend event l) st) e
  = if decide (e = event) then l :: entries st event else entries st e.
Proof.
  intros Hwf Ho.
  destruct (prepend_effect event l st Hwf)
    as (_ & _ & _ & [(_ & _ & _ & _ & H)|[H _]]); [apply H|done].
Qed.

Lemma on_well_formed event l st :
  well_formed st → well_formed (after (on event l) st).
Proof. intros Hwf. apply (on_effect event l st Hwf). Qed.

Lemma prepend_well_formed event l st :
  well_formed st → well_formed (after (prepend event l) st).
Proof. intros Hwf. apply (prepend_effect event l st Hwf). Qed.

Lemma on_unchanged event l st :
  well_formed st → ¬ ordinary event → after (on event l) st = st.
Proof.
  intros Hwf Hno.
  destruct (on_effect event l st Hwf) as (_ & _ & _ & [(H & _)|[_ H]]); [done|].
  unfold after. by rewrite H.
Qed.

Lemma prepend_unchanged event l st :
  well_formed st → ¬ ordinary event → after (prepend event l) st = st.
Proof.
  intros Hwf Hno.
  destruct (prepend_effect event l st Hwf) as (_ & _ & _ & [(H & _)|[_ H]]);
    [done|].
  unfold after. by rewrite H.
Qed.

Lemma createOnceWrapper_registry event l st :
  events (after (createOnceWrapper event l) st) = events st
  ∧ heap (after (createOnceWrapper event l) st) = heap st
  ∧ next_wrapper (after (createOnceWrapper event l) st) = S (next_wrapper st).
Proof. done. Qed.

Lemma createOnceWrapper_entries event l st e :
  entries (after (createOnceWrapper event l) st) e = entries st e.
Proof. done. Qed.

Lemma createOnceWrapper_well_formed event l st :
  well_formed st → well_formed (after (createOnceWrapper event l) st).
Proof. by apply well_formed_same. Qed.

Lemma createOnceWrapper_onceEntries event l st e :
  onceEntries (after (createOnceWrapper event l) st) e
  = if decide (e = event)
    then onceEntries st event ++ [OnceListenerWrapper (next_wrapper st) event l]
    else onceEntries st e.
Proof.
  unfold onceEntries at 1. simpl. case_decide as He.
  - subst. by rewrite lookup_insert_eq.
  - by rewrite lookup_insert_ne.
Qed.

Lemma off_array_well_formed a event l st :
  events st !! event = Some a →
  well_formed st → well_formed (off_array a event l st).
Proof.
  intros Ha Hwf. unfold off_array.
  set (kept := List.filter _ (array st a)).
  pose proof (well_formed_assign_events event kept st
                (well_formed_own _ _ _ Hwf Ha) Hwf) as H1.
  pose proof (well_formed_delete event _ H1) as H2.
  repeat case_bool_decide; done.
Qed.

Lemma off_well_formed event l st :
  well_formed st → well_formed (after (off event l) st).
Proof.
  intros Hwf. destruct (events st !! event) as [a|] eqn:Ha.
  - rewrite (after_off_own _ _ _ _ Ha). by apply off_array_well_formed.
  - by rewrite (after_off_absent _ _ _ Ha).
Qed.

Lemma off_entries_other event l st e :
  well_formed st → e ≠ event →
  entries (after (off event l) st) e = entries st e
  ∧ onceEntries (after (off event l) st) e = onceEntries st e
  ∧ events (after (off event l) st) !! e = events st !! e.
Proof.
  intros Hwf He. destruct (events st !! event) as [a|] eqn:Ha;
    [|by rewrite (after_off_absent _ _ _ Ha)].
  rewrite (after_off_own _ _ _ _ Ha). unfold off_array.
  set (kept := List.filter _ (array st a)).
  pose proof (entries_assign_events event kept st e Hwf) as H1.
  pose proof (entries_delete event (assign_events event kept st) e) as H2.
  rewrite decide_False in H1, H2 by done. rewrite H1 in H2.
  repeat case_bool_decide; unfold onceEntries; simpl;
    rewrite ?lookup_delete_ne, ?lookup_insert_ne by done; done.
Qed.

Lemma filter_filter_comm {A} (p q : A → bool) xs :
  List.filter p (List.filter q xs) = List.filter q (List.filter p xs).
Proof.
  induction xs as [|x xs IH]; simpl; [done|].
  destruct (q x) eqn:Hq, (p x) eqn:Hp; simpl; rewrite ?Hq, ?Hp, IH; done.
Qed.

(** What [off] does to the registry and the once-index. *)
Lemma off_effect event l st :
  well_formed st →
  well_formed (after (off event l) st)
  ∧ (∀ e, e ≠ event →
          entries (after (off event l) st) e = entries st e
          ∧ onceEntries (after (off event l) st) e = onceEntries st e
          ∧ events (after (off event l) st) !! e = events st !! e)
  ∧ ((∃ a, events st !! event = Some a
           ∧ off event l st = (Normal tt, after (off event l) st)
           ∧ entries (after (off event l) st) event
             = List.filter (λ x, negb (same_ref x (off_target st event l)))
                 (entries st event)
           ∧ onceEntries (after (off event l) st) event
             = List.filter (λ x, negb (same_ref x (off_target st event l)))
                 (onceEntries st event))
     ∨ (events st !! event = None ∧ after (off event l) st = st)).
Proof.
  intros Hwf. split; [by apply off_well_formed|].
  split; [intros e He; by apply off_entries_other|].
  destruct (events st !! event) as [a|] eqn:Ha.
  - left. exists a. split; [done|].
    split; [by rewrite (off_own _ _ _ _ Ha), (after_off_own _ _ _ _ Ha)|].
    rewrite (entries_off _ _ _ _ Ha), (onceEntries_off _ _ _ _ Ha).
    unfold entries. by rewrite Ha.
  - right. by rewrite (after_off_absent _ _ _ Ha).
Qed.

(** ** The once-index and the registry *)

Lemma rawListeners_Normal st event xs :
  well_formed st → rawListeners st event = Normal xs →
  ordinary event ∧ xs = entries st event.
Proof.
  intros Hwf. unfold rawListeners, entries.
  destruct (events_at st event) as [|a|v] eqn:Hat; try done.
  - apply events_at_Undefined in Hat as [-> Ho]. by intros [= <-].
  - apply events_at_ArrayRef in Hat. rewrite Hat. intros [= <-].
    split; [by eapply well_formed_own|done].
Qed.

Lemma well_formed_new dm cr p st0 :
  new_emitter dm cr p = Some st0 → well_formed st0.
Proof.
  intros [_ ->]%new_emitter_inv.
  repeat split; simpl; intros *; by rewrite lookup_empty.
Qed.

Section OnceIndex.

Variable R : list entry → list entry → Prop.
Variable prependOnce_allowed : Prop.

Hypothesis R_nil : R [] [].
Hypothesis R_snoc : ∀ w xs ys, R xs ys → R (xs ++ [w]) (ys ++ [w]).
Hypothesis R_filter :
  ∀ p xs ys, R xs ys → R (List.filter p xs) (List.filter p ys).
Hypothesis R_cons_snoc :
  prependOnce_allowed → ∀ w xs ys, R xs ys → R (w :: xs) (ys ++ [w]).

Local Abbreviation agrees := (once_index_agrees R).

Lemma on_agrees event l st :
  is_wrapper l = false → agrees st → agrees (after (on event l) st).
Proof.
  intros Hl [Hwf HR].
  destruct (on_effect event l st Hwf)
    as (Hwf' & Hol & _ & [(Ho & _ & _ & _ & Hent)|[Hno E]]).
  - split; [done|]. intros e He. unfold wrappers, onceEntries.
    rewrite Hent, Hol. case_decide; [subst|by apply HR].
    rewrite List.filter_app. simpl. rewrite Hl, app_nil_r. by apply HR.
  - unfold after. rewrite E. by split.
Qed.

Lemma prepend_agrees event l st :
  is_wrapper l = false → agrees st → agrees (after (prepend event l) st).
Proof.
  intros Hl [Hwf HR].
  destruct (prepend_effect event l st Hwf)
    as (Hwf' & Hol & _ & [(Ho & _ & _ & _ & Hent)|[Hno E]]).
  - split; [done|]. intros e He. unfold wrappers, onceEntries.
    rewrite Hent, Hol. case_decide; [subst|by apply HR].
    simpl. rewrite Hl. by apply HR.
  - unfold after. rewrite E. by split.
Qed.

Lemma once_agrees event l st : agrees st → agrees (after (once event l) st).
Proof.
  intros [Hwf HR]. rewrite after_once.
  set (w := OnceListenerWrapper (next_wrapper st) event l).
  set (st1 := after (createOnceWrapper event l) st).
  assert (well_formed st1) as Hwf1 by (by apply createOnceWrapper_well_formed).
  destruct (on_effect event w st1 Hwf1)
    as (Hwf' & Hol & _ & [(Ho & _ & _ & _ & Hent)|[Hno E]]).
  - split; [done|]. intros e He. unfold wrappers.
    rewrite Hent. unfold onceEntries. rewrite Hol. fold (onceEntries st1 e).
    subst st1. rewrite createOnceWrapper_onceEntries, !createOnceWrapper_entries.
    case_decide; [subst e|by apply HR].
    rewrite List.filter_app. simpl. apply R_snoc. by apply HR.
  - unfold after at 1. rewrite E. simpl. split; [done|].
    intros e He. unfold wrappers. subst st1.
    rewrite createOnceWrapper_onceEntries, createOnceWrapper_entries.
    rewrite decide_False by (by intros ->). by apply HR.
Qed.

Lemma prependOnce_agrees event l st :
  prependOnce_allowed → agrees st → agrees (after (prependOnce event l) st).
Proof.
  intros Hok [Hwf HR]. rewrite after_prependOnce.
  set (w := OnceListenerWrapper (next_wrapper st) event l).
  set (st1 := after (createOnceWrapper event l) st).
  assert (well_formed st1) as Hwf1 by (by apply createOnceWrapper_well_formed).
  destruct (prepend_effect event w st1 Hwf1)
    as (Hwf' & Hol & _ & [(Ho & _ & _ & _ & Hent)|[Hno E]]).
  - split; [done|]. intros e He. unfold wrappers.
    rewrite Hent. unfold onceEntries. rewrite Hol. fold (onceEntries st1 e).
    subst st1. rewrite createOnceWrapper_onceEntries, !createOnceWrapper_entries.
    case_decide; [subst e|by apply HR].
    simpl. apply R_cons_snoc; [done|]. by apply HR.
  - unfold after at 1. rewrite E. simpl. split; [done|].
    intros e He. unfold wrappers. subst st1.
    rewrite createOnceWrapper_onceEntries, createOnceWrapper_entries.
    rewrite decide_False by (by intros ->). by apply HR.
Qed.

Lemma off_agrees event l st : agrees st → agrees (after (off event l) st).
Proof.
  intros [Hwf HR].
  destruct (off_effect event l st Hwf)
    as (Hwf' & Hother & [(a & Ha & _ & He & Ho)|[_ E]]).
  - split; [done|]. intros e Hoe. unfold wrappers.
    destruct (decide (e = event)) as [->|Hne].
    + rewrite He, Ho, filter_filter_comm. apply R_filter. by apply HR.
    + destruct (Hother e Hne) as (-> & -> & _). by apply HR.
  - rewrite E. by split.
Qed.

Lemma removeAllListeners_agrees event l st :
  agrees st → agrees (after (removeAllListeners event l) st).
Proof.
  intros H. apply removeAllListeners_keeps; [exact H| | |].
  - intros ev x s. apply off_agrees.
  - intros s ev [Hwf HR]. split; [by apply well_formed_delete|].
    intros e He. unfold wrappers.
    change (entries (set_onceListeners (delete ev (onceListeners s))
                       (set_events (delete ev (events s)) s)) e)
      with (entries (set_events (delete ev (events s)) s) e).
    rewrite (entries_delete ev s e). unfold onceEntries. simpl.
    case_decide; [subst; by rewrite lookup_delete_eq|].
    rewrite lookup_delete_ne by done. by apply HR.
  - intros s _. split; [apply well_formed_empty|].
    intros e _. unfold wrappers, entries, onceEntries. simpl.
    by rewrite !lookup_empty.
Qed.

Local Abbreviation once_allowed := (once_allowed prependOnce_allowed).

Lemma method_agrees c st :
  once_allowed c → agrees st → agrees (after (exec (λ _ _, ret false) c) st).
Proof.
  intros [Hown Hc] H. destruct c; simpl in *;
    auto using on_agrees, prepend_agrees, once_agrees, prependOnce_agrees,
      off_agrees, removeAllListeners_agrees.
Qed.

Lemma script_agrees code fuel cs st :
  (∀ f, Forall once_allowed (body (code f))) → Forall once_allowed cs →
  agrees st → agrees (script code fuel cs st).
Proof.
  intros Hcode Hcs. apply (script_preserves code once_allowed agrees); try done.
  - apply method_agrees.
  - apply off_agrees.
Qed.

End OnceIndex.

Lemma filter_Permutation_bool {A} (p : A → bool) xs ys :
  xs ≡ₚ ys → List.filter p xs ≡ₚ List.filter p ys.
Proof.
  induction 1 as [|x xs ys _ IH|x y xs|xs ys zs _ IH1 _ IH2]; simpl.
  - done.
  - destruct (p x); by rewrite IH.
  - destruct (p x), (p y); try done. apply perm_swap.
  - by rewrite IH1.
Qed.

Lemma new_emitter_agrees R dm cr p st0 :
  R [] [] → new_emitter dm cr p = Some st0 → once_index_agrees R st0.
Proof.
  intros HR Hnew. split; [by eapply well_formed_new|].
  apply new_emitter_inv in Hnew as [_ ->].
  intros e _. unfold wrappers, entries, onceEntries. simpl.
  by rewrite !lookup_empty.
Qed.

Lemma once_allowed_True c : registers_own_functions c → once_allowed True c.
Proof. intros H. split; [done|by destruct c]. Qed.

(** On an emitter whose callers register functions of their own, the
    once-index of an ordinary event holds the wrappers of the event. *)
Lemma script_agrees_Permutation code fuel cs dm cr p st0 :
  new_emitter dm cr p = Some st0 →
  (∀ f, Forall registers_own_functions (body (code f))) →
  Forall registers_own_functions cs →
  once_index_agrees Permutation (script code fuel cs st0).
Proof.
  intros Hnew Hcode Hcs.
  apply (script_agrees Permutation True); try done.
  - intros w xs ys H. by rewrite H.
  - intros q xs ys H. by apply filter_Permutation_bool.
  - intros _ w xs ys H. rewrite H. apply Permutation_cons_append.
  - intros f. eapply Forall_impl; [apply Hcode|]. apply once_allowed_True.
  - eapply Forall_impl; [apply Hcs|]. apply once_allowed_True.
  - by apply new_emitter_agrees with dm cr p.
Qed.

(** ** Registration order and emission *)

Lemma register_entries event fs st :
  well_formed st → ordinary event →
  well_formed (register event fs st)
  ∧ entries (register event fs st) event = entries st event ++ map Listener fs
  ∧ calls (register event fs st) = calls st.
Proof.
  intros Hwf Ho. revert st Hwf. induction fs as [|f fs IH]; intros st Hwf; simpl.
  - by rewrite app_nil_r.
  - destruct (IH (after (on event (Listener f)) st) (on_well_formed _ _ _ Hwf))
      as (Hwf' & He & Hc).
    split; [done|]. unfold register in *. rewrite He, Hc. split.
    + rewrite on_entries by done. rewrite decide_True by done.
      by rewrite <- app_assoc.
    + apply on_quiet.
Qed.

Lemma new_emitter_well_formed dm cr p st0 :
  new_emitter dm cr p = Some st0 →
  well_formed st0 ∧ calls st0 = [] ∧ (∀ event, events st0 !! event = None)
  ∧ ∀ event, entries st0 event = [].
Proof.
  intros Hnew. split; [by eapply well_formed_new|].
  apply new_emitter_inv in Hnew as [_ ->].
  split; [done|]. split; intros event; [apply lookup_empty|].
  unfold entries. simpl. by rewrite lookup_empty.
Qed.

(** C1, on the code.  [events] is an object literal: under a name of
    [Object.prototype] ([toString], [constructor], ...) that no listener is
    registered for, [this.events[event]] is the inherited value, so [emit]
    passes its guard and throws a [TypeError] where it should return
    [false], [on] throws where it should register, and [listenerCount]
    returns the [length] of the inherited value.  Under every other name
    the claim holds: [emit] returns [false] and leaves the state as it is
    when the event has no entry; when it has entries [emit] never returns
    [false], and over listeners that return (they may register with [on]
    and [once] and remove) it returns [true] after having called every
    entry once, in the order of the sequence, with the arguments of the
    emission; after [on] calls on a new emitter the sequence is the
    registrations in order, so the listeners are counted and called in
    registration order. *)
Theorem emit_calls_entries_in_order code fuel event args :
  (∀ dm cr p st0 v l,
     new_emitter dm cr p = Some st0 →
     Object_prototype event = Some v →
     emit code (S fuel) event args st0 = (Thrown VTypeError, st0)
     ∧ on event l st0 = (Thrown VTypeError, st0)
     ∧ listenerCount st0 event None = Normal (inherited_length v))
  ∧ (∀ st, ordinary event → events st !! event = None →
       emit code (S fuel) event args st = (Normal false, st))
  ∧ (∀ st a, events st !! event = Some a →
       (emit code (S fuel) event args st).1 ≠ Normal false
       ∧ ((∀ x, x ∈ array st a → quiet_entry code x) →
          ∃ st', emit code (S fuel) event args st = (Normal true, st')
            ∧ calls st' = calls st ++ map (λ x, (original x, args)) (array st a)))
  ∧ (∀ dm cr p st0 fs,
       new_emitter dm cr p = Some st0 →
       ordinary event →
       fs ≠ [] →
       (∀ f, f ∈ fs → quiet_function (code f)) →
       listenerCount (register event fs st0) event None = Normal (Some (length fs))
       ∧ ∃ st', emit code (S fuel) event args (register event fs st0)
                = (Normal true, st')
           ∧ calls st' = map (λ f, (f, args)) fs).
Proof.
  assert (∀ st a, events st !! event = Some a →
            (∀ x, x ∈ array st a → quiet_entry code x) →
            ∃ st', emit code (S fuel) event args st = (Normal true, st')
              ∧ calls st' = calls st ++ map (λ x, (original x, args)) (array st a))
    as Hwalk.
  { intros st a Ha Hp.
    destruct (emit_body_snapshot code (emit code fuel) event args st a
                (array st a) Ha eq_refl Hp) as (st' & E & Hc & _).
    exists st'. simpl. by rewrite E. }
  split; [|split; [|split]].
  - intros dm cr p st0 v l Hnew Hv.
    destruct (new_emitter_well_formed _ _ _ _ Hnew) as (_ & _ & He0 & _).
    split; [by apply emit_inherited with v|].
    split; [by apply on_inherited with v|].
    unfold listenerCount. by rewrite (events_at_inherited _ _ _ (He0 event) Hv).
  - intros st Ho H. by apply emit_absent.
  - intros st a Ha. split; [|by apply Hwalk].
    rewrite (emit_own _ _ _ _ _ _ Ha). unfold bind.
    by destruct (forEach _ _ _) as [[[]| |] ?].
  - intros dm cr p st0 fs Hnew Ho Hfs Hp.
    destruct (new_emitter_well_formed _ _ _ _ Hnew) as (Hwf & Hc0 & _ & He0).
    destruct (register_entries event fs st0 Hwf Ho) as (_ & He & Hc).
    rewrite He0 in He. simpl in He.
    split; [by rewrite listenerCount_entries, He, length_map by (by left)|].
    unfold entries in He.
    destruct (events (register event fs st0) !! event) as [a|] eqn:Ha;
      [|by destruct fs].
    destruct (Hwalk _ a Ha) as (st' & E & Hcalls).
    + rewrite He. intros x (f & -> & Hf)%list_elem_of_fmap.
      by apply Hp.
    + exists st'. split; [done|].
      rewrite Hcalls, Hc, Hc0, He. simpl.
      rewrite <- list_fmap_compose. done.
Qed.

Lemma emit_calls_entries_in_order_witness :
  (emit code_passive 1 "toString" [VString "v"] (fresh_emitter false)
     = (Thrown VTypeError, fresh_emitter false)
   ∧ on "toString" (Listener 0) (fresh_emitter false)
     = (Thrown VTypeError, fresh_emitter false)
   ∧ listenerCount (fresh_emitter false) "hasOwnProperty" None = Normal (Some 1))
  ∧ emit code_passive 1 "e" [VString "v"] (fresh_emitter false)
    = (Normal false, fresh_emitter false)
  ∧ (∃ st', emit code_passive 1 "e" [VString "v"] two_listeners = (Normal true, st')
       ∧ calls st' = [(0, [VString "v"]); (1, [VString "v"])])
  ∧ listenerCount (register "e" [0; 1] (fresh_emitter false)) "e" None
    = Normal (Some 2)
  ∧ ∃ st', emit code_passive 1 "e" [VString "v"]
             (register "e" [0; 1] (fresh_emitter false)) = (Normal true, st')
      ∧ calls st' = [(0, [VString "v"]); (1, [VString "v"])].
Proof.
  destruct (emit_calls_entries_in_order code_passive 0 "toString" [VString "v"])
    as (B & _).
  destruct (emit_calls_entries_in_order code_passive 0 "hasOwnProperty"
              [VString "v"]) as (B' & _).
  destruct (emit_calls_entries_in_order code_passive 0 "e" [VString "v"])
    as (_ & H1 & H2 & H3).
  destruct (B (Int 10) (Some false) true (fresh_emitter false) (Method 0)
              (Listener 0) eq_refl eq_refl) as (B1 & B2 & _).
  destruct (B' (Int 10) (Some false) true (fresh_emitter false) (Method 1)
              (Listener 0) eq_refl eq_refl) as (_ & _ & B3).
  split; [split; [exact B1|split; [exact B2|exact B3]]|].
  split; [apply H1; reflexivity|].
  destruct (H2 two_listeners 0 eq_refl) as [_ H2'].
  split.
  { apply H2'. intros x Hx.
    change (array two_listeners 0) with [Listener 0; Listener 1] in Hx.
    apply elem_of_two in Hx as [->| ->]; reflexivity. }
  apply (H3 (Int 10) (Some false) true (fresh_emitter false) [0; 1]).
  - reflexivity.
  - reflexivity.
  - discriminate.
  - intros f _. reflexivity.
Defined.

(** ** The embedding on the scenarios of the test suite *)

Example test_removes_all_listeners_for_event_and_listener :
  listenerCount
    (after (removeAllListeners (Some "event") (Some (Listener 1)))
       test_removeAllListeners)
    "event" None = Normal (Some 1)
  ∧ listenerCount
      (after (removeAllListeners (Some "event") (Some (Listener 1)))
         test_removeAllListeners)
      "event2" None = Normal (Some 2).
Proof. vm_compute. done. Qed.

Example test_removes_all_listeners_for_event :
  listenerCount
    (after (removeAllListeners (Some "event") None) test_removeAllListeners)
    "event" None = Normal (Some 0)
  ∧ listenerCount
      (after (removeAllListeners (Some "event") None) test_removeAllListeners)
      "event2" None = Normal (Some 2).
Proof. vm_compute. done. Qed.

Example test_listener_count_for_a_callback :
  listenerCount test_listenerCount "event" (Some (Listener 0)) = Normal (Some 2)
  ∧ listenerCount test_listenerCount "event" (Some (Listener 1)) = Normal (Some 3)
  ∧ listenerCount test_listenerCount_after_off "event" (Some (Listener 0))
    = Normal (Some 0)
  ∧ listenerCount test_listenerCount_after_off "event" (Some (Listener 1))
    = Normal (Some 2).
Proof. vm_compute. done. Qed.

Example test_listeners_returns_the_originals :
  listeners on_then_once "e" = Normal [Listener 0; Listener 0]
  ∧ rawListeners on_then_once "e"
    = Normal [Listener 0; OnceListenerWrapper 0 "e" (Listener 0)].
Proof. vm_compute. done. Qed.

Example test_prependOnce_order :
  calls
    (after (emit code_passive 1 "event" [VString "Hello, again!"])
       (after (emit code_passive 1 "event" [VString "Hello, World!"])
          (after (prependOnceListener "event" (Listener 1))
             (after (once "event" (Listener 0)) (fresh_emitter false)))))
  = [(1, [VString "Hello, World!"]); (0, [VString "Hello, World!"])].
Proof. vm_compute. done. Qed.

Example test_process_warning :
  warnings (test_warning true)
  = [Warning ProcessEmitWarning "MaxListenersExceededWarning" 2 "event"
       "EventEmitter" (Int 1)].
Proof. vm_compute. done. Qed.

Example test_console_warning :
  warnings (test_warning false)
  = [Warning ConsoleWarn "MaxListenersExceededWarning" 2 "event"
       "EventEmitter" (Int 1)].
Proof. vm_compute. done. Qed.

Example test_negative_default_is_a_RangeError :
  new_emitter (Int (-100)) None true = None.
Proof. reflexivity. Qed.

Example test_capture_of_async_listener :
  calls
    (settle code_async_thrower 1
       (after (emit code_async_thrower 1 "erroredEvent" [VString "Hello, World!"])
          (after (on "erroredEvent" (Listener 0))
             (after (on "error" (Listener 2)) (fresh_emitter true)))))
  = [(0, [VString "Hello, World!"]); (2, [VError "Test error"])].
Proof. vm_compute. done. Qed.

(** The values [events] inherits, on a new emitter. *)
Example inherited_names_on_a_new_emitter :
  listenerCount (fresh_emitter false) "hasOwnProperty" None = Normal (Some 1)
  ∧ listenerCount (fresh_emitter false) "__proto__" None = Normal None
  ∧ listenerCount (fresh_emitter false) "toString" (Some (Listener 0))
    = Thrown VTypeError
  ∧ rawListeners (fresh_emitter false) "toString" = Thrown VTypeError
  ∧ listeners (fresh_emitter false) "valueOf" = Thrown VTypeError
  ∧ (off "constructor" (Listener 0) (fresh_emitter false)).1 = Thrown VTypeError
  ∧ (removeAllListeners (Some "toString") (Some (Listener 0)) (fresh_emitter false)).1
    = Thrown VTypeError
  ∧ (removeAllListeners (Some "toString") None (fresh_emitter false)).1 = Normal tt.
Proof. vm_compute. done. Qed.

(** ** States in use *)

Lemma script_app code fuel cs1 cs2 st :
  script code fuel (cs1 ++ cs2) st = script code fuel cs2 (script code fuel cs1 st).
Proof. revert st. induction cs1 as [|c cs1 IH]; intros st; simpl; [done|apply IH]. Qed.

Lemma reachable_in_use st : reachable st → in_use st.
Proof.
  intros (code & fuel & cs & dm & cr & p & st0 & Hnew & _ & _ & ->).
  by exists code, fuel, cs, dm, cr, p, st0.
Qed.

Lemma in_use_new dm cr p st0 : new_emitter dm cr p = Some st0 → in_use st0.
Proof. intros H. by exists code_passive, 0, [], dm, cr, p, st0. Qed.

Lemma reachable_new dm cr p st0 : new_emitter dm cr p = Some st0 → reachable st0.
Proof.
  intros H. exists code_passive, 0, [], dm, cr, p, st0.
  split; [done|]. split; [intros f; constructor|]. split; [constructor|done].
Qed.

Lemma method_well_formed c st :
  well_formed st → well_formed (after (exec (λ _ _, ret false) c) st).
Proof.
  intros Hwf. destruct c; simpl;
    auto using on_well_formed, prepend_well_formed, off_well_formed.
  - rewrite after_once. by apply on_well_formed, createOnceWrapper_well_formed.
  - rewrite after_prependOnce.
    by apply prepend_well_formed, createOnceWrapper_well_formed.
  - apply removeAllListeners_keeps; auto using off_well_formed, well_formed_empty.
    intros s ev Hs. by apply well_formed_delete.
Qed.

Lemma in_use_well_formed st : in_use st → well_formed st.
Proof.
  intros (code & fuel & cs & dm & cr & p & st0 & Hnew & ->).
  apply (script_preserves code (λ _, True) well_formed).
  - intros f. by apply Forall_forall.
  - intros c s _. apply method_well_formed.
  - apply off_well_formed.
  - intros c s. by apply well_formed_same.
  - intros r s. by apply well_formed_same.
  - by apply Forall_forall.
  - by eapply well_formed_new.
Qed.

Lemma reachable_well_formed st : reachable st → well_formed st.
Proof. intros H. by apply in_use_well_formed, reachable_in_use. Qed.

Lemma reachable_agrees st : reachable st → once_index_agrees Permutation st.
Proof.
  intros (code & fuel & cs & dm & cr & p & st0 & Hnew & Hcode & Hcs & ->).
  by apply script_agrees_Permutation with dm cr p.
Qed.

(** A call that is not an [emit] takes a state in use to a state in use. *)
Lemma in_use_method st c :
  (∀ event args, c ≠ CallEmit event args) →
  in_use st → in_use (after (exec (λ _ _, ret false) c) st).
Proof.
  intros Hc (code & fuel & cs & dm & cr & p & st0 & Hnew & ->).
  exists code, fuel, (cs ++ [c]), dm, cr, p, st0.
  split; [done|]. rewrite script_app. simpl.
  destruct c; try done. by destruct (Hc event args).
Qed.

Lemma reachable_method st c :
  (∀ event args, c ≠ CallEmit event args) →
  registers_own_functions c →
  reachable st → reachable (after (exec (λ _ _, ret false) c) st).
Proof.
  intros Hc Hown (code & fuel & cs & dm & cr & p & st0 & Hnew & Hcode & Hcs & ->).
  exists code, fuel, (cs ++ [c]), dm, cr, p, st0.
  split; [done|]. split; [done|].
  split; [apply Forall_app; split; [done|by constructor]|].
  rewrite script_app. simpl.
  destruct c; try done. by destruct (Hc event args).
Qed.

Lemma reachable_on st event f :
  reachable st → reachable (after (on event (Listener f)) st).
Proof. by apply (reachable_method st (CallOn event (Listener f))). Qed.

Lemma reachable_once st event f :
  reachable st → reachable (after (once event (Listener f)) st).
Proof. by apply (reachable_method st (CallOnce event (Listener f))). Qed.

Lemma reachable_off st event l :
  reachable st → reachable (after (off event l) st).
Proof. by apply (reachable_method st (CallOff event l)). Qed.

Lemma reachable_setMaxListeners st n : reachable st → reachable (setMaxListeners n st).
Proof. by apply (reachable_method st (CallSetMaxListeners n)). Qed.

Lemma reachable_fresh_emitter c : reachable (fresh_emitter c).
Proof. by apply (reachable_new (Int 10) (Some c) true). Qed.

Lemma reachable_two_listeners : reachable two_listeners.
Proof. apply reachable_on, reachable_on, reachable_fresh_emitter. Qed.

Lemma reachable_on_then_once : reachable on_then_once.
Proof. apply reachable_once, reachable_on, reachable_fresh_emitter. Qed.

Lemma reachable_once_and_once_again : reachable once_and_once_again.
Proof. apply reachable_once, reachable_once, reachable_fresh_emitter. Qed.

(** ** The once-index is in the order of creation *)

Lemma StronglySorted_filter {A} (R : A → A → Prop) (p : A → bool) xs :
  StronglySorted R xs → StronglySorted R (List.filter p xs).
Proof.
  induction 1 as [|x xs Hs IH Hx]; simpl; [constructor|].
  destruct (p x); [|done]. constructor; [done|].
  apply Forall_forall. intros y [Hy _]%list_elem_of_In%List.filter_In.
  rewrite Forall_forall in Hx. by apply Hx, list_elem_of_In.
Qed.

Lemma StronglySorted_snoc {A} (R : A → A → Prop) xs y :
  StronglySorted R xs → Forall (λ x, R x y) xs → StronglySorted R (xs ++ [y]).
Proof.
  induction 1 as [|x xs Hs IH Hx]; intros Hy; simpl.
  - repeat constructor.
  - apply Forall_cons in Hy as [Hxy Hy]. constructor; [by apply IH|].
    apply Forall_app. split; [done|by constructor].
Qed.

Lemma Forall_filter_bool {A} (P : A → Prop) (p : A → bool) xs :
  Forall P xs → Forall P (List.filter p xs).
Proof.
  induction 1 as [|x xs Hx _ IH]; simpl; [done|].
  destruct (p x); [by constructor|done].
Qed.

Lemma index_in_creation_order_same st st' :
  onceListeners st' = onceListeners st → next_wrapper st' = next_wrapper st →
  index_in_creation_order st → index_in_creation_order st'.
Proof. intros Ho Hn H e. unfold onceEntries. rewrite Ho, Hn. apply H. Qed.

Lemma createOnceWrapper_creation_order event l st :
  index_in_creation_order st →
  index_in_creation_order (after (createOnceWrapper event l) st).
Proof.
  intros H e. rewrite createOnceWrapper_onceEntries.
  destruct (H e) as [Hs Hb]. destruct (H event) as [Hs' Hb']. simpl.
  case_decide; [subst e|].
  - split.
    + apply StronglySorted_snoc; [done|].
      eapply Forall_impl; [exact Hb|]. by intros x [_ Hx].
    + apply Forall_app. split; [|repeat constructor; simpl; lia].
      eapply Forall_impl; [exact Hb|]. intros x [Hw Hx]. split; [done|lia].
  - split; [done|].
    eapply Forall_impl; [exact Hb|]. intros x [Hw Hx]. split; [done|lia].
Qed.

Lemma off_creation_order event l st :
  well_formed st → index_in_creation_order st →
  index_in_creation_order (after (off event l) st).
Proof.
  intros Hwf H e. destruct (off_fields event l st) as (_ & _ & _ & -> & _).
  destruct (off_effect event l st Hwf)
    as (_ & Hother & [(a & Ha & _ & _ & Ho)|[_ E]]).
  - destruct (decide (e = event)) as [->|Hne].
    + rewrite Ho. destruct (H event) as [Hs Hb].
      split; [by apply StronglySorted_filter|by apply Forall_filter_bool].
    + destruct (Hother e Hne) as (_ & -> & _). apply H.
  - rewrite E. apply H.
Qed.

Lemma method_creation_order c st :
  well_formed st ∧ index_in_creation_order st →
  well_formed (after (exec (λ _ _, ret false) c) st)
  ∧ index_in_creation_order (after (exec (λ _ _, ret false) c) st).
Proof.
  intros [Hwf H]. split; [by apply method_well_formed|].
  destruct c as [event l|event l|event l|event l|event l|event l|n|event args|v];
    simpl; try done.
  - destruct (on_effect event l st Hwf) as (_ & Ho & Hn & _).
    revert H. by apply index_in_creation_order_same.
  - destruct (prepend_effect event l st Hwf) as (_ & Ho & Hn & _).
    revert H. by apply index_in_creation_order_same.
  - rewrite after_once.
    pose proof (createOnceWrapper_creation_order event l st H) as H1.
    destruct (on_effect event (OnceListenerWrapper (next_wrapper st) event l) _
                (createOnceWrapper_well_formed event l st Hwf))
      as (_ & Ho & Hn & _).
    revert H1. by apply index_in_creation_order_same.
  - rewrite after_prependOnce.
    pose proof (createOnceWrapper_creation_order event l st H) as H1.
    destruct (prepend_effect event (OnceListenerWrapper (next_wrapper st) event l) _
                (createOnceWrapper_well_formed event l st Hwf))
      as (_ & Ho & Hn & _).
    revert H1. by apply index_in_creation_order_same.
  - by apply off_creation_order.
  - apply (removeAllListeners_keeps
             (λ s, well_formed s ∧ index_in_creation_order s)); [done| | |].
    + intros ev x s [Hs1 Hs2].
      split; [by apply off_well_formed|by apply off_creation_order].
    + intros s ev [Hs1 Hs2]. split; [by apply well_formed_delete|].
      intros e. unfold onceEntries. simpl.
      destruct (decide (e = ev)) as [->|Hne].
      * rewrite lookup_delete_eq. simpl. split; constructor.
      * rewrite lookup_delete_ne by done. apply Hs2.
    + intros s _. split; [apply well_formed_empty|].
      intros e. unfold onceEntries. simpl. rewrite lookup_empty. simpl.
      split; constructor.
Qed.

Lemma in_use_creation_order st : in_use st → index_in_creation_order st.
Proof.
  intros (code & fuel & cs & dm & cr & p & st0 & Hnew & ->).
  apply (script_preserves code (λ _, True)
           (λ s, well_formed s ∧ index_in_creation_order s)).
  - intros f. by apply Forall_forall.
  - intros c s _. apply method_creation_order.
  - intros event l s [H1 H2].
    split; [by apply off_well_formed|by apply off_creation_order].
  - intros c s [H1 H2]. split; [revert H1; by apply well_formed_same|done].
  - intros r s [H1 H2]. split; [revert H1; by apply well_formed_same|done].
  - by apply Forall_forall.
  - split; [by eapply well_formed_new|].
    apply new_emitter_inv in Hnew as [_ ->].
    intros e. unfold onceEntries. simpl. rewrite lookup_empty. simpl.
    split; constructor.
Qed.

(** In a list in the order of creation, the wrapper of [l] created last is
    the last wrapper of [l]. *)
Lemma last_filter_sorted (p : entry → bool) ws w :
  StronglySorted (λ x y, allocation x < allocation y) ws →
  w ∈ ws → p w = true →
  (∀ w', w' ∈ ws → p w' = true → allocation w' ≤ allocation w) →
  last (List.filter p ws) = Some w.
Proof.
  intros Hs Hw Hp Hmax.
  apply list_elem_of_split in Hw as (ws1 & ws2 & ->).
  apply last_filter_latest; [done|].
  apply Forall_forall. intros x Hx.
  destruct (p x) eqn:Hpx; [|done].
  assert (allocation x ≤ allocation w) as Hle.
  { apply Hmax; [|done]. apply elem_of_app. right. by right. }
  assert (allocation w < allocation x) as Hlt.
  { clear Hmax Hle. induction ws1 as [|y ws1 IH]; simpl in Hs.
    - apply StronglySorted_inv in Hs as [_ Hall].
      rewrite Forall_forall in Hall. by apply Hall.
    - apply StronglySorted_inv in Hs as [Hs _]. by apply IH. }
  lia.
Qed.

(** C7. On an emitter in use, for an event with entries: the once-index of
    the event is in the order in which [createOnceWrapper] pushed the
    wrappers (their allocation numbers increase); the target
    [off( event, L )] removes is, among the wrappers of [L] in it, the one
    created last, which is the last one of the list; it is [L] itself only
    when no wrapper in the list wraps [L].  Right after [once( event, L )]
    the target is the wrapper just created.  [off] returns, and the target
    is what is filtered out of both [events[event]] and the once-index. *)
Theorem off_targets_latest_once_wrapper st event l a :
  in_use st →
  events st !! event = Some a →
  StronglySorted (λ x y, allocation x < allocation y) (onceEntries st event)
  ∧ (∀ w, w ∈ onceEntries st event →
       wraps l w = true →
       (∀ w', w' ∈ onceEntries st event → wraps l w' = true →
              allocation w' ≤ allocation w) →
       off_target st event l = w)
  ∧ (∀ ws1 w ws2,
       onceEntries st event = ws1 ++ w :: ws2 →
       wraps l w = true →
       Forall (λ x, wraps l x = false) ws2 →
       off_target st event l = w)
  ∧ (Forall (λ x, wraps l x = false) (onceEntries st event) →
     off_target st event l = l)
  ∧ off_target (after (once event l) st) event l
    = OnceListenerWrapper (next_wrapper st) event l
  ∧ off event l st = (Normal tt, after (off event l) st)
  ∧ rawListeners (after (off event l) st) event
    = Normal (List.filter (λ x, negb (same_ref x (off_target st event l)))
                (array st a))
  ∧ onceEntries (after (off event l) st) event
    = List.filter (λ x, negb (same_ref x (off_target st event l)))
        (onceEntries st event).
Proof.
  intros Huse Ha.
  pose proof (in_use_well_formed st Huse) as Hwf.
  destruct (in_use_creation_order st Huse event) as [Hsorted _].
  split; [exact Hsorted|].
  split; [|split; [|split; [|split; [|split; [|split]]]]].
  - intros w Hw Hwl Hmax. unfold off_target.
    by rewrite (last_filter_sorted _ _ w Hsorted Hw Hwl Hmax).
  - intros ws1 w ws2 Hws Hw Hws2. unfold off_target.
    by rewrite Hws, (last_filter_latest _ _ _ _ Hw Hws2).
  - intros Hnone. unfold off_target. by rewrite (filter_none _ _ Hnone).
  - unfold off_target. rewrite after_once.
    assert (onceEntries
              (after (on event (OnceListenerWrapper (next_wrapper st) event l))
                 (after (createOnceWrapper event l) st)) event
            = onceEntries st event ++ [OnceListenerWrapper (next_wrapper st) event l])
      as ->.
    { destruct (on_effect event (OnceListenerWrapper (next_wrapper st) event l) _
                  (createOnceWrapper_well_formed event l st Hwf))
        as (_ & Ho & _).
      unfold onceEntries at 1. rewrite Ho.
      fold (onceEntries (after (createOnceWrapper event l) st) event).
      rewrite createOnceWrapper_onceEntries. by rewrite decide_True. }
    rewrite (last_filter_latest _ _ _ []); [done| |constructor].
    unfold wraps. simpl. destruct l; simpl; by apply bool_decide_eq_true_2.
  - apply off_returns. right. by exists a.
  - rewrite rawListeners_entries
      by (left; by apply (well_formed_own st event a Hwf)).
    by rewrite (entries_off _ _ _ _ Ha).
  - by apply onceEntries_off with a.
Qed.

Lemma off_targets_latest_once_wrapper_witness :
  onceEntries once_and_once_again "e"
    = [OnceListenerWrapper 0 "e" (Listener 0); OnceListenerWrapper 1 "e" (Listener 0)]
  ∧ off_target once_and_once_again "e" (Listener 0)
    = OnceListenerWrapper 1 "e" (Listener 0)
  ∧ rawListeners (after (off "e" (Listener 0)) once_and_once_again) "e"
    = Normal [OnceListenerWrapper 0 "e" (Listener 0)]
  ∧ onceEntries (after (off "e" (Listener 0)) once_and_once_again) "e"
    = [OnceListenerWrapper 0 "e" (Listener 0)].
Proof.
  destruct (off_targets_latest_once_wrapper once_and_once_again "e" (Listener 0) 0
              (reachable_in_use _ reachable_once_and_once_again) eq_refl)
    as (_ & H2 & _ & _ & _ & _ & H7 & H8).
  assert (onceEntries once_and_once_again "e"
          = [OnceListenerWrapper 0 "e" (Listener 0);
             OnceListenerWrapper 1 "e" (Listener 0)]) as Hidx
    by (vm_compute; reflexivity).
  split; [exact Hidx|]. split.
  - apply H2.
    + rewrite Hidx. right. left.
    + reflexivity.
    + intros w' Hw' _. rewrite Hidx in Hw'.
      apply elem_of_two in Hw' as [->| ->]; simpl; lia.
  - split; [rewrite H7|rewrite H8]; vm_compute; reflexivity.
Defined.

(** The example of the documentation of [off]: after [on] and [once] of
    the same function, [off] removes the once registration. *)
Example off_after_on_and_once :
  rawListeners on_then_once "e"
    = Normal [Listener 0; OnceListenerWrapper 0 "e" (Listener 0)]
  ∧ off_target on_then_once "e" (Listener 0) = OnceListenerWrapper 0 "e" (Listener 0)
  ∧ rawListeners (after (off "e" (Listener 0)) on_then_once) "e"
    = Normal [Listener 0]
  ∧ onceEntries (after (off "e" (Listener 0)) on_then_once) "e" = [].
Proof. vm_compute. done. Qed.

(** C10. [removeAllListeners( '' )] and [removeAllListeners( '', listener )]
    do what [removeAllListeners()] does: they return, [events] and the
    once-index are empty, so no event name is left and, under every name
    that [Object.prototype] does not have, no listener. *)
Theorem removeAllListeners_empty_event_clears_all listener st :
  removeAllListeners (Some "") listener st = removeAllListeners None None st
  ∧ (removeAllListeners (Some "") listener st).1 = Normal tt
  ∧ events (after (removeAllListeners (Some "") listener) st) = ∅
  ∧ onceListeners (after (removeAllListeners (Some "") listener) st) = ∅
  ∧ eventNames (after (removeAllListeners (Some "") listener) st) = ∅
  ∧ ∀ event, ordinary event →
      rawListeners (after (removeAllListeners (Some "") listener) st) event
        = Normal []
      ∧ listenerCount (after (removeAllListeners (Some "") listener) st) event None
        = Normal (Some 0).
Proof.
  split; [done|]. split; [done|]. split; [done|]. split; [done|].
  split; [apply dom_empty_L|].
  intros event Ho.
  rewrite rawListeners_entries, listenerCount_entries by (by left).
  unfold entries. simpl. by rewrite lookup_empty.
Qed.

Lemma removeAllListeners_empty_event_clears_all_witness :
  rawListeners with_empty_event_name "" = Normal [Listener 2]
  ∧ rawListeners with_empty_event_name "e" = Normal [Listener 0; Listener 1]
  ∧ rawListeners
      (after (removeAllListeners (Some "") None) with_empty_event_name) "e"
    = Normal []
  ∧ listenerCount
      (after (removeAllListeners (Some "") (Some (Listener 2)))
         with_empty_event_name) "e" None
    = Normal (Some 0).
Proof.
  split; [vm_compute; reflexivity|]. split; [vm_compute; reflexivity|].
  destruct (removeAllListeners_empty_event_clears_all None with_empty_event_name)
    as (_ & _ & _ & _ & _ & H).
  destruct (removeAllListeners_empty_event_clears_all (Some (Listener 2))
              with_empty_event_name) as (_ & _ & _ & _ & _ & H').
  split; [apply (H "e"); reflexivity|apply (H' "e"); reflexivity].
Defined.

(** * Further properties of the methods *)

(** ** The constructor *)

(** X1.  The constructor throws exactly when the default ceiling it reads is
    negative.  Otherwise the emitter has that ceiling, [captureRejections]
    is [false] unless the option says otherwise, and [eventNames()] is
    empty; under a name that [Object.prototype] does not have, no listener
    is counted or listed and [emit] returns [false] and changes nothing;
    under a name of [Object.prototype], [emit] and [rawListeners] throw and
    [listenerCount] is the [length] of the inherited value. *)
Theorem constructor_checks_the_default dm cr p :
  (negative dm = true → new_emitter dm cr p = None)
  ∧ (negative dm = false →
     ∃ st, new_emitter dm cr p = Some st
       ∧ getMaxListeners st = dm
       ∧ captureRejections st = default false cr
       ∧ eventNames st = ∅
       ∧ (∀ event l, ordinary event →
            rawListeners st event = Normal []
            ∧ listenerCount st event l = Normal (Some 0))
       ∧ (∀ code fuel event args, ordinary event →
            emit code (S fuel) event args st = (Normal false, st))
       ∧ ∀ code fuel event args v, Object_prototype event = Some v →
           emit code (S fuel) event args st = (Thrown VTypeError, st)
           ∧ rawListeners st event = Thrown VTypeError
           ∧ listenerCount st event None = Normal (inherited_length v)).
Proof.
  unfold new_emitter. split; intros ->; [done|].
  eexists. split; [reflexivity|].
  split; [done|]. split; [done|]. split; [apply dom_empty_L|].
  split; [|split].
  - intros event l Ho. unfold rawListeners, listenerCount.
    rewrite (events_at_ordinary _ _ Ho). simpl. by rewrite lookup_empty.
  - intros code fuel event args Ho. by apply emit_absent.
  - intros code fuel event args v Hv.
    split; [by apply emit_inherited with v|].
    unfold rawListeners, listenerCount.
    by rewrite (events_at_inherited _ _ v (lookup_empty _) Hv).
Qed.

Lemma constructor_checks_the_default_witness :
  new_emitter (Int (-1)) None true = None
  ∧ ∃ st, new_emitter (Int 10) None true = Some st
      ∧ getMaxListeners st = Int 10
      ∧ captureRejections st = false
      ∧ eventNames st = ∅
      ∧ rawListeners st "e" = Normal []
      ∧ emit code_passive 1 "e" [] st = (Normal false, st)
      ∧ emit code_passive 1 "toString" [] st = (Thrown VTypeError, st).
Proof.
  split.
  - apply (constructor_checks_the_default (Int (-1)) None true). reflexivity.
  - destruct (constructor_checks_the_default (Int 10) None true) as [_ H].
    destruct (H eq_refl) as (st & H1 & H2 & H3 & H4 & H5 & H6 & H7).
    exists st. split; [exact H1|]. split; [exact H2|]. split; [exact H3|].
    split; [exact H4|].
    split; [apply (H5 "e" None); reflexivity|].
    split; [apply (H6 code_passive 0 "e" []); reflexivity|].
    apply (H7 code_passive 0 "toString" [] (Method 0)). reflexivity.
Defined.

(** ** Registration *)

Lemma once_effect (front : bool) event l st :
  well_formed st →
  let m := if front then prependOnce event l else once event l in
  let w := OnceListenerWrapper (next_wrapper st) event l in
  well_formed (after m st)
  ∧ next_wrapper (after m st) = S (next_wrapper st)
  ∧ (∀ e, onceEntries (after m st) e
          = if decide (e = event) then onceEntries st event ++ [w]
            else onceEntries st e)
  ∧ ((ordinary event
      ∧ m st = (Normal tt, after m st)
      ∧ is_Some (events (after m st) !! event)
      ∧ (∀ e, e ≠ event → events (after m st) !! e = events st !! e)
      ∧ ∀ e, entries (after m st) e
             = if decide (e = event)
               then (if front then w :: entries st event
                     else entries st event ++ [w])
               else entries st e)
     ∨ (¬ ordinary event
        ∧ m st = (Thrown VTypeError, after (createOnceWrapper event l) st))).
Proof.
  intros Hwf m w. set (st1 := after (createOnceWrapper event l) st).
  assert (well_formed st1) as Hwf1 by (by apply createOnceWrapper_well_formed).
  set (m1 := if front then prepend event w else on event w).
  assert (m st = m1 st1 ∧ after m st = after m1 st1) as [Em Ea].
  { subst m m1. destruct front; split; reflexivity. }
  rewrite Em, Ea.
  destruct (registration_effect front event w st1 Hwf1)
    as (Hwf' & Hol & Hn & Hcase). fold m1 in Hwf', Hol, Hn, Hcase.
  split; [done|]. split; [by rewrite Hn|].
  split.
  { intros e. unfold onceEntries at 1. rewrite Hol.
    apply createOnceWrapper_onceEntries. }
  destruct Hcase as [(Ho & E & Hs & Hev & Hent)|[Hno E]]; [left|right; by split].
  split; [done|]. split; [done|]. split; [done|]. split; [exact Hev|].
  intros e. rewrite Hent. by destruct front.
Qed.

Lemma once_entries event l st e :
  well_formed st → ordinary event →
  entries (after (once event l) st) e
  = if decide (e = event)
    then entries st event ++ [OnceListenerWrapper (next_wrapper st) event l]
    else entries st e.
Proof.
  intros Hwf Ho.
  destruct (once_effect false event l st Hwf)
    as (_ & _ & _ & [(_ & _ & _ & _ & H)|[H _]]); [apply H|done].
Qed.

Lemma once_onceEntries event l st e :
  well_formed st →
  onceEntries (after (once event l) st) e
  = if decide (e = event)
    then onceEntries st event ++ [OnceListenerWrapper (next_wrapper st) event l]
    else onceEntries st e.
Proof. intros Hwf. apply (once_effect false event l st Hwf). Qed.

Lemma prependOnce_entries event l st e :
  well_formed st → ordinary event →
  entries (after (prependOnce event l) st) e
  = if decide (e = event)
    then OnceListenerWrapper (next_wrapper st) event l :: entries st event
    else entries st e.
Proof.
  intros Hwf Ho.
  destruct (once_effect true event l st Hwf)
    as (_ & _ & _ & [(_ & _ & _ & _ & H)|[H _]]); [apply H|done].
Qed.

(** [rawListeners] of another event is not changed by a call that leaves
    the property of that event and its array alone. *)
Lemma rawListeners_same st st' e :
  events st' !! e = events st !! e → entries st' e = entries st e →
  rawListeners st' e = rawListeners st e.
Proof.
  intros He Hent. unfold rawListeners, events_at, entries in *.
  rewrite He in Hent. rewrite He.
  destruct (events st !! e); [by rewrite Hent|by destruct (Object_prototype e)].
Qed.

Lemma listeners_entries st event :
  ordinary event ∨ is_Some (events st !! event) →
  listeners st event
  = Normal (map (λ l, default l (dot_listener l)) (entries st event)).
Proof. intros H. unfold listeners. by rewrite rawListeners_entries. Qed.

(** X2.  [on] and [once] return and add one entry at the end of the event's
    sequence, whatever the ceiling is, and leave the entries before it and
    the other events as they are; [once] adds a new wrapper of the listener,
    which [listeners] shows as the listener itself. *)
Theorem registration_appends st event f xs :
  in_use st →
  rawListeners st event = Normal xs →
  on event (Listener f) st = (Normal tt, after (on event (Listener f)) st)
  ∧ once event (Listener f) st = (Normal tt, after (once event (Listener f)) st)
  ∧ rawListeners (after (on event (Listener f)) st) event
    = Normal (xs ++ [Listener f])
  ∧ rawListeners (after (once event (Listener f)) st) event
    = Normal (xs ++ [OnceListenerWrapper (next_wrapper st) event (Listener f)])
  ∧ listeners (after (once event (Listener f)) st) event
    = Normal (map (λ l, default l (dot_listener l)) xs ++ [Listener f])
  ∧ listenerCount (after (on event (Listener f)) st) event None
    = Normal (Some (S (length xs)))
  ∧ listenerCount (after (once event (Listener f)) st) event None
    = Normal (Some (S (length xs)))
  ∧ ∀ e, e ≠ event →
      rawListeners (after (on event (Listener f)) st) e = rawListeners st e
      ∧ rawListeners (after (once event (Listener f)) st) e = rawListeners st e.
Proof.
  intros Hwf%in_use_well_formed Hraw.
  destruct (rawListeners_Normal _ _ _ Hwf Hraw) as [Ho ->].
  destruct (on_effect event (Listener f) st Hwf)
    as (_ & _ & _ & [(_ & Eon & _ & Hev & Hent)|[Hno _]]); [|done].
  destruct (once_effect false event (Listener f) st Hwf)
    as (_ & _ & _ & [(_ & Eonce & _ & Hev' & Hent')|[Hno _]]); [|done].
  simpl in Eonce, Hev', Hent'.
  split; [exact Eon|]. split; [exact Eonce|].
  rewrite listeners_entries, !rawListeners_entries, !listenerCount_entries
    by (by left).
  rewrite Hent, Hent', !decide_True, !length_app, map_app by done. simpl.
  rewrite Nat.add_1_r.
  repeat split; try done.
  - apply rawListeners_same; [by apply Hev|]. by rewrite Hent, decide_False.
  - apply rawListeners_same; [by apply Hev'|]. by rewrite Hent', decide_False.
Qed.

Lemma registration_appends_witness :
  rawListeners (after (on "e" (Listener 2)) two_listeners) "e"
    = Normal [Listener 0; Listener 1; Listener 2]
  ∧ rawListeners (after (once "e" (Listener 2)) two_listeners) "e"
    = Normal [Listener 0; Listener 1; OnceListenerWrapper 0 "e" (Listener 2)]
  ∧ listeners (after (once "e" (Listener 2)) two_listeners) "e"
    = Normal [Listener 0; Listener 1; Listener 2].
Proof.
  destruct (registration_appends two_listeners "e" 2 [Listener 0; Listener 1]
              (reachable_in_use _ reachable_two_listeners))
    as (_ & _ & H1 & H2 & H3 & _).
  - vm_compute. reflexivity.
  - split; [exact H1|]. split; [exact H2|exact H3].
Defined.

(** X3.  [prepend] and [prependOnce] return and put the new entry before all the
    entries of the event, however many there are, and leave those and the
    other events as they are. *)
Theorem prepend_puts_first st event f xs :
  in_use st →
  rawListeners st event = Normal xs →
  prepend event (Listener f) st
    = (Normal tt, after (prepend event (Listener f)) st)
  ∧ prependOnce event (Listener f) st
    = (Normal tt, after (prependOnce event (Listener f)) st)
  ∧ rawListeners (after (prepend event (Listener f)) st) event
    = Normal (Listener f :: xs)
  ∧ rawListeners (after (prependOnce event (Listener f)) st) event
    = Normal (OnceListenerWrapper (next_wrapper st) event (Listener f) :: xs)
  ∧ listeners (after (prependOnce event (Listener f)) st) event
    = Normal (Listener f :: map (λ l, default l (dot_listener l)) xs)
  ∧ ∀ e, e ≠ event →
      rawListeners (after (prepend event (Listener f)) st) e = rawListeners st e
      ∧ rawListeners (after (prependOnce event (Listener f)) st) e
        = rawListeners st e.
Proof.
  intros Hwf%in_use_well_formed Hraw.
  destruct (rawListeners_Normal _ _ _ Hwf Hraw) as [Ho ->].
  destruct (prepend_effect event (Listener f) st Hwf)
    as (_ & _ & _ & [(_ & Eon & _ & Hev & Hent)|[Hno _]]); [|done].
  destruct (once_effect true event (Listener f) st Hwf)
    as (_ & _ & _ & [(_ & Eonce & _ & Hev' & Hent')|[Hno _]]); [|done].
  simpl in Eonce, Hev', Hent'.
  split; [exact Eon|]. split; [exact Eonce|].
  rewrite listeners_entries, !rawListeners_entries by (by left).
  rewrite Hent, Hent', !decide_True by done. simpl.
  repeat split; try done.
  - apply rawListeners_same; [by apply Hev|]. by rewrite Hent, decide_False.
  - apply rawListeners_same; [by apply Hev'|]. by rewrite Hent', decide_False.
Qed.

Lemma prepend_puts_first_witness :
  rawListeners (after (prepend "e" (Listener 2)) two_listeners) "e"
    = Normal [Listener 2; Listener 0; Listener 1]
  ∧ rawListeners (after (prependOnce "e" (Listener 2)) two_listeners) "e"
    = Normal [OnceListenerWrapper 0 "e" (Listener 2); Listener 0; Listener 1].
Proof.
  destruct (prepend_puts_first two_listeners "e" 2 [Listener 0; Listener 1]
              (reachable_in_use _ reachable_two_listeners))
    as (_ & _ & H1 & H2 & _).
  - vm_compute. reflexivity.
  - split; [exact H1|exact H2].
Defined.

(** ** The once-index and the wrappers in [events] *)

(** C8, as the code has it.  After any calls on a new emitter, by a caller
    and by listeners that register functions of their own, for every event
    name that [rawListeners] accepts (every name but those of
    [Object.prototype]): the once-index holds exactly the wrappers that are
    in [events[event]], each as many times (no wrapper is in one and not in
    the other).  If no call is a [prependOnce], they are moreover in the
    same order; a [prependOnce] puts its wrapper first in [events[event]]
    and last in the once-index. *)
Theorem once_index_holds_the_wrappers code fuel cs dm cr p st0 :
  new_emitter dm cr p = Some st0 →
  (∀ f, Forall registers_own_functions (body (code f))) →
  Forall registers_own_functions cs →
  (∀ event, ordinary event →
     ∃ xs, rawListeners (script code fuel cs st0) event = Normal xs)
  ∧ (∀ event xs,
       rawListeners (script code fuel cs st0) event = Normal xs →
       List.filter is_wrapper xs ≡ₚ onceEntries (script code fuel cs st0) event
       ∧ ∀ w, w ∈ onceEntries (script code fuel cs st0) event
              ↔ w ∈ xs ∧ is_wrapper w = true)
  ∧ ((∀ f, Forall no_prependOnce (body (code f))) →
     Forall no_prependOnce cs →
     ∀ event xs,
       rawListeners (script code fuel cs st0) event = Normal xs →
       List.filter is_wrapper xs = onceEntries (script code fuel cs st0) event)
  ∧ (∀ event l xs,
       rawListeners (script code fuel cs st0) event = Normal xs →
       rawListeners (after (prependOnce event l) (script code fuel cs st0)) event
       = Normal (OnceListenerWrapper (next_wrapper (script code fuel cs st0))
                   event l :: xs)
       ∧ onceEntries (after (prependOnce event l) (script code fuel cs st0)) event
         = onceEntries (script code fuel cs st0) event
             ++ [OnceListenerWrapper (next_wrapper (script code fuel cs st0))
                   event l]).
Proof.
  intros Hnew Hcode Hcs.
  destruct (script_agrees_Permutation code fuel cs dm cr p st0 Hnew Hcode Hcs)
    as [Hwf Hperm].
  split; [|split; [|split]].
  - intros event Ho. eexists. apply rawListeners_entries. by left.
  - intros event xs Hraw.
    destruct (rawListeners_Normal _ _ _ Hwf Hraw) as [Ho ->].
    split; [by apply Hperm|].
    intros w. rewrite <- (Hperm event Ho). unfold wrappers.
    rewrite !list_elem_of_In. apply List.filter_In.
  - intros Hcode' Hcs' event xs Hraw.
    destruct (rawListeners_Normal _ _ _ Hwf Hraw) as [Ho ->].
    apply (script_agrees eq False); try done.
    + by intros w xs ys ->.
    + by intros q xs ys ->.
    + by apply new_emitter_agrees with dm cr p.
  - intros event l xs Hraw.
    destruct (rawListeners_Normal _ _ _ Hwf Hraw) as [Ho ->].
    destruct (once_effect true event l _ Hwf)
      as (_ & _ & Honce & [(_ & _ & _ & _ & Hent)|[Hno _]]); [|done].
    simpl in Honce, Hent.
    rewrite rawListeners_entries by (by left).
    by rewrite Hent, Honce, !decide_True.
Qed.

Lemma once_index_holds_the_wrappers_witness :
  (rawListeners (script code_passive 1 once_twice (fresh_emitter false)) "e"
     = Normal [OnceListenerWrapper 0 "e" (Listener 0);
               OnceListenerWrapper 1 "e" (Listener 1)]
   ∧ [OnceListenerWrapper 0 "e" (Listener 0); OnceListenerWrapper 1 "e" (Listener 1)]
     = onceEntries (script code_passive 1 once_twice (fresh_emitter false)) "e")
  ∧ [OnceListenerWrapper 1 "e" (Listener 1); OnceListenerWrapper 0 "e" (Listener 0)]
    ≡ₚ onceEntries (script code_passive 1 once_then_prependOnce
                      (fresh_emitter false)) "e".
Proof.
  split.
  - destruct (once_index_holds_the_wrappers code_passive 1 once_twice
                (Int 10) (Some false) true (fresh_emitter false) eq_refl)
      as (_ & _ & H3 & _).
    + intros f. constructor.
    + repeat constructor.
    + assert (rawListeners (script code_passive 1 once_twice (fresh_emitter false))
                "e"
              = Normal [OnceListenerWrapper 0 "e" (Listener 0);
                        OnceListenerWrapper 1 "e" (Listener 1)]) as Hraw
        by (vm_compute; reflexivity).
      assert (Forall no_prependOnce once_twice) as Hno by (repeat constructor).
      split; [exact Hraw|].
      exact (H3 (λ f, Forall_nil_2 _) Hno "e" _ Hraw).
  - destruct (once_index_holds_the_wrappers code_passive 1 once_then_prependOnce
                (Int 10) (Some false) true (fresh_emitter false) eq_refl)
      as (_ & H2 & _).
    + intros f. constructor.
    + repeat constructor.
    + assert (rawListeners (script code_passive 1 once_then_prependOnce
                              (fresh_emitter false)) "e"
              = Normal [OnceListenerWrapper 1 "e" (Listener 1);
                        OnceListenerWrapper 0 "e" (Listener 0)]) as Hraw
        by (vm_compute; reflexivity).
      exact (proj1 (H2 "e" _ Hraw)).
Defined.

(** C8 as stated fails: [createOnceWrapper] pushes at the end of the
    once-index while [prependOnce] puts the wrapper at the front of
    [events[event]]. *)
Lemma once_index_order_counterexample :
  rawListeners (script code_passive 1 once_then_prependOnce (fresh_emitter false)) "e"
    = Normal [OnceListenerWrapper 1 "e" (Listener 1);
              OnceListenerWrapper 0 "e" (Listener 0)]
  ∧ onceEntries (script code_passive 1 once_then_prependOnce (fresh_emitter false)) "e"
    = [OnceListenerWrapper 0 "e" (Listener 0);
       OnceListenerWrapper 1 "e" (Listener 1)]
  ∧ wrappers (script code_passive 1 once_then_prependOnce (fresh_emitter false)) "e"
    ≠ onceEntries (script code_passive 1 once_then_prependOnce (fresh_emitter false)) "e".
Proof. vm_compute. repeat split. discriminate. Qed.

(** Under a name of [Object.prototype], [once] throws after the wrapper has
    been pushed on the once-index: the index holds a wrapper that [events]
    does not. *)
Lemma once_index_after_a_throw :
  (once "toString" (Listener 0) (fresh_emitter false)).1 = Thrown VTypeError
  ∧ onceEntries (script code_passive 1 once_toString (fresh_emitter false)) "toString"
    = [OnceListenerWrapper 0 "toString" (Listener 0)]
  ∧ eventNames (script code_passive 1 once_toString (fresh_emitter false)) = ∅.
Proof. vm_compute. done. Qed.

(** A caller that passes a wrapper to [on] registers it a second time in
    [events[event]], not in the once-index; passed to [once], it is wrapped
    again, and [listeners] shows it. *)
Lemma wrapper_registered_by_the_caller :
  rawListeners (script code_passive 1 once_then_on_the_wrapper (fresh_emitter false)) "e"
    = Normal [OnceListenerWrapper 0 "e" (Listener 0);
              OnceListenerWrapper 0 "e" (Listener 0)]
  ∧ onceEntries (script code_passive 1 once_then_on_the_wrapper (fresh_emitter false)) "e"
    = [OnceListenerWrapper 0 "e" (Listener 0)]
  ∧ listeners (script code_passive 1 once_then_once_the_wrapper (fresh_emitter false)) "e"
    = Normal [Listener 0; OnceListenerWrapper 0 "e" (Listener 0)].
Proof. vm_compute. done. Qed.

(** ** Invariants of an emitter whose callers register their own functions *)

Lemma reachable_invariant (Inv : emitter → Prop) :
  (∀ dm cr p st0, new_emitter dm cr p = Some st0 → Inv st0) →
  (∀ c st, registers_own_functions c → Inv st →
           Inv (after (exec (λ _ _, ret false) c) st)) →
  (∀ event l st, Inv st → Inv (after (off event l) st)) →
  (∀ c st, Inv st → Inv (set_calls c st)) →
  (∀ r st, Inv st → Inv (set_rejections r st)) →
  ∀ st, reachable st → Inv st.
Proof.
  intros Hnew Hmethod Hoff Hcalls Hrej st
    (code & fuel & cs & dm & cr & p & st0 & Hst0 & Hcode & Hcs & ->).
  apply (script_preserves code registers_own_functions Inv); eauto.
Qed.

Lemma entries_new dm cr p st0 e :
  new_emitter dm cr p = Some st0 →
  events st0 !! e = None ∧ entries st0 e = [] ∧ onceEntries st0 e = []
  ∧ next_wrapper st0 = 0.
Proof.
  intros [_ ->]%new_emitter_inv. unfold entries, onceEntries. simpl.
  by rewrite !lookup_empty.
Qed.

(** *** Event names *)

Lemma nonempty_events_same st st' :
  events st' = events st → heap st' = heap st →
  nonempty_events st → nonempty_events st'.
Proof.
  intros He Hh [Hwf Hne]. split.
  - revert Hwf. apply well_formed_same; congruence.
  - intros e. unfold entries, array. rewrite He, Hh. apply Hne.
Qed.

Lemma registration_nonempty (front : bool) event l st :
  nonempty_events st →
  nonempty_events (after (if front then prepend event l else on event l) st).
Proof.
  intros [Hwf Hne].
  destruct (registration_effect front event l st Hwf)
    as (Hwf' & _ & _ & [(_ & _ & Hs & Hev & Hent)|[_ E]]).
  - split; [done|]. intros e. rewrite Hent. case_decide.
    + intros _. destruct front; [done|by destruct (entries st event)].
    + rewrite Hev by done. apply Hne.
  - unfold after. rewrite E. by split.
Qed.

Lemma off_nonempty event l st :
  nonempty_events st → nonempty_events (after (off event l) st).
Proof.
  intros [Hwf Hne]. split; [by apply off_well_formed|].
  intros e. destruct (decide (e = event)) as [->|He].
  - destruct (events st !! event) as [a|] eqn:Ha.
    + intros Hpresent Hempty. apply Hpresent.
      apply events_off_empty with a; [done|].
      by rewrite <- (entries_off _ _ _ _ Ha).
    + rewrite (after_off_absent _ _ _ Ha). apply Hne.
  - destruct (off_entries_other event l st e Hwf He) as (-> & _ & ->). apply Hne.
Qed.

Lemma delete_nonempty ev st :
  nonempty_events st →
  nonempty_events (set_onceListeners (delete ev (onceListeners st))
                     (set_events (delete ev (events st)) st)).
Proof.
  intros [Hwf Hne]. split; [by apply well_formed_delete|].
  intros e.
  change (entries (set_onceListeners (delete ev (onceListeners st))
                     (set_events (delete ev (events st)) st)) e)
    with (entries (set_events (delete ev (events st)) st) e).
  rewrite entries_delete. simpl. case_decide.
  - subst. by rewrite lookup_delete_eq.
  - rewrite lookup_delete_ne by done. apply Hne.
Qed.

Lemma method_nonempty c st :
  nonempty_events st → nonempty_events (after (exec (λ _ _, ret false) c) st).
Proof.
  intros H. destruct c; simpl; auto using off_nonempty.
  - by apply (registration_nonempty false).
  - by apply (registration_nonempty true).
  - rewrite after_once. apply (registration_nonempty false).
    revert H. by apply nonempty_events_same.
  - rewrite after_prependOnce. apply (registration_nonempty true).
    revert H. by apply nonempty_events_same.
  - apply removeAllListeners_keeps; auto using off_nonempty, delete_nonempty.
    intros s _. split; [apply well_formed_empty|].
    intros e. simpl. by rewrite lookup_empty.
Qed.

Lemma in_use_nonempty st : in_use st → nonempty_events st.
Proof.
  intros (code & fuel & cs & dm & cr & p & st0 & Hnew & ->).
  apply (script_preserves code (λ _, True) nonempty_events).
  - intros f. by apply Forall_forall.
  - intros c s _. apply method_nonempty.
  - intros event l s. apply off_nonempty.
  - intros c s. by apply nonempty_events_same.
  - intros r s. by apply nonempty_events_same.
  - by apply Forall_forall.
  - split; [by eapply well_formed_new|].
    intros e. by destruct (entries_new _ _ _ _ e Hnew) as (-> & _).
Qed.

(** *** Wrappers are allocated fresh, and wrap functions *)

Lemma same_ref_refl x : same_ref x x = true.
Proof. destruct x; simpl; by apply bool_decide_eq_true_2. Qed.

Lemma fresh_below_nil n : fresh_below n [].
Proof. split; intros *; by rewrite elem_of_nil. Qed.

Lemma fresh_below_perm n xs ys : xs ≡ₚ ys → fresh_below n xs → fresh_below n ys.
Proof.
  intros Hp [Hb Hu]. split.
  - intros w ev f Hin. rewrite <- Hp in Hin. by eapply Hb.
  - intros x y Hx Hy. rewrite <- Hp in Hx, Hy. by apply Hu.
Qed.

Lemma fresh_below_mono n m xs : n ≤ m → fresh_below n xs → fresh_below m xs.
Proof.
  intros Hnm [Hb Hu]. split; [|done].
  intros w ev f Hin. specialize (Hb w ev f Hin). lia.
Qed.

Lemma elem_of_filter_bool {A} (p : A → bool) xs x :
  x ∈ List.filter p xs ↔ x ∈ xs ∧ p x = true.
Proof. rewrite !list_elem_of_In. apply List.filter_In. Qed.

Lemma fresh_below_filter n p xs :
  fresh_below n xs → fresh_below n (List.filter p xs).
Proof.
  intros [Hb Hu]. split.
  - intros w ev f [Hin _]%elem_of_filter_bool. by eapply Hb.
  - intros x y [Hx _]%elem_of_filter_bool [Hy _]%elem_of_filter_bool.
    by apply Hu.
Qed.

Lemma fresh_below_cons_listener n f xs :
  fresh_below n xs → fresh_below n (Listener f :: xs).
Proof.
  intros [Hb Hu]. split.
  - intros w ev g [Hin|Hin]%elem_of_cons; [done|by eapply Hb].
  - intros x y [->|Hx]%elem_of_cons [->|Hy]%elem_of_cons Hxy; auto.
    + destruct y; [|done]. simpl in Hxy. by apply bool_decide_eq_true in Hxy as ->.
    + destruct x; [|done]. simpl in Hxy. by apply bool_decide_eq_true in Hxy as ->.
Qed.

Lemma fresh_below_cons_wrapper n ev l xs :
  fresh_below n xs → fresh_below (S n) (OnceListenerWrapper n ev l :: xs).
Proof.
  intros [Hb Hu]. split.
  - intros w ev' g [Hin|Hin]%elem_of_cons.
    + injection Hin as -> _ _. lia.
    + specialize (Hb w ev' g Hin). lia.
  - intros x y [->|Hx]%elem_of_cons [->|Hy]%elem_of_cons Hxy; auto.
    + destruct y as [|w ev' g]; [done|]. simpl in Hxy.
      apply bool_decide_eq_true in Hxy as <-. specialize (Hb _ _ _ Hy). lia.
    + destruct x as [|w ev' g]; [done|]. simpl in Hxy.
      apply bool_decide_eq_true in Hxy as ->. specialize (Hb _ _ _ Hx). lia.
Qed.

Lemma wrappers_fresh_same st st' :
  events st' = events st → heap st' = heap st →
  onceListeners st' = onceListeners st →
  next_wrapper st' = next_wrapper st →
  wrappers_fresh st → wrappers_fresh st'.
Proof.
  intros He Hh Ho Hn [Hwf Hf]. split.
  - revert Hwf. apply well_formed_same; congruence.
  - intros e. unfold entries, array, onceEntries. rewrite He, Hh, Ho, Hn. apply Hf.
Qed.

Lemma on_fresh (front : bool) event f st :
  wrappers_fresh st →
  wrappers_fresh (after (if front then prepend event (Listener f)
                         else on event (Listener f)) st).
Proof.
  intros [Hwf Hf].
  destruct (registration_effect front event (Listener f) st Hwf)
    as (Hwf' & Hol & Hn & [(_ & _ & _ & _ & Hent)|[_ E]]).
  - split; [done|]. intros e. rewrite Hn, Hent. unfold onceEntries. rewrite Hol.
    destruct (Hf e) as (H1 & H2 & H3). destruct (Hf event) as (H1' & H2' & _).
    case_decide; [|done]. split; [|split; [|done]].
    + apply fresh_below_perm with (Listener f :: entries st event).
      * destruct front; [done|apply Permutation_cons_append].
      * by apply fresh_below_cons_listener.
    + destruct front; [by constructor|].
      apply Forall_app. split; [done|by repeat constructor].
  - unfold after. rewrite E. by split.
Qed.

Lemma once_fresh (front : bool) event f st :
  wrappers_fresh st →
  wrappers_fresh (after (if front then prependOnce event (Listener f)
                         else once event (Listener f)) st).
Proof.
  intros [Hwf Hf].
  assert (∀ e, Forall shallow
                 (if decide (e = event)
                  then onceEntries st event
                         ++ [OnceListenerWrapper (next_wrapper st) event (Listener f)]
                  else onceEntries st e)) as Hidx.
  { intros e. destruct (Hf e) as (_ & _ & H3). destruct (Hf event) as (_ & _ & H3').
    case_decide; [|done]. apply Forall_app. split; [done|by repeat constructor]. }
  destruct (once_effect front event (Listener f) st Hwf)
    as (Hwf' & Hn & Hol & [(_ & _ & _ & _ & Hent)|[_ E]]).
  - split; [done|]. intros e. rewrite Hn, Hent, Hol.
    destruct (Hf e) as (H1 & H2 & H3). destruct (Hf event) as (H1' & H2' & _).
    split; [|split; [|apply Hidx]].
    + case_decide; [|by apply fresh_below_mono with (next_wrapper st); [lia|]].
      apply fresh_below_perm
        with (OnceListenerWrapper (next_wrapper st) event (Listener f)
                :: entries st event).
      * destruct front; [done|apply Permutation_cons_append].
      * by apply fresh_below_cons_wrapper.
    + case_decide; [|done].
      destruct front; [by constructor|].
      apply Forall_app. split; [done|by repeat constructor].
  - assert (after (if front then prependOnce event (Listener f)
                   else once event (Listener f)) st
            = after (createOnceWrapper event (Listener f)) st) as Ea.
    { unfold after at 1. by rewrite E. }
    split; [done|]. intros e. rewrite Hn, Hol, Ea, createOnceWrapper_entries.
    destruct (Hf e) as (H1 & H2 & H3).
    split; [by apply fresh_below_mono with (next_wrapper st); [lia|]|].
    split; [done|apply Hidx].
Qed.

Lemma off_fresh event l st :
  wrappers_fresh st → wrappers_fresh (after (off event l) st).
Proof.
  intros [Hwf Hf].
  destruct (off_fields event l st) as (_ & _ & _ & Hn & _).
  destruct (off_effect event l st Hwf)
    as (Hwf' & Hother & [(a & Ha & _ & He & Ho)|[_ E]]).
  - split; [done|]. intros e. rewrite Hn.
    destruct (decide (e = event)) as [->|Hne].
    + rewrite He, Ho. destruct (Hf event) as (H1 & H2 & H3).
      split; [by apply fresh_below_filter|].
      split; by apply Forall_filter_bool.
    + destruct (Hother e Hne) as (-> & -> & _). apply Hf.
  - rewrite E. by split.
Qed.

Lemma delete_fresh ev st :
  wrappers_fresh st →
  wrappers_fresh (set_onceListeners (delete ev (onceListeners st))
                    (set_events (delete ev (events st)) st)).
Proof.
  intros [Hwf Hf]. split; [by apply well_formed_delete|].
  intros e.
  change (entries (set_onceListeners (delete ev (onceListeners st))
                     (set_events (delete ev (events st)) st)) e)
    with (entries (set_events (delete ev (events st)) st) e).
  rewrite entries_delete. unfold onceEntries. simpl.
  destruct (Hf e) as (H1 & H2 & H3).
  case_decide.
  - subst. rewrite lookup_delete_eq. simpl.
    split; [apply fresh_below_nil|split; constructor].
  - rewrite lookup_delete_ne by done. done.
Qed.

Lemma method_fresh c st :
  registers_own_functions c →
  wrappers_fresh st → wrappers_fresh (after (exec (λ _ _, ret false) c) st).
Proof.
  intros Hc H.
  destruct c as [event l|event l|event l|event l|event l|event l|n|event args|v];
    simpl in *; try done.
  - destruct l as [f|]; [|done]. by apply (on_fresh false).
  - destruct l as [f|]; [|done]. by apply (on_fresh true).
  - destruct l as [f|]; [|done]. by apply (once_fresh false).
  - destruct l as [f|]; [|done]. by apply (once_fresh true).
  - by apply off_fresh.
  - apply removeAllListeners_keeps; auto using off_fresh, delete_fresh.
    intros s _. split; [apply well_formed_empty|].
    intros e. unfold entries, onceEntries. simpl. rewrite !lookup_empty. simpl.
    split; [apply fresh_below_nil|split; constructor].
Qed.

Lemma reachable_fresh st : reachable st → wrappers_fresh st.
Proof.
  apply reachable_invariant.
  - intros dm cr p st0 Hnew. split; [by eapply well_formed_new|].
    intros e. destruct (entries_new _ _ _ _ e Hnew) as (_ & -> & -> & _).
    split; [apply fresh_below_nil|split; constructor].
  - apply method_fresh.
  - apply off_fresh.
  - intros c s. by apply wrappers_fresh_same.
  - intros r s. by apply wrappers_fresh_same.
Qed.

(** *** A wrapper is registered under the event it closes over *)

Lemma wrappers_keyed_same st st' :
  events st' = events st → heap st' = heap st →
  wrappers_keyed st → wrappers_keyed st'.
Proof.
  intros He Hh [Hwf Hk]. split.
  - revert Hwf. apply well_formed_same; congruence.
  - intros e. unfold entries, array. rewrite He, Hh. apply Hk.
Qed.

Lemma registration_keyed (front : bool) event l st :
  keyed event l →
  wrappers_keyed st →
  wrappers_keyed (after (if front then prepend event l else on event l) st).
Proof.
  intros Hl [Hwf Hk].
  destruct (registration_effect front event l st Hwf)
    as (Hwf' & _ & _ & [(_ & _ & _ & _ & Hent)|[_ E]]).
  - split; [done|]. intros e. rewrite Hent. case_decide; [subst|apply Hk].
    destruct front; [constructor; [done|apply Hk]|].
    apply Forall_app. split; [apply Hk|by repeat constructor].
  - unfold after. rewrite E. by split.
Qed.

Lemma off_keyed event l st :
  wrappers_keyed st → wrappers_keyed (after (off event l) st).
Proof.
  intros [Hwf Hk].
  destruct (off_effect event l st Hwf)
    as (Hwf' & Hother & [(a & Ha & _ & He & Ho)|[_ E]]).
  - split; [done|]. intros e.
    destruct (decide (e = event)) as [->|Hne].
    + rewrite He. apply Forall_filter_bool, Hk.
    + destruct (Hother e Hne) as (-> & _). apply Hk.
  - rewrite E. by split.
Qed.

Lemma method_keyed c st :
  registers_own_functions c →
  wrappers_keyed st → wrappers_keyed (after (exec (λ _ _, ret false) c) st).
Proof.
  intros Hc H.
  destruct c as [event l|event l|event l|event l|event l|event l|n|event args|v];
    simpl in *; try done.
  - destruct l as [f|]; [|done]. by apply (registration_keyed false).
  - destruct l as [f|]; [|done]. by apply (registration_keyed true).
  - rewrite after_once. apply (registration_keyed false); [done|].
    revert H. by apply wrappers_keyed_same.
  - rewrite after_prependOnce. apply (registration_keyed true); [done|].
    revert H. by apply wrappers_keyed_same.
  - by apply off_keyed.
  - apply removeAllListeners_keeps; auto using off_keyed.
    + intros s ev [Hwf Hk]. split; [by apply well_formed_delete|].
      intros e.
      change (entries (set_onceListeners (delete ev (onceListeners s))
                         (set_events (delete ev (events s)) s)) e)
        with (entries (set_events (delete ev (events s)) s) e).
      rewrite entries_delete. case_decide; [constructor|apply Hk].
    + intros s _. split; [apply well_formed_empty|].
      intros e. unfold entries. simpl. rewrite lookup_empty. constructor.
Qed.

Lemma reachable_keyed st : reachable st → wrappers_keyed st.
Proof.
  apply reachable_invariant.
  - intros dm cr p st0 Hnew. split; [by eapply well_formed_new|].
    intros e. destruct (entries_new _ _ _ _ e Hnew) as (_ & -> & _). constructor.
  - apply method_keyed.
  - apply off_keyed.
  - intros c s. by apply wrappers_keyed_same.
  - intros r s. by apply wrappers_keyed_same.
Qed.

(** ** Introspection *)


Lemma matches_original f l :
  shallow l → matches (Listener f) l = bool_decide (original l = f).
Proof.
  destruct l as [g|w ev [g|]]; unfold matches, wraps; simpl; try done.
  by rewrite orb_false_r.
Qed.

Lemma listenerCount_matches st event l :
  ordinary event →
  listenerCount st event (Some l)
  = Normal (Some (length (List.filter (matches l) (entries st event)))).
Proof.
  intros Ho. unfold listenerCount, entries. rewrite events_at_ordinary by done.
  by destruct (events st !! event).
Qed.

Lemma listenerCount_same st st' e l :
  events st' !! e = events st !! e → entries st' e = entries st e →
  listenerCount st' e l = listenerCount st e l.
Proof.
  intros He Hent. unfold listenerCount, events_at, entries in *.
  rewrite He in Hent. rewrite He.
  destruct (events st !! e); simpl in *;
    [by rewrite Hent|by destruct (Object_prototype e)].
Qed.






(** ** Removal *)

Lemma truthy_event_nonempty ev : ev ≠ "" → truthy_event (Some ev) = Some ev.
Proof. by destruct ev. Qed.

Lemma filter_all {A} (p : A → bool) xs :
  (∀ x, x ∈ xs → p x = true) → List.filter p xs = xs.
Proof.
  induction xs as [|x xs IH]; intros H; simpl; [done|].
  rewrite H by left. f_equal. apply IH. intros y Hy. apply H. by right.
Qed.

(** X6.  [removeAllListeners( event )], for an event name that is not the
    empty string, returns and leaves the event without property in [events],
    without once-index and out of [eventNames()]; every other event is as it
    was.  Afterwards [rawListeners( event )] is empty, unless the name is
    one of [Object.prototype], which no deletion takes away. *)
Theorem removeAllListeners_of_an_event st ev :
  ev ≠ "" →
  let st' := after (removeAllListeners (Some ev) None) st in
  removeAllListeners (Some ev) None st = (Normal tt, st')
  ∧ events st' !! ev = None
  ∧ onceEntries st' ev = []
  ∧ eventNames st' = eventNames st ∖ {[ev]}
  ∧ (ordinary ev →
       rawListeners st' ev = Normal []
       ∧ listenerCount st' ev None = Normal (Some 0))
  ∧ (¬ ordinary ev → rawListeners st' ev = Thrown VTypeError)
  ∧ ∀ e, e ≠ ev →
      rawListeners st' e = rawListeners st e
      ∧ onceEntries st' e = onceEntries st e
      ∧ ∀ l, listenerCount st' e l = listenerCount st e l.
Proof.
  intros Hev st'.
  assert (st' = set_onceListeners (delete ev (onceListeners st))
                  (set_events (delete ev (events st)) st)) as Hst'.
  { subst st'. unfold after, removeAllListeners.
    by rewrite (truthy_event_nonempty _ Hev). }
  assert (∀ e, entries st' e = if decide (e = ev) then [] else entries st e)
    as Hent.
  { intros e. rewrite Hst'.
    change (entries (set_onceListeners (delete ev (onceListeners st))
                       (set_events (delete ev (events st)) st)) e)
      with (entries (set_events (delete ev (events st)) st) e).
    apply entries_delete. }
  assert (events st' !! ev = None) as Hnone
    by (rewrite Hst'; simpl; apply lookup_delete_eq).
  split.
  { apply removeAllListeners_returns. by rewrite (truthy_event_nonempty _ Hev). }
  split; [done|]. split; [|split; [|split; [|split]]].
  - rewrite Hst'. unfold onceEntries. simpl. by rewrite lookup_delete_eq.
  - rewrite Hst'. unfold eventNames. simpl. apply dom_delete_L.
  - intros Ho.
    rewrite rawListeners_entries, listenerCount_entries, Hent by (by left).
    by rewrite decide_True.
  - intros Hno. destruct (Object_prototype ev) as [v|] eqn:Hv; [|done].
    by apply rawListeners_inherited with v.
  - intros e He.
    assert (events st' !! e = events st !! e) as Hsame
      by (rewrite Hst'; simpl; by apply lookup_delete_ne).
    assert (entries st' e = entries st e) as Hsame'
      by (rewrite Hent; by rewrite decide_False).
    split; [by apply rawListeners_same|]. split.
    + rewrite Hst'. unfold onceEntries. simpl. by rewrite lookup_delete_ne.
    + intros l. by apply listenerCount_same.
Qed.

Lemma removeAllListeners_of_an_event_witness :
  rawListeners (after (removeAllListeners (Some "event") None)
                  test_removeAllListeners) "event"
    = Normal []
  ∧ rawListeners (after (removeAllListeners (Some "event") None)
                    test_removeAllListeners) "event2"
    = Normal [Listener 0; Listener 0].
Proof.
  destruct (removeAllListeners_of_an_event test_removeAllListeners "event")
    as (_ & _ & _ & _ & H1 & _ & H2); [discriminate|].
  split; [by apply H1|].
  destruct (H2 "event2") as (-> & _); [discriminate|].
  vm_compute; reflexivity.
Defined.

(** X8.  On an emitter whose callers register functions of their own,
    [off( event, L )] returns and changes nothing at all when
    [rawListeners( event )] is empty.  When no entry of the event calls [L],
    it returns and leaves [rawListeners] and the once-index of every event
    as they are.  Whenever it returns, the other events are as they were. *)
Theorem off_of_an_absent_listener st event f :
  reachable st →
  (rawListeners st event = Normal [] → off event (Listener f) st = (Normal tt, st))
  ∧ (listenerCount st event (Some (Listener f)) = Normal (Some 0) →
     off event (Listener f) st = (Normal tt, after (off event (Listener f)) st)
     ∧ ∀ e, rawListeners (after (off event (Listener f)) st) e = rawListeners st e
            ∧ onceEntries (after (off event (Listener f)) st) e = onceEntries st e)
  ∧ (∀ e, e ≠ event →
       rawListeners (after (off event (Listener f)) st) e = rawListeners st e
       ∧ onceEntries (after (off event (Listener f)) st) e = onceEntries st e).
Proof.
  intros Hr. destruct (reachable_agrees st Hr) as [Hwf Hperm].
  destruct (reachable_fresh st Hr) as [_ Hf].
  destruct (in_use_nonempty st (reachable_in_use st Hr)) as [_ Hne].
  assert (∀ e, e ≠ event →
            rawListeners (after (off event (Listener f)) st) e = rawListeners st e
            ∧ onceEntries (after (off event (Listener f)) st) e = onceEntries st e)
    as Hother.
  { intros e He.
    destruct (off_entries_other event (Listener f) st e Hwf He) as (H1 & H2 & H3).
    split; [by apply rawListeners_same|done]. }
  split; [|split; [|exact Hother]].
  - intros Hraw.
    destruct (rawListeners_Normal st event [] Hwf Hraw) as [Ho Hent].
    destruct (events st !! event) as [a|] eqn:Ha.
    + exfalso. apply (Hne event); [by rewrite Ha|done].
    + by apply off_absent.
  - intros Hcount.
    assert (ordinary event) as Ho.
    { destruct (Object_prototype event) as [v|] eqn:Hv; [|done].
      pose proof (well_formed_inherited st event v Hwf Hv) as Hn.
      unfold listenerCount in Hcount.
      by rewrite (events_at_inherited st event v Hn Hv) in Hcount. }
    split; [apply off_returns; by left|].
    intros e. destruct (decide (e = event)) as [->|He]; [|by apply Hother].
    destruct (events st !! event) as [a|] eqn:Ha;
      [|by rewrite (after_off_absent _ _ _ Ha)].
    destruct (Hf event) as (_ & Hs & _).
    rewrite listenerCount_matches in Hcount by done.
    injection Hcount as Hcount. apply length_zero_iff_nil in Hcount.
    assert (∀ l, l ∈ entries st event → original l ≠ f) as Hnone.
    { intros l Hl Hl'.
      assert (l ∈ List.filter (matches (Listener f)) (entries st event)) as Hin.
      { apply elem_of_filter_bool. split; [done|].
        rewrite matches_original by (by eapply Forall_forall in Hs).
        by apply bool_decide_eq_true_2. }
      rewrite Hcount in Hin. by apply elem_of_nil in Hin. }
    assert (∀ w, w ∈ onceEntries st event
                 → w ∈ entries st event ∧ is_wrapper w = true) as Honce.
    { intros w Hw. rewrite <- (Hperm event Ho) in Hw. unfold wrappers in Hw.
      by apply elem_of_filter_bool in Hw. }
    assert (off_target st event (Listener f) = Listener f) as Htarget.
    { unfold off_target. rewrite filter_none; [done|].
      apply Forall_forall. intros w Hw. destruct (Honce w Hw) as [Hin _].
      assert (shallow w) as Hsw by (by eapply Forall_forall in Hs).
      destruct w as [g|w ev [g|]]; try done. unfold wraps. simpl.
      apply bool_decide_eq_false_2. intros <-. by apply (Hnone _ Hin). }
    assert (entries (after (off event (Listener f)) st) event = entries st event)
      as Hsame.
    { rewrite (entries_off _ _ _ _ Ha), Htarget.
      replace (array st a) with (entries st event)
        by (unfold entries; by rewrite Ha).
      apply filter_all.
      intros l Hl. destruct l as [g|w ev g]; [|done]. simpl.
      rewrite bool_decide_eq_false_2; [done|]. intros ->. by apply (Hnone _ Hl). }
    split.
    + rewrite !rawListeners_entries by (by left). by rewrite Hsame.
    + rewrite (onceEntries_off _ _ _ _ Ha), Htarget. apply filter_all.
      intros w Hw. destruct (Honce w Hw) as [_ Hwr]. by destruct w.
Qed.

Lemma off_of_an_absent_listener_witness :
  off "other" (Listener 0) two_listeners = (Normal tt, two_listeners)
  ∧ rawListeners (after (off "e" (Listener 5)) two_listeners) "e"
    = rawListeners two_listeners "e".
Proof.
  destruct (off_of_an_absent_listener two_listeners "other" 0
              reachable_two_listeners) as (H1 & _).
  destruct (off_of_an_absent_listener two_listeners "e" 5
              reachable_two_listeners) as (_ & H2 & _).
  split; [apply H1; vm_compute; reflexivity|].
  apply H2. vm_compute; reflexivity.
Defined.

(** ** Event names *)

(** X9.  On an emitter in use, every name in [eventNames()] is a name that
    [Object.prototype] does not have, and has a listener: a property of
    [events] is deleted with its last entry.  For the names that
    [Object.prototype] does not have, the name is in [eventNames()] exactly
    when [listenerCount( event )] is positive, and [emit] returns [false]
    exactly when [listenerCount( event )] is 0. *)
Theorem event_names_have_listeners st event :
  in_use st →
  (event ∈ eventNames st →
     ordinary event ∧ ∃ x xs, rawListeners st event = Normal (x :: xs))
  ∧ (ordinary event →
       (event ∈ eventNames st
        ↔ ∃ n, listenerCount st event None = Normal (Some (S n)))
       ∧ ∀ code fuel args,
           (emit code (S fuel) event args st).1 = Normal false
           ↔ listenerCount st event None = Normal (Some 0)).
Proof.
  intros [Hwf Hne]%in_use_nonempty. specialize (Hne event).
  unfold eventNames. rewrite elem_of_dom.
  destruct (events st !! event) as [a|] eqn:Ha.
  - assert (ordinary event) as Ho by (by apply (well_formed_own st event a)).
    assert (∃ x xs, entries st event = x :: xs) as (x & xs & Hent).
    { destruct (entries st event) as [|x xs]; [by destruct Hne|by eauto]. }
    rewrite rawListeners_entries, listenerCount_entries, Hent by (by left).
    split; [by eauto|]. intros _. split.
    + split; [by eauto|by eauto].
    + intros code fuel args. rewrite (emit_own _ _ _ _ _ _ Ha). unfold bind.
      destruct (forEach _ _ _) as [[[]| |] ?]; simpl; split; done.
  - split; [by intros [? ?]|]. intros Ho.
    rewrite listenerCount_entries by (by left).
    assert (entries st event = []) as -> by (unfold entries; by rewrite Ha).
    split; [split; [by intros [? ?]|by intros [? ?]]|].
    intros code fuel args. by rewrite emit_absent.
Qed.

Lemma event_names_have_listeners_witness :
  ("e" ∈ eventNames two_listeners
   ↔ ∃ n, listenerCount two_listeners "e" None = Normal (Some (S n)))
  ∧ ((emit code_passive 1 "other" [] two_listeners).1 = Normal false
     ↔ listenerCount two_listeners "other" None = Normal (Some 0)).
Proof.
  destruct (event_names_have_listeners two_listeners "e"
              (reachable_in_use _ reachable_two_listeners)) as [_ H1].
  destruct (event_names_have_listeners two_listeners "other"
              (reachable_in_use _ reachable_two_listeners)) as [_ H2].
  split; [apply H1|apply H2]; reflexivity.
Defined.

(** ** Removing every registration of a listener *)





Lemma off_agrees_Permutation event l st :
  once_index_agrees Permutation st →
  once_index_agrees Permutation (after (off event l) st).
Proof.
  apply (off_agrees Permutation).
  intros q xs zs H. by apply filter_Permutation_bool.
Qed.





(** ** The ceiling *)

Lemma emitMaxListenersExceeded_unbounded event st :
  maxListeners st = Int 0 ∨ maxListeners st = Infinity →
  emitMaxListenersExceeded event st = st.
Proof. unfold emitMaxListenersExceeded. by intros [->| ->]. Qed.

Lemma emitMaxListenersExceeded_bounded event st z a :
  maxListeners st = Int z → z ≠ 0%Z →
  ordinary event → events st !! event = Some a →
  emitMaxListenersExceeded event st
  = if decide ((event ∉ warningEmitted st) ∧ (z < Z.of_nat (length (array st a)))%Z)
    then set_warnings (warnings st ++ [diagnostic st event (length (array st a))])
           (set_warningEmitted ({[event]} ∪ warningEmitted st) st)
    else st.
Proof.
  intros Hmax Hz Ho Ha. unfold emitMaxListenersExceeded.
  rewrite Hmax, (warned_ordinary _ _ Ho), Ha. unfold length_le.
  assert (match z with
          | 0%Z => st
          | _ =>
            if bool_decide (event ∈ warningEmitted st) then st
            else if bool_decide (Z.of_nat (length (array st a)) ≤ z)%Z then st
            else set_warnings
                   (warnings st ++ [diagnostic st event (length (array st a))])
                   (set_warningEmitted ({[event]} ∪ warningEmitted st) st)
          end
          = if bool_decide (event ∈ warningEmitted st) then st
            else if bool_decide (Z.of_nat (length (array st a)) ≤ z)%Z then st
            else set_warnings
                   (warnings st ++ [diagnostic st event (length (array st a))])
                   (set_warningEmitted ({[event]} ∪ warningEmitted st) st)) as ->
    by (by destruct z).
  destruct (decide (event ∈ warningEmitted st)) as [Hin|Hin].
  - rewrite bool_decide_eq_true_2 by done. rewrite decide_False; [done|].
    by intros [? _].
  - rewrite bool_decide_eq_false_2 by done.
    destruct (decide (Z.of_nat (length (array st a)) ≤ z)%Z) as [Hle|Hgt].
    + rewrite bool_decide_eq_true_2 by done. rewrite decide_False; [done|].
      intros [_ ?]. lia.
    + rewrite bool_decide_eq_false_2 by done. rewrite decide_True; [done|].
      split; [done|lia].
Qed.

Lemma removeAllListeners_fields event l st :
  maxListeners (after (removeAllListeners event l) st) = maxListeners st
  ∧ warnings (after (removeAllListeners event l) st) = warnings st
  ∧ warningEmitted (after (removeAllListeners event l) st) = warningEmitted st.
Proof.
  apply (removeAllListeners_keeps
           (λ s, maxListeners s = maxListeners st ∧ warnings s = warnings st
                 ∧ warningEmitted s = warningEmitted st)); try done.
  intros ev x s (H1 & H2 & H3).
  destruct (off_fields ev x s) as (-> & -> & -> & _). done.
Qed.

(** X10.  With the ceiling at 0 or [Infinity], and as long as nobody calls
    [setMaxListeners], no diagnostic is ever emitted, whatever the caller and
    the listeners register. *)
Theorem no_warning_without_a_ceiling code fuel cs st :
  maxListeners st = Int 0 ∨ maxListeners st = Infinity →
  (∀ f, Forall not_setMaxListeners (body (code f))) →
  Forall not_setMaxListeners cs →
  warnings (script code fuel cs st) = warnings st
  ∧ getMaxListeners (script code fuel cs st) = getMaxListeners st.
Proof.
  intros Hmax Hcode Hcs.
  set (Inv := λ s, maxListeners s = maxListeners st ∧ warnings s = warnings st).
  assert (∀ event s, Inv s → Inv (emitMaxListenersExceeded event s)) as Hemit.
  { intros event s [Hm Hw].
    rewrite emitMaxListenersExceeded_unbounded by (rewrite Hm; exact Hmax).
    by split. }
  assert (∀ event l s, Inv s → Inv (after (on event l) s)) as Hon.
  { intros event l s [Hm Hw]. apply on_keeps; [|by auto].
    destruct (registration_fields event l s) as [(H1 & H2 & _) _].
    split; congruence. }
  assert (∀ event l s, Inv s → Inv (after (prepend event l) s)) as Hprepend.
  { intros event l s [Hm Hw]. apply prepend_keeps; [|by auto].
    destruct (registration_fields event l s) as [_ (H1 & H2 & _)].
    split; congruence. }
  assert (∀ event l s, Inv s → Inv (after (off event l) s)) as Hoff.
  { intros event l s [Hm Hw]. destruct (off_fields event l s) as (H1 & _ & H2 & _).
    split; congruence. }
  assert (Inv (script code fuel cs st)) as [H1 H2]; [|by split].
  apply (script_preserves code not_setMaxListeners Inv); try done.
  intros c s Hc HI.
  destruct c as [e l|e l|e l|e l|e l|e l|n|e args|v]; simpl in Hc; try done;
    cbn [exec]; try exact HI.
  - by apply Hon.
  - by apply Hprepend.
  - rewrite after_once. by apply Hon.
  - rewrite after_prependOnce. by apply Hprepend.
  - by apply Hoff.
  - destruct HI as [Hm Hw].
    destruct (removeAllListeners_fields e l s) as (H1 & H2 & _).
    split; congruence.
Qed.

Lemma no_warning_without_a_ceiling_witness :
  warnings (script code_passive 1 thirteen_registrations
              (setMaxListeners Infinity (fresh_emitter false))) = [].
Proof.
  apply (no_warning_without_a_ceiling code_passive 1 thirteen_registrations
           (setMaxListeners Infinity (fresh_emitter false))).
  - by right.
  - intros f. constructor.
  - repeat constructor.
Defined.

(** X11.  No method writes [captureRejections], and none clears a flag of
    [warningEmitted]: [removeAllListeners()] resets the registry, not the
    flags, so an event that was warned about is not warned about again. *)
Theorem flags_are_never_reset code fuel cs st event :
  event ∈ warningEmitted st →
  event ∈ warningEmitted (script code fuel cs st)
  ∧ captureRejections (script code fuel cs st) = captureRejections st
  ∧ warnings_for event (script code fuel cs st) = warnings_for event st.
Proof.
  intros Hflag.
  set (Inv := λ s, event ∈ warningEmitted s
                   ∧ captureRejections s = captureRejections st
                   ∧ warnings_for event s = warnings_for event st).
  assert (∀ e s, Inv s → Inv (emitMaxListenersExceeded e s)) as Hmax.
  { intros e s (Hf & Hc & Hw).
    destruct (emitMaxListenersExceeded_cases e s)
      as [->|(a & Hwarned & _ & _ & _ & ->)]; [done|].
    apply warned_false in Hwarned as [Hne _].
    assert (e ≠ event) as Hne' by (by intros ->).
    split; [simpl; apply elem_of_union; by right|]. split; [done|].
    unfold warnings_for in *. simpl. rewrite List.filter_app. simpl.
    rewrite bool_decide_eq_false_2 by done. by rewrite app_nil_r. }
  assert (∀ s s', warningEmitted s' = warningEmitted s →
                  captureRejections s' = captureRejections s →
                  warnings s' = warnings s → Inv s → Inv s') as Hsame.
  { intros s s' H1 H2 H3 (Hf & Hc & Hw). unfold Inv, warnings_for.
    by rewrite H1, H2, H3. }
  assert (∀ e l s, Inv s → Inv (after (on e l) s)) as Hon.
  { intros e l s H. apply on_keeps; [|by auto]. revert H.
    destruct (registration_fields e l s) as [(_ & H2 & H3 & _) _].
    apply Hsame; try done.
    unfold after, push_listener, ensure_events. by repeat case_match. }
  assert (∀ e l s, Inv s → Inv (after (prepend e l) s)) as Hprepend.
  { intros e l s H. apply prepend_keeps; [|by auto]. revert H.
    destruct (registration_fields e l s) as [_ (_ & H2 & H3 & _)].
    apply Hsame; try done.
    unfold after, unshift_listener, ensure_events. by repeat case_match. }
  assert (∀ e l s, Inv s → Inv (after (off e l) s)) as Hoff.
  { intros e l s. destruct (off_fields e l s) as (H1 & H2 & _).
    apply Hsame; try done. apply off_quiet. }
  assert (Inv (script code fuel cs st)) as H; [|exact H].
  apply (script_preserves code (λ _, True) Inv); try done.
  - intros f. by apply Forall_forall.
  - intros c s _ H.
    destruct c as [e l|e l|e l|e l|e l|e l|n|e args|v]; cbn [exec].
    + by apply Hon.
    + by apply Hprepend.
    + rewrite after_once. apply Hon. revert H. by apply Hsame.
    + rewrite after_prependOnce. apply Hprepend. revert H. by apply Hsame.
    + by apply Hoff.
    + destruct (removeAllListeners_fields e l s) as (_ & H2 & H3).
      revert H. apply Hsame; try done. apply removeAllListeners_quiet.
    + revert H. by apply Hsame.
    + exact H.
    + exact H.
  - by apply Forall_forall.
Qed.

Lemma flags_are_never_reset_witness :
  "e" ∈ warningEmitted
          (script code_passive 1
             (CallRemoveAllListeners None None :: thirteen_registrations)
             (script code_passive 1 thirteen_registrations (fresh_emitter false)))
  ∧ length (warnings
              (script code_passive 1
                 (CallRemoveAllListeners None None :: thirteen_registrations)
                 (script code_passive 1 thirteen_registrations
                    (fresh_emitter false)))) = 1.
Proof.
  destruct (flags_are_never_reset code_passive 1
              (CallRemoveAllListeners None None :: thirteen_registrations)
              (script code_passive 1 thirteen_registrations (fresh_emitter false))
              "e") as (H1 & _ & _).
  - vm_compute. reflexivity.
  - split; [exact H1|]. vm_compute. reflexivity.
Defined.

(** [on] under a ceiling other than 0 and [Infinity]: the registration,
    then the diagnostic if the flag is not set and the new length is beyond
    the ceiling. *)
Lemma on_bounded st event l z :
  well_formed st → ordinary event →
  maxListeners st = Int z → z ≠ 0%Z →
  let n := S (length (entries st event)) in
  let st1 := after (push_listener event l) (ensure_events event st) in
  after (on event l) st
  = if decide ((event ∉ warningEmitted st) ∧ (z < Z.of_nat n)%Z)
    then set_warnings (warnings st ++ [diagnostic st event n])
           (set_warningEmitted ({[event]} ∪ warningEmitted st) st1)
    else st1.
Proof.
  intros Hwf Ho Hmax Hz n st1.
  destruct (registration_fields event l st) as [(H1 & H2 & H3 & H4 & H5 & _) _].
  fold st1 in H1, H2, H3, H4, H5.
  destruct (ensure_events_is_Some event st (or_introl Ho)) as [a Ha].
  assert (push_listener event l (ensure_events event st) = (Normal tt, st1)) as E.
  { subst st1. unfold after. by rewrite (push_listener_own _ _ _ _ Ha). }
  assert (events st1 !! event = Some a) as Ha1.
  { subst st1. unfold after. by rewrite (push_listener_own _ _ _ _ Ha). }
  assert (length (array st1 a) = n) as Hlen.
  { pose proof (on_entries event l st event Hwf Ho) as He.
    rewrite after_on, E, entries_emitMaxListenersExceeded in He.
    unfold entries at 1 in He. rewrite Ha1 in He.
    rewrite He, decide_True, length_app by done. subst n. simpl. lia. }
  rewrite after_on, E.
  rewrite (emitMaxListenersExceeded_bounded event st1 z a)
    by (done || congruence).
  rewrite H3, Hlen, H2. unfold diagnostic. by rewrite H1, H4, H5.
Qed.

(** X12.  With a ceiling other than 0 and [Infinity], under an event name
    that [rawListeners] accepts, [on] returns with the listener registered,
    and emits the diagnostic exactly when the flag of the event is not set
    and the new number of entries exceeds the ceiling; the diagnostic carries
    that number, the name of the event, the name of the class and the
    ceiling, and the flag is set from then on. *)
Theorem on_warns_past_the_ceiling st event l z xs :
  in_use st →
  maxListeners st = Int z →
  z ≠ 0%Z →
  rawListeners st event = Normal xs →
  let st' := after (on event l) st in
  let n := S (length xs) in
  on event l st = (Normal tt, st')
  ∧ warnings st'
    = warnings st
      ++ (if decide ((event ∉ warningEmitted st) ∧ (z < Z.of_nat n)%Z)
          then [Warning (if process_defined st then ProcessEmitWarning
                         else ConsoleWarn)
                  MaxListenersExceededWarning n event (constructor_name st)
                  (Int z)]
          else [])
  ∧ (event ∈ warningEmitted st'
     ↔ event ∈ warningEmitted st ∨ (z < Z.of_nat n)%Z)
  ∧ rawListeners st' event = Normal (xs ++ [l])
  ∧ listenerCount st' event None = Normal (Some n).
Proof.
  intros Hwf%in_use_well_formed Hmax Hz Hraw st' n.
  destruct (rawListeners_Normal st event xs Hwf Hraw) as [Ho ->].
  assert (entries st' event = entries st event ++ [l]) as Hent
    by (subst st'; by rewrite on_entries, decide_True).
  split; [apply on_returns; by left|].
  split; [|split; [|split]].
  3: by rewrite rawListeners_entries, Hent by (by left).
  3: { rewrite listenerCount_entries, Hent, length_app by (by left).
       subst n. simpl. do 2 f_equal. lia. }
  all: subst st'; rewrite (on_bounded st event l z Hwf Ho Hmax Hz);
    destruct (registration_fields event l st) as [(H1 & H2 & H3 & _) _];
    fold n; case_decide as Hd; simpl; rewrite ?H2, ?H3.
  - unfold diagnostic. by rewrite Hmax.
  - by rewrite app_nil_r.
  - split; [intros _; right; apply Hd|].
    intros _. apply elem_of_union. left. by apply elem_of_singleton.
  - split; [by left|]. intros [H|H]; [done|].
    destruct (decide (event ∈ warningEmitted st)); [done|]. destruct Hd. by split.
Qed.

Lemma on_warns_past_the_ceiling_witness :
  warnings (after (on "e" (Listener 2)) (setMaxListeners (Int 2) two_listeners))
  = [Warning ProcessEmitWarning MaxListenersExceededWarning 3 "e" "EventEmitter"
       (Int 2)].
Proof.
  assert (rawListeners (setMaxListeners (Int 2) two_listeners) "e"
          = Normal [Listener 0; Listener 1]) as Hraw by (vm_compute; reflexivity).
  assert (2 ≠ 0)%Z as Hz by discriminate.
  destruct (on_warns_past_the_ceiling (setMaxListeners (Int 2) two_listeners)
              "e" (Listener 2) 2 _
              (reachable_in_use _
                 (reachable_setMaxListeners _ _ reachable_two_listeners))
              eq_refl Hz Hraw) as (_ & H & _).
  rewrite H. vm_compute. reflexivity.
Defined.

(** ** Registering past the ceiling *)

Lemma register_snoc event fs f st :
  register event (fs ++ [f]) st
  = after (on event (Listener f)) (register event fs st).
Proof. unfold register. by rewrite fold_left_app. Qed.

(** X16.  On a new emitter with a ceiling [z] above 0, registering
    listeners with [on] under an event name that [Object.prototype] does not
    have emits no diagnostic up to [z] listeners, and exactly one from the
    listener after that on, however many follow; it reports [z + 1]
    listeners for the event, with the ceiling [z]. *)
Theorem registering_past_the_ceiling_warns_once z cr p st0 event fs :
  new_emitter (Int z) cr p = Some st0 →
  (0 < z)%Z →
  ordinary event →
  warnings (register event fs st0)
  = if decide (z < Z.of_nat (length fs))%Z
    then [Warning (if p then ProcessEmitWarning else ConsoleWarn)
            MaxListenersExceededWarning (S (Z.to_nat z)) event "EventEmitter"
            (Int z)]
    else [].
Proof.
  intros Hnew Hz Ho.
  destruct (new_emitter_well_formed _ _ _ _ Hnew) as (Hwf0 & _ & _ & He0).
  assert (maxListeners st0 = Int z ∧ warnings st0 = []
          ∧ warningEmitted st0 = ∅ ∧ process_defined st0 = p
          ∧ constructor_name st0 = "EventEmitter") as (Hm0 & Hw0 & Hf0 & Hp0 & Hc0).
  { by apply new_emitter_inv in Hnew as [_ ->]. }
  assert (∀ gs, well_formed (register event gs st0)
                ∧ length (entries (register event gs st0) event) = length gs)
    as Hreg.
  { intros gs. destruct (register_entries event gs st0 Hwf0 Ho) as (H1 & H2 & _).
    split; [done|]. rewrite H2, He0. simpl. by rewrite length_map. }
  cut (maxListeners (register event fs st0) = Int z
       ∧ process_defined (register event fs st0) = p
       ∧ constructor_name (register event fs st0) = "EventEmitter"
       ∧ (event ∈ warningEmitted (register event fs st0)
          ↔ (z < Z.of_nat (length fs))%Z)
       ∧ warnings (register event fs st0)
         = if decide (z < Z.of_nat (length fs))%Z
           then [Warning (if p then ProcessEmitWarning else ConsoleWarn)
                   MaxListenersExceededWarning (S (Z.to_nat z)) event
                   "EventEmitter" (Int z)]
           else []).
  { by intros (_ & _ & _ & _ & H). }
  induction fs as [|f fs IH] using rev_ind.
  - simpl. rewrite Hf0, Hw0, decide_False by lia.
    split; [done|]. split; [done|]. split; [done|]. split; [|done].
    split; [intros H; by apply elem_of_empty in H|lia].
  - destruct IH as (Hm & Hp & Hc & Hflag & Hw).
    destruct (Hreg fs) as [Hwf Hcount].
    rewrite register_snoc, length_app. simpl.
    rewrite (on_bounded _ event (Listener f) z Hwf Ho Hm) by lia.
    destruct (registration_fields event (Listener f) (register event fs st0))
      as [(H1 & H2 & H3 & H4 & H5 & _) _].
    rewrite Hcount.
    destruct (decide ((event ∉ warningEmitted (register event fs st0))
                      ∧ (z < Z.of_nat (S (length fs)))%Z)) as [[Hnot Hover]|Hd];
      simpl.
    + rewrite Hflag in Hnot.
      rewrite H1, H4, H5, Hw.
      rewrite decide_False, decide_True by lia. simpl.
      split; [done|]. split; [done|]. split; [done|].
      split.
      { split; [lia|]. intros _. apply elem_of_union. left.
        by apply elem_of_singleton. }
      unfold diagnostic. rewrite Hm, Hp, Hc. do 2 f_equal. lia.
    + rewrite H1, H2, H3, H4, H5, Hw.
      split; [done|]. split; [done|]. split; [done|].
      rewrite Hflag.
      destruct (decide (z < Z.of_nat (length fs))%Z) as [Hlt|Hge].
      * rewrite decide_True by lia. split; [split; lia|done].
      * assert (¬ (z < Z.of_nat (S (length fs)))%Z) as Hn.
        { intros Hlt. apply Hd. split; [by rewrite Hflag|done]. }
        rewrite decide_False by lia. split; [split; lia|done].
Qed.

Lemma registering_past_the_ceiling_warns_once_witness :
  warnings (register "e" [0; 1; 2; 3] (setMaxListeners (Int 2) (fresh_emitter false)))
  = [Warning ProcessEmitWarning MaxListenersExceededWarning 3 "e" "EventEmitter"
       (Int 2)].
Proof.
  assert (0 < 2)%Z as Hz by lia.
  assert (ordinary "e") as Ho by reflexivity.
  exact (registering_past_the_ceiling_warns_once 2 (Some false) true
           (setMaxListeners (Int 2) (fresh_emitter false)) "e" [0; 1; 2; 3]
           eq_refl Hz Ho).
Defined.

(** ** Emission: what stays registered, and promises *)

(** X13.  Plain listeners that just get called stay registered: an emission
    leaves the entries of every event as they are, so the next emission
    calls them again. *)
Theorem plain_listeners_stay_registered code fuel event args1 args2 st a fs :
  events st !! event = Some a →
  array st a = map Listener fs →
  (∀ f, f ∈ fs → passive (code f)) →
  ∃ st1 st2,
    emit code (S fuel) event args1 st = (Normal true, st1)
    ∧ emit code (S fuel) event args2 st1 = (Normal true, st2)
    ∧ (∀ e, rawListeners st2 e = rawListeners st e)
    ∧ calls st2 = calls st ++ map (λ f, (f, args1)) fs
                           ++ map (λ f, (f, args2)) fs.
Proof.
  intros Hev Harr Hp.
  assert (∀ args s, same_registry st s →
            ∃ s', emit code (S fuel) event args s = (Normal true, s')
              ∧ calls s' = calls s ++ map (λ f, (f, args)) fs
              ∧ same_registry st s') as Hemit.
  { intros args s Hs.
    assert (events s !! event = Some a) as Hev'
      by (destruct Hs as (-> & _); done).
    assert (array s a = map Listener fs ++ []) as Harr'
      by (by rewrite (same_registry_array _ _ a Hs), app_nil_r).
    destruct (emit_body_passive code (emit code fuel) event args s a fs []
                Hev' Harr' Hp) as (s' & E & Hc & Hr).
    exists s'. split; [|split; [done|by eapply same_registry_trans]].
    rewrite (emit_own _ _ _ _ _ _ Hev'). unfold bind, forEach.
    rewrite app_nil_r in Harr'. by rewrite Harr', length_map, E. }
  destruct (Hemit args1 st (same_registry_refl st)) as (st1 & E1 & Hc1 & Hr1).
  destruct (Hemit args2 st1 Hr1) as (st2 & E2 & Hc2 & Hr2).
  exists st1, st2. repeat split; try done.
  - intros e. by apply same_registry_rawListeners.
  - by rewrite Hc2, Hc1, <- app_assoc.
Qed.

Lemma plain_listeners_stay_registered_witness :
  ∃ st1 st2,
    emit code_passive 1 "e" [VString "a"] two_listeners = (Normal true, st1)
    ∧ emit code_passive 1 "e" [VString "b"] st1 = (Normal true, st2)
    ∧ (∀ e, rawListeners st2 e = rawListeners two_listeners e)
    ∧ calls st2 = [(0, [VString "a"]); (1, [VString "a"]);
                   (0, [VString "b"]); (1, [VString "b"])].
Proof.
  apply (plain_listeners_stay_registered code_passive 0 "e" [VString "a"]
           [VString "b"] two_listeners 0 [0; 1]).
  - reflexivity.
  - reflexivity.
  - intros f _. reflexivity.
Defined.

Section Promises.

Variable code : fid → function.
Variable emit' : string → list value → M bool.

Lemma dispatch_promise event x args st :
  quiet_entry code x →
  ∃ st', dispatch code emit' event args x st = (Normal tt, st')
    ∧ calls st' = calls st ++ [(original x, args)]
    ∧ rejections st'
      = rejections st ++ captured_rejections code (captureRejections st) event x
    ∧ captureRejections st' = captureRejections st
    ∧ heap_grows st st'.
Proof.
  intros Hq.
  destruct (invoke_quiet code emit' x args st Hq)
    as (r & st1 & E & Hw & Hl & Hc & Hr & Hp & Hh).
  unfold dispatch, try_catch, bind. rewrite E, Hp.
  unfold captured_rejections.
  destruct x as [f|w ev x].
  - rewrite (Hl eq_refl). simpl. unfold rejected.
    destruct (captureRejections st), (bool_decide (event = "error")),
      (returns (code f)); simpl;
      eexists; (split; [reflexivity|]); simpl;
      rewrite ?app_nil_r; repeat split; try done; by rewrite Hr.
  - rewrite (Hw eq_refl). simpl. rewrite andb_false_r.
    exists st1. split; [done|]. split; [done|].
    split; [|by split].
    destruct (_ && _); by rewrite app_nil_r.
Qed.

Lemma forEach_from_promises a event args xs n k st :
  (∃ ys, heap st !! a = Some (xs ++ ys)) →
  k + n = length xs →
  (∀ x, x ∈ xs → quiet_entry code x) →
  ∃ st', forEach_from a (dispatch code emit' event args) k n st = (Normal tt, st')
    ∧ calls st' = calls st ++ map (λ x, (original x, args)) (drop k xs)
    ∧ rejections st'
      = rejections st
        ++ List.flat_map (captured_rejections code (captureRejections st) event)
             (drop k xs)
    ∧ captureRejections st' = captureRejections st
    ∧ heap_grows st st'.
Proof.
  intros Hheap Hlen Hq. revert k st Hheap Hlen.
  induction n as [|n IH]; intros k st [ys Hheap] Hlen; simpl.
  - exists st. rewrite drop_ge by lia. simpl. rewrite !app_nil_r.
    auto using heap_grows_refl.
  - assert (is_Some (xs !! k)) as [x Hx] by (apply lookup_lt_is_Some; lia).
    unfold array. rewrite Hheap. simpl.
    rewrite (lookup_app_l_Some _ _ _ _ Hx).
    assert (x ∈ xs) as Hin by (by eapply list_elem_of_lookup_2).
    destruct (dispatch_promise event x args st (Hq x Hin))
      as (st1 & E1 & Hc1 & Hr1 & Hp1 & Hh1).
    destruct (Hh1 _ _ Hheap) as [zs Hzs]. rewrite <- app_assoc in Hzs.
    destruct (IH (S k) st1 (ex_intro _ _ Hzs) ltac:(lia))
      as (st2 & E2 & Hc2 & Hr2 & Hp2 & Hh2).
    exists st2. unfold bind. rewrite E1, E2.
    rewrite (drop_S _ _ _ Hx). simpl.
    repeat split; try congruence; [| |eauto using heap_grows_trans].
    + by rewrite Hc2, Hc1, <- app_assoc.
    + by rewrite Hr2, Hr1, Hp1, <- app_assoc.
Qed.

End Promises.

(** X14.  [emit] does not wait for promises.  Over entries whose listeners
    return (and may register at the end and remove on the way), it returns
    [true] having called the entries only; a [catch] handler is attached,
    for a later turn, to the promise of each plain listener when
    [captureRejections] is on and the event is not ["error"], and to none
    otherwise.  The promise of a listener registered with [once] is never
    handled: the wrapper does not return it. *)
Theorem rejected_promises_are_captured_later code fuel event args st a :
  events st !! event = Some a →
  (∀ x, x ∈ array st a → quiet_entry code x) →
  ∃ st', emit code (S fuel) event args st = (Normal true, st')
    ∧ calls st' = calls st ++ map (λ x, (original x, args)) (array st a)
    ∧ rejections st'
      = rejections st
        ++ List.flat_map (captured_rejections code (captureRejections st) event)
             (array st a).
Proof.
  intros Hev Hq. rewrite (emit_own _ _ _ _ _ _ Hev). unfold bind, forEach.
  destruct (heap st !! a) as [xs|] eqn:Hheap.
  - assert (array st a = xs) as Harr by (unfold array; by rewrite Hheap).
    rewrite Harr in *.
    destruct (forEach_from_promises code (emit code fuel) a event args xs
                (length xs) 0 st) as (st' & E & Hc & Hr & _);
      [exists []; by rewrite app_nil_r|done|done|].
    exists st'. rewrite E. by rewrite drop_0 in Hc, Hr.
  - assert (array st a = []) as -> by (unfold array; by rewrite Hheap).
    exists st. simpl. by rewrite !app_nil_r.
Qed.

Lemma rejected_promises_are_captured_later_witness :
  ∃ st', emit code_async_throwers 1 "erroredEvent" [VString "Hello, World!"]
           async_listeners = (Normal true, st')
    ∧ calls st' = [(0, [VString "Hello, World!"]); (1, [VString "Hello, World!"])]
    ∧ rejections st' = [VError "Test error"].
Proof.
  apply (rejected_promises_are_captured_later code_async_throwers 0
           "erroredEvent" [VString "Hello, World!"] async_listeners 1).
  - reflexivity.
  - intros x Hx.
    change (array async_listeners 1)
      with [Listener 0; OnceListenerWrapper 0 "erroredEvent" (Listener 1)] in Hx.
    apply elem_of_cons in Hx as [->|Hx]; [reflexivity|].
    apply list_elem_of_singleton in Hx as ->. by split.
Defined.

(** ** Once-wrappers are consumed by an emission *)

(** A wrapper passed to [off] is its own target, unless it has itself been
    registered with [once]. *)
Lemma off_target_unwrapped st event l :
  Forall (λ x, wraps l x = false) (onceEntries st event) →
  off_target st event l = l.
Proof. intros H. unfold off_target. by rewrite filter_none. Qed.

Lemma shallow_not_wrapping w ev l x :
  shallow x → wraps (OnceListenerWrapper w ev l) x = false.
Proof. by destruct x as [g|w' ev' [g|]]. Qed.

Lemma off_target_wrapper st event w ev l :
  Forall shallow (onceEntries st event) →
  off_target st event (OnceListenerWrapper w ev l) = OnceListenerWrapper w ev l.
Proof.
  intros H. apply off_target_unwrapped.
  eapply Forall_impl; [exact H|]. intros x. apply shallow_not_wrapping.
Qed.

Lemma filter_filter_and {A} (p q : A → bool) xs :
  List.filter p (List.filter q xs) = List.filter (λ x, q x && p x) xs.
Proof.
  induction xs as [|x xs IH]; simpl; [done|].
  destruct (q x); simpl; [destruct (p x)|]; by rewrite IH.
Qed.

Lemma without_wrappers_filter ws ys :
  without_wrappers ws ys
  = List.filter
      (λ y, negb (existsb (λ w, is_wrapper w && same_ref y w) ws)) ys.
Proof.
  revert ys. induction ws as [|w ws IH]; intros ys; simpl.
  - symmetry. by apply filter_all.
  - unfold without_wrappers in *. rewrite IH. unfold without_wrapper.
    destruct (is_wrapper w); simpl; [|done].
    rewrite filter_filter_and. apply List.filter_ext. intros y.
    by rewrite negb_orb.
Qed.

Lemma without_wrappers_self xs : without_wrappers xs xs = plain xs.
Proof.
  rewrite without_wrappers_filter. unfold plain.
  apply List.filter_ext_in. intros y Hy. f_equal.
  destruct y as [f|w ev f]; simpl.
  - apply not_true_is_false. intros (w & _ & Hw)%existsb_exists.
    by destruct w.
  - apply existsb_exists. exists (OnceListenerWrapper w ev f).
    split; [done|]. simpl. by apply bool_decide_eq_true_2.
Qed.

Lemma without_wrappers_once xs ys :
  ys ≡ₚ List.filter is_wrapper xs → without_wrappers xs ys = [].
Proof.
  intros Hp. rewrite without_wrappers_filter. apply filter_none, Forall_forall.
  intros y Hy. rewrite Hp in Hy. apply elem_of_filter_bool in Hy as [Hy Hw].
  apply negb_false_iff, existsb_exists. exists y.
  split; [by apply list_elem_of_In|]. by rewrite Hw, same_ref_refl.
Qed.

Lemma without_wrapper_shallow x ys :
  Forall shallow ys → Forall shallow (without_wrapper x ys).
Proof.
  unfold without_wrapper. destruct (is_wrapper x); [|done].
  apply Forall_filter_bool.
Qed.

Section Consume.

Variable code : fid → function.
Variable emit' : string → list value → M bool.
Variable event : string.

Hypothesis event_ordinary : ordinary event.

(** One call of the callback, on an entry of [event] that just gets
    called. *)
Lemma dispatch_consumes args x s :
  once_index_agrees Permutation s →
  Forall shallow (onceEntries s event) →
  keyed event x → shallow x →
  passive (code (original x)) →
  ∃ s', dispatch code emit' event args x s = (Normal tt, s')
    ∧ once_index_agrees Permutation s'
    ∧ heap_grows s s'
    ∧ calls s' = calls s ++ [(original x, args)]
    ∧ entries s' event = without_wrapper x (entries s event)
    ∧ onceEntries s' event = without_wrapper x (onceEntries s event)
    ∧ ∀ e, e ≠ event →
        entries s' e = entries s e
        ∧ onceEntries s' e = onceEntries s e
        ∧ events s' !! e = events s !! e.
Proof.
  intros Hagree Hidx Hkey Hsx Hp.
  assert (∀ s0 s1, events s1 = events s0 → heap s1 = heap s0 →
            onceListeners s1 = onceListeners s0 →
            once_index_agrees Permutation s0 →
            once_index_agrees Permutation s1
            ∧ heap_grows s0 s1
            ∧ (∀ e, entries s1 e = entries s0 e
                    ∧ onceEntries s1 e = onceEntries s0 e
                    ∧ events s1 !! e = events s0 !! e)) as Hsame.
  { intros s0 s1 He Hh Ho [Hwf HR].
    assert (∀ e, entries s1 e = entries s0 e ∧ onceEntries s1 e = onceEntries s0 e
                 ∧ events s1 !! e = events s0 !! e)
      as Hent
      by (intros e; unfold entries, array, onceEntries; by rewrite He, Hh, Ho).
    split; [split|split; [by apply heap_grows_same|done]].
    - revert Hwf. apply well_formed_same; congruence.
    - intros e Hoe. unfold wrappers. destruct (Hent e) as (-> & -> & _).
      by apply HR. }
  unfold passive in Hp.
  destruct x as [f|w ev [f|]]; simpl in Hkey, Hp, Hsx; [| |done].
  - assert (invoke code emit' (Listener f) args s
            = (Normal (returns (code f)), set_calls (calls s ++ [(f, args)]) s))
      as Hinv by (rewrite invoke_listener; by rewrite Hp).
    rewrite (dispatch_normal _ _ _ _ _ _ _ _ Hinv).
    destruct (_ && _ && _); [destruct (returns (code f))|]; simpl;
      eexists; (split; [reflexivity|]);
      (edestruct (Hsame s) as (H1 & H2 & H3); [| | |exact Hagree|];
       [reflexivity..|]);
      (split; [exact H1|]); (split; [exact H2|]); (split; [reflexivity|]);
      (split; [apply H3|]); (split; [apply H3|]); intros e _; apply H3.
  - subst ev. set (W := OnceListenerWrapper w event (Listener f)).
    set (s0 := after (off event W) s).
    assert (invoke code emit' W args s
            = (Normal Plain, set_calls (calls s0 ++ [(f, args)]) s0)) as Hinv.
    { unfold W. rewrite invoke_wrapper. unfold bind.
      rewrite off_returns by (by left). fold W s0.
      rewrite invoke_listener. unfold bind. by rewrite Hp. }
    rewrite (dispatch_normal _ _ _ _ _ _ _ _ Hinv).
    rewrite andb_false_r. simpl.
    pose proof (off_agrees_Permutation event W s Hagree) as Hagree0.
    fold s0 in Hagree0.
    destruct (Hsame s0 (set_calls (calls s0 ++ [(f, args)]) s0))
      as (H1 & H2 & H3); try done.
    pose proof (off_quiet event W s) as [Oc _ _ Oh]. fold s0 in Oc, Oh.
    eexists. split; [reflexivity|]. split; [exact H1|].
    split; [by eapply heap_grows_trans|].
    split; [simpl; by rewrite Oc|].
    assert (entries s0 event = without_wrapper W (entries s event)
            ∧ onceEntries s0 event = without_wrapper W (onceEntries s event))
      as [He Ho].
    { unfold without_wrapper. simpl. subst s0.
      destruct (events s !! event) as [a|] eqn:Ha.
      - rewrite (entries_off _ _ _ _ Ha), (onceEntries_off _ _ _ _ Ha).
        unfold W. rewrite off_target_wrapper by done.
        replace (array s a) with (entries s event)
          by (unfold entries; by rewrite Ha).
        done.
      - rewrite (after_off_absent _ _ _ Ha).
        assert (entries s event = []) as Hnil
          by (unfold entries; by rewrite Ha).
        destruct Hagree as [_ HR]. specialize (HR event event_ordinary).
        unfold wrappers in HR. rewrite Hnil in HR. simpl in HR.
        symmetry in HR. apply Permutation_nil_r in HR.
        by rewrite Hnil, HR. }
    destruct (H3 event) as (-> & -> & _). split; [exact He|]. split; [exact Ho|].
    intros e Hne. destruct (H3 e) as (-> & -> & ->).
    apply off_entries_other; [apply Hagree|done].
Qed.

Lemma forEach_from_consumes a args xs n k s :
  once_index_agrees Permutation s →
  Forall shallow (onceEntries s event) →
  (∃ ys, heap s !! a = Some (xs ++ ys)) →
  k + n = length xs →
  Forall (keyed event) xs →
  Forall shallow xs →
  (∀ x, x ∈ xs → passive (code (original x))) →
  ∃ s', forEach_from a (dispatch code emit' event args) k n s = (Normal tt, s')
    ∧ calls s' = calls s ++ map (λ x, (original x, args)) (drop k xs)
    ∧ entries s' event = without_wrappers (drop k xs) (entries s event)
    ∧ onceEntries s' event = without_wrappers (drop k xs) (onceEntries s event)
    ∧ ∀ e, e ≠ event →
        entries s' e = entries s e
        ∧ onceEntries s' e = onceEntries s e
        ∧ events s' !! e = events s !! e.
Proof.
  intros Hagree Hidx Hheap Hlen Hkey Hshallow Hp.
  revert k s Hagree Hidx Hheap Hlen.
  induction n as [|n IH]; intros k s Hagree Hidx [ys Hheap] Hlen; simpl.
  - exists s. rewrite drop_ge by lia. simpl. by rewrite app_nil_r.
  - assert (is_Some (xs !! k)) as [x Hx] by (apply lookup_lt_is_Some; lia).
    unfold array. rewrite Hheap. simpl.
    rewrite (lookup_app_l_Some _ _ _ _ Hx).
    assert (x ∈ xs) as Hin by (by eapply list_elem_of_lookup_2).
    destruct (dispatch_consumes args x s Hagree Hidx)
      as (s1 & E1 & Hagree1 & Hh1 & Hc1 & He1 & Ho1 & Hf1);
      [by eapply Forall_forall in Hkey|by eapply Forall_forall in Hshallow
      |by apply Hp|].
    destruct (Hh1 _ _ Hheap) as [zs Hzs]. rewrite <- app_assoc in Hzs.
    assert (Forall shallow (onceEntries s1 event)) as Hidx1
      by (rewrite Ho1; by apply without_wrapper_shallow).
    destruct (IH (S k) s1 Hagree1 Hidx1 (ex_intro _ _ Hzs) ltac:(lia))
      as (s2 & E2 & Hc2 & He2 & Ho2 & Hf2).
    exists s2. unfold bind. rewrite E1, E2.
    rewrite (drop_S _ _ _ Hx). simpl.
    split; [done|]. split; [by rewrite Hc2, Hc1, <- app_assoc|].
    split; [by rewrite He2, He1|]. split; [by rewrite Ho2, Ho1|].
    intros e Hne. destruct (Hf2 e Hne) as (-> & -> & ->). by apply Hf1.
Qed.

End Consume.

(** X15.  On an emitter whose callers register functions of their own,
    over listeners that just get called, an emission calls every entry of
    the event and leaves the plain listeners registered, in their order, and
    no once-wrapper: each wrapper has removed itself from the sequence and
    from the once-index.  The other events are as they were. *)
Theorem once_listeners_are_consumed code fuel event args st a :
  reachable st →
  events st !! event = Some a →
  (∀ x, x ∈ array st a → passive (code (original x))) →
  rawListeners st event = Normal (array st a)
  ∧ ∃ st', emit code (S fuel) event args st = (Normal true, st')
      ∧ calls st' = calls st ++ map (λ x, (original x, args)) (array st a)
      ∧ rawListeners st' event = Normal (plain (array st a))
      ∧ onceEntries st' event = []
      ∧ ∀ e, e ≠ event →
          rawListeners st' e = rawListeners st e
          ∧ onceEntries st' e = onceEntries st e.
Proof.
  intros Hreach Hev Hp.
  pose proof (reachable_agrees st Hreach) as Hagree.
  destruct (reachable_keyed st Hreach) as [_ Hkey].
  destruct (reachable_fresh st Hreach) as [_ Hfresh].
  destruct (Hagree) as [Hwf HR].
  assert (ordinary event) as Ho by (by apply (well_formed_own st event a)).
  assert (entries st event = array st a) as Hent
    by (unfold entries; by rewrite Hev).
  split; [rewrite rawListeners_entries by (by left); by rewrite Hent|].
  assert (a < length (heap st)) as Hlt by (by eapply Hwf).
  apply lookup_lt_is_Some in Hlt as [xs Hheap].
  assert (array st a = xs) as Harr by (unfold array; by rewrite Hheap).
  rewrite Harr in *.
  destruct (Hfresh event) as (_ & Hs & Hidx). rewrite Hent in Hs.
  specialize (Hkey event). rewrite Hent in Hkey.
  destruct (forEach_from_consumes code (emit code fuel) event Ho a args xs
              (length xs) 0 st) as (st' & E & Hc & He & Hon & Hf);
    try done.
  - exists []. by rewrite app_nil_r.
  - rewrite drop_0 in Hc, He, Hon. exists st'. split.
    + rewrite (emit_own _ _ _ _ _ _ Hev). unfold bind, forEach.
      by rewrite Harr, E.
    + split; [done|]. rewrite Hent in He.
      split; [rewrite rawListeners_entries by (by left);
              by rewrite He, without_wrappers_self|].
      split.
      * rewrite Hon. apply without_wrappers_once.
        rewrite <- Hent. symmetry. by apply HR.
      * intros e Hne. destruct (Hf e Hne) as (H1 & H2 & H3).
        split; [by apply rawListeners_same|done].
Qed.

Lemma once_listeners_are_consumed_witness :
  ∃ st', emit code_passive 1 "e" [VString "v"] on_then_once = (Normal true, st')
    ∧ calls st' = [(0, [VString "v"]); (0, [VString "v"])]
    ∧ rawListeners st' "e" = Normal [Listener 0]
    ∧ onceEntries st' "e" = [].
Proof.
  destruct (once_listeners_are_consumed code_passive 0 "e" [VString "v"]
              on_then_once 0) as (_ & st' & H1 & H2 & H3 & H4 & _).
  - apply reachable_on_then_once.
  - reflexivity.
  - intros x _. reflexivity.
  - exists st'. split; [exact H1|]. split; [exact H2|]. split; [exact H3|exact H4].
Defined.

(** ** [once] and [off] *)

(** X17.  On an emitter whose callers register functions of their own,
    under an event name that [Object.prototype] does not have,
    [once( event, L )] followed by [off( event, L )] is a round trip: both
    return, the wrapper just created is the one removed, and
    [rawListeners] and the once-index of every event are what they were. *)
Theorem once_then_off_restores st event f :
  reachable st →
  ordinary event →
  let st1 := after (once event (Listener f)) st in
  let st2 := after (off event (Listener f)) st1 in
  once event (Listener f) st = (Normal tt, st1)
  ∧ off event (Listener f) st1 = (Normal tt, st2)
  ∧ off_target st1 event (Listener f)
    = OnceListenerWrapper (next_wrapper st) event (Listener f)
  ∧ ∀ e, rawListeners st2 e = rawListeners st e
         ∧ onceEntries st2 e = onceEntries st e.
Proof.
  intros Hreach Ho st1 st2.
  destruct (reachable_agrees st Hreach) as [Hwf HR].
  destruct (reachable_fresh st Hreach) as [_ Hfresh].
  set (W := OnceListenerWrapper (next_wrapper st) event (Listener f)).
  destruct (once_effect false event (Listener f) st Hwf)
    as (Hwf1 & _ & Honce & [(_ & _ & [a Ha] & Hev & Hent)|[Hno _]]); [|done].
  fold st1 in Hwf1, Honce, Ha, Hev, Hent. fold W in Honce, Hent.
  assert (off_target st1 event (Listener f) = W) as Htarget.
  { unfold off_target. rewrite Honce, decide_True by done.
    rewrite (last_filter_latest (wraps (Listener f)) _ W []); [done| |constructor].
    unfold wraps. simpl. by apply bool_decide_eq_true_2. }
  split; [apply once_returns; by left|].
  split; [apply off_returns; by left|].
  split; [exact Htarget|].
  intros e. destruct (decide (e = event)) as [->|He]; cycle 1.
  { destruct (off_entries_other event (Listener f) st1 e Hwf1 He)
      as (H1 & H2 & H3). fold st2 in H1, H2, H3.
    split.
    - apply rawListeners_same.
      + rewrite H3. by apply Hev.
      + rewrite H1, Hent. by rewrite decide_False.
    - rewrite H2, Honce. by rewrite decide_False. }
  assert (∀ x, x ∈ entries st event → negb (same_ref x W) = true) as Hold.
  { intros x Hx. destruct x as [g|w ev g]; [done|]. simpl.
    destruct (Hfresh event) as ([Hbelow _] & _). specialize (Hbelow _ _ _ Hx).
    rewrite bool_decide_eq_false_2; [done|lia]. }
  assert (entries st2 event = entries st event
          ∧ onceEntries st2 event = onceEntries st event) as [H1 H2].
  { subst st2.
    rewrite (entries_off _ _ _ _ Ha), (onceEntries_off _ _ _ _ Ha), Htarget.
    replace (array st1 a) with (entries st1 event)
      by (unfold entries; by rewrite Ha).
    rewrite Hent, Honce, !decide_True, !List.filter_app by done. simpl.
    rewrite bool_decide_eq_true_2 by done. simpl. rewrite !app_nil_r.
    split; apply filter_all; [exact Hold|].
    intros x Hx. apply Hold. rewrite <- (HR event Ho) in Hx.
    by apply elem_of_filter_bool in Hx as [Hx _]. }
  split; [|done].
  rewrite !rawListeners_entries by (by left). by rewrite H1.
Qed.

Lemma once_then_off_restores_witness :
  rawListeners (after (off "e" (Listener 0)) (after (once "e" (Listener 0))
                                                on_then_once)) "e"
    = rawListeners on_then_once "e"
  ∧ onceEntries (after (off "e" (Listener 0)) (after (once "e" (Listener 0))
                                                 on_then_once)) "e"
    = onceEntries on_then_once "e".
Proof.
  assert (ordinary "e") as Ho by reflexivity.
  destruct (once_then_off_restores on_then_once "e" 0 reachable_on_then_once Ho)
    as (_ & _ & _ & H).
  apply H.
Defined.

(** When the wrapper of a listener has itself been registered with [once],
    [off( event, wrapper )] finds the outer wrapper in the once-index and
    removes that one: the inner wrapper runs its listener and stays
    registered. *)
Lemma wrapper_of_a_wrapper_redirects_off :
  (emit code_thrower 1 "e" [VString "v"] once_of_the_wrapper).1
  = Thrown (VError "Test error")
  ∧ rawListeners (after (emit code_thrower 1 "e" [VString "v"]) once_of_the_wrapper)
      "e"
    = Normal [OnceListenerWrapper 0 "e" (Listener 0)].
Proof. vm_compute. done. Qed.

(** X18.  A listener registered with [once] that throws has been removed
    all the same: the wrapper calls [off] before the listener.  With
    rejection-capture off the throw leaves [emit], the later entries are not
    called, and the wrapper is no longer in the sequence.  The wrapper is
    one that has not itself been registered with [once]. *)
Theorem throwing_once_listener_is_removed code fuel event args st a w f rest v :
  events st !! event = Some a →
  array st a = OnceListenerWrapper w event (Listener f) :: rest →
  Forall (λ x, wraps (OnceListenerWrapper w event (Listener f)) x = false)
    (onceEntries st event) →
  throws (code f) = Some v →
  captureRejections st = false →
  ∃ st', emit code (S fuel) event args st = (Thrown v, st')
    ∧ calls st' = calls st ++ [(f, args)]
    ∧ entries st' event
      = List.filter
          (λ l, negb (same_ref l (OnceListenerWrapper w event (Listener f)))) rest
    ∧ (ordinary event →
       rawListeners st' event
       = Normal (List.filter
                   (λ l, negb (same_ref l
                                 (OnceListenerWrapper w event (Listener f))))
                   rest)).
Proof.
  intros Hev Harr Hidx Ht Hcap.
  set (W := OnceListenerWrapper w event (Listener f)).
  set (s0 := after (off event W) st).
  set (s1 := set_calls (calls s0 ++ [(f, args)]) s0).
  assert (invoke code (emit code fuel) W args st = (Thrown v, s1)) as Hinv.
  { unfold W. rewrite (invoke_wrapper_own _ _ _ _ _ _ _ _ Hev).
    fold W s0 s1. unfold bind, throws in *.
    destruct (body (code f)) as [|[] cs]; try done. by injection Ht as ->. }
  pose proof (off_quiet event W st) as [Oc _ Op _]. fold s0 in Oc, Op.
  assert (entries s1 event
          = List.filter (λ l, negb (same_ref l W)) rest) as Hent.
  { change (entries s1 event) with (entries s0 event). subst s0.
    rewrite (entries_off _ _ _ _ Hev).
    rewrite (off_target_unwrapped st event W Hidx), Harr. simpl.
    by rewrite bool_decide_eq_true_2. }
  exists s1. split; [|split; [|split]].
  - rewrite (emit_own _ _ _ _ _ _ Hev). unfold bind, forEach.
    rewrite Harr. cbn [List.length].
    rewrite (forEach_from_step _ _ _ _ W) by (by rewrite Harr).
    unfold bind. rewrite (dispatch_thrown _ _ _ _ _ _ _ _ Hinv).
    replace (captureRejections s1) with false by (symmetry; by rewrite <- Hcap).
    done.
  - simpl. by rewrite Oc.
  - exact Hent.
  - intros Ho. rewrite rawListeners_entries by (by left). by rewrite Hent.
Qed.

Lemma throwing_once_listener_is_removed_witness :
  ∃ st', emit code_thrower 1 "e" [VString "v"] throwing_once_listener
         = (Thrown (VError "Test error"), st')
    ∧ calls st' = [(0, [VString "v"])]
    ∧ rawListeners st' "e" = Normal [Listener 1].
Proof.
  assert (ordinary "e") as Ho by reflexivity.
  destruct (throwing_once_listener_is_removed code_thrower 0 "e" [VString "v"]
              throwing_once_listener 0 0 0 [Listener 1] (VError "Test error"))
    as (st' & H1 & H2 & _ & H3).
  - reflexivity.
  - reflexivity.
  - repeat constructor.
  - reflexivity.
  - reflexivity.
  - exists st'. split; [exact H1|]. split; [exact H2|]. by apply H3.
Defined.

(** ** Event names that [Object.prototype] has *)

(** X19.  On an emitter in use, an event name that [Object.prototype] has
    (['toString'], ['constructor'], ['__proto__'], ...) is never a property
    of [events] and never in [eventNames()]; [this.events[event]] reads the
    inherited value, which is not an array.  So [emit], [on], [prepend],
    [off], [rawListeners], [listeners], [listenerCount] with a listener and
    [removeAllListeners] with a listener throw, and leave the emitter as it
    is; [once] throws after its wrapper has been added to the once-index;
    [listenerCount( event )] is the [length] of the inherited value;
    [removeAllListeners( event )] returns. *)
Theorem inherited_event_names_throw st event v l :
  in_use st →
  Object_prototype event = Some v →
  events st !! event = None
  ∧ (event ∉ eventNames st)
  ∧ (∀ code fuel args,
       emit code (S fuel) event args st = (Thrown VTypeError, st))
  ∧ on event l st = (Thrown VTypeError, st)
  ∧ prepend event l st = (Thrown VTypeError, st)
  ∧ off event l st = (Thrown VTypeError, st)
  ∧ rawListeners st event = Thrown VTypeError
  ∧ listeners st event = Thrown VTypeError
  ∧ listenerCount st event None = Normal (inherited_length v)
  ∧ listenerCount st event (Some l) = Thrown VTypeError
  ∧ removeAllListeners (Some event) (Some l) st = (Thrown VTypeError, st)
  ∧ (removeAllListeners (Some event) None st).1 = Normal tt
  ∧ (once event l st).1 = Thrown VTypeError
  ∧ entries (after (once event l) st) event = entries st event
  ∧ onceEntries (after (once event l) st) event
    = onceEntries st event ++ [OnceListenerWrapper (next_wrapper st) event l].
Proof.
  intros Hwf%in_use_well_formed Hv.
  pose proof (well_formed_inherited st event v Hwf Hv) as Hnone.
  pose proof (events_at_inherited st event v Hnone Hv) as Hat.
  assert (rawListeners st event = Thrown VTypeError) as Hraw
    by (by apply rawListeners_inherited with v).
  assert (event ≠ "") as Hne by (intros ->; done).
  split; [done|].
  split; [unfold eventNames; by apply not_elem_of_dom|].
  split; [intros code fuel args; by apply emit_inherited with v|].
  split; [by apply on_inherited with v|].
  split; [by apply prepend_inherited with v|].
  split; [by apply off_inherited with v|].
  split; [done|].
  split; [unfold listeners; by rewrite Hraw|].
  split; [unfold listenerCount; by rewrite Hat|].
  split; [unfold listenerCount; by rewrite Hat|].
  split.
  { unfold removeAllListeners. rewrite (truthy_event_nonempty _ Hne).
    unfold bind, query. by rewrite Hraw. }
  split.
  { unfold removeAllListeners. by rewrite (truthy_event_nonempty _ Hne). }
  rewrite (once_inherited event l st v Hnone Hv).
  split; [done|]. unfold after.
  rewrite (once_inherited event l st v Hnone Hv). simpl.
  split; [done|].
  unfold onceEntries. simpl. by rewrite lookup_insert_eq.
Qed.

Lemma inherited_event_names_throw_witness :
  emit code_passive 1 "toString" [] two_listeners = (Thrown VTypeError, two_listeners)
  ∧ listenerCount two_listeners "hasOwnProperty" None = Normal (Some 1).
Proof.
  destruct (inherited_event_names_throw two_listeners "toString" (Method 0)
              (Listener 0) (reachable_in_use _ reachable_two_listeners) eq_refl)
    as (_ & _ & H1 & _).
  destruct (inherited_event_names_throw two_listeners "hasOwnProperty" (Method 1)
              (Listener 0) (reachable_in_use _ reachable_two_listeners) eq_refl)
    as (_ & _ & _ & _ & _ & _ & _ & _ & H2 & _).
  split; [apply H1|exact H2].
Defined.
